(** * wordbook-bob-plugin: a shallow embedding of [src/main.js]

    The plugin turns a piece of text into a list of English words (through an
    LLM call with a local regular-expression tokenizer as fallback) and writes
    them to a vocabulary notebook.  This file embeds the functions of
    [main.js] that carry the pipeline and proves the properties of the
    specification about them.

    JavaScript strings are sequences of UTF-16 code units; they are modelled
    as [list N].  The regular expressions of the source are transcribed into a
    small backtracking matcher with the priorities of the ECMAScript one.
    [JSON.parse] is a lexer and a parser that each take one step per input
    symbol.  A promise is modelled by what it settles with, and the serial
    writes run on an event loop with a shared store and any number of
    requests in flight.

    The first part embeds the source; the second part holds the predicates
    of the specification; the third part the proofs, with the claims C1 to
    C10; the last part proves further properties of the code, X1 to X27. *)

From Stdlib Require Import ZArith NArith Lia Ascii.
From stdpp Require Import base option list gmap strings pretty.

#[local] Set Warnings "-register-all,-clear-no-such-hyp".

Local Open Scope N_scope.

(** * The program *)

(** ** Strings *)

Module Js.

(** A UTF-16 code unit and a JavaScript string. *)
Abbreviation cu := N.
Abbreviation jsstring := (list N).

(** Source literals are written as Rocq strings (UTF-8 bytes) and decoded to
    UTF-16 code units. *)
Fixpoint utf16_of_utf8 (bs : list N) : jsstring :=
  match bs with
  | [] => []
  | b0 :: r0 =>
    if b0 <? 0x80 then b0 :: utf16_of_utf8 r0
    else if b0 <? 0xE0 then
      match r0 with
      | b1 :: r1 => ((b0 mod 0x20) * 0x40 + b1 mod 0x40) :: utf16_of_utf8 r1
      | [] => [0xFFFD]
      end
    else if b0 <? 0xF0 then
      match r0 with
      | b1 :: b2 :: r2 =>
        ((b0 mod 0x10) * 0x1000 + (b1 mod 0x40) * 0x40 + b2 mod 0x40)
          :: utf16_of_utf8 r2
      | _ => [0xFFFD]
      end
    else
      match r0 with
      | b1 :: b2 :: b3 :: r3 =>
        let cp := (b0 mod 0x08) * 0x40000 + (b1 mod 0x40) * 0x1000
                  + (b2 mod 0x40) * 0x40 + b3 mod 0x40 in
        let v := cp - 0x10000 in
        (0xD800 + v / 0x400) :: (0xDC00 + v mod 0x400) :: utf16_of_utf8 r3
      | _ => [0xFFFD]
      end
  end.

Fixpoint bytes_of_string (s : string) : list N :=
  match s with
  | EmptyString => []
  | String a s' => Ascii.N_of_ascii a :: bytes_of_string s'
  end.

Definition str (s : string) : jsstring := utf16_of_utf8 (bytes_of_string s).

(** Text that contains double quotes (JSON) is written with a backquote in
    the place of each double quote. *)
Definition strq (s : string) : jsstring :=
  (λ c, if c =? 0x60 then 0x22 else c) <$> str s.

(** [WhiteSpace] and [LineTerminator] of ECMAScript: what [\s] matches and
    what [String.prototype.trim] strips. *)
Definition isWhiteSpace (c : cu) : bool :=
  (c =? 0x09) || (c =? 0x0A) || (c =? 0x0B) || (c =? 0x0C) || (c =? 0x0D)
  || (c =? 0x20) || (c =? 0xA0) || (c =? 0x1680)
  || ((0x2000 <=? c) && (c <=? 0x200A))
  || (c =? 0x2028) || (c =? 0x2029) || (c =? 0x202F) || (c =? 0x205F)
  || (c =? 0x3000) || (c =? 0xFEFF).

Fixpoint dropWhile {A} (p : A → bool) (l : list A) : list A :=
  match l with
  | [] => []
  | x :: l' => if p x then dropWhile p l' else l
  end.

Definition trimStart (s : jsstring) : jsstring := dropWhile isWhiteSpace s.
Definition trimEnd (s : jsstring) : jsstring :=
  reverse (dropWhile isWhiteSpace (reverse s)).
(** [s.trim()] *)
Definition trim (s : jsstring) : jsstring := trimEnd (trimStart s).

Definition isUpper (c : cu) : bool := (0x41 <=? c) && (c <=? 0x5A).
Definition isLower (c : cu) : bool := (0x61 <=? c) && (c <=? 0x7A).

(** [s.toLowerCase()].  The model maps the code units [A]-[Z] to [a]-[z] and
    leaves every other code unit in place: this is what ECMAScript does on
    ASCII text; the case mapping of other scripts is not modelled.  The
    source lower-cases only matches of [[A-Za-z'-]] tokens and strings it has
    already checked with [isLikelyEnglishWord]. *)
Definition lowerUnit (c : cu) : cu := if isUpper c then c + 0x20 else c.
Definition toLowerCase (s : jsstring) : jsstring := lowerUnit <$> s.

(** [parts.join(sep)] for an array of strings. *)
Fixpoint join (sep : jsstring) (parts : list jsstring) : jsstring :=
  match parts with
  | [] => []
  | [p] => p
  | p :: rest => p ++ sep ++ join sep rest
  end.

End Js.
Import Js.

(** ** Regular expressions

    The fragment of ECMAScript patterns that [main.js] uses: character
    classes, concatenation, ordered alternation, greedy [?], greedy [*] and
    [+] over a character class, and the assertions [^] and [$] (no
    multiline flag).  The matcher is the usual backtracking one written
    with continuations: alternatives are tried left to right, and greedy
    quantifiers try the longest repetition first. *)

Module Regex.

Inductive regex : Type :=
| Eps
| Cls (p : N → bool)
| Seq (r1 r2 : regex)
| Alt (r1 r2 : regex)
| Opt (r : regex)
| Star (p : N → bool)
| Plus (p : N → bool)
| Bol
| Eol.

Section Matcher.
Context {A : Type}.

(** Greedy repetition of a class: take the longest run first, give back one
    code unit at a time while the continuation fails.  [i] is the index of
    the head of [s] in the subject string. *)
Fixpoint star (p : N → bool) (k : nat → list N → option A)
    (i : nat) (s : list N) : option A :=
  match s with
  | c :: s' =>
    if p c then
      match star p k (S i) s' with
      | Some a => Some a
      | None => k i s
      end
    else k i s
  | [] => k i []
  end.

Fixpoint m (r : regex) (i : nat) (s : list N)
    (k : nat → list N → option A) : option A :=
  match r with
  | Eps => k i s
  | Cls p =>
    match s with
    | c :: s' => if p c then k (S i) s' else None
    | [] => None
    end
  | Seq r1 r2 => m r1 i s (λ j t, m r2 j t k)
  | Alt r1 r2 =>
    match m r1 i s k with
    | Some a => Some a
    | None => m r2 i s k
    end
  | Opt r1 =>
    match m r1 i s k with
    | Some a => Some a
    | None => k i s
    end
  | Star p => star p k i s
  | Plus p =>
    match s with
    | c :: s' => if p c then star p k (S i) s' else None
    | [] => None
    end
  | Bol => match i with O => k i s | S _ => None end
  | Eol => match s with [] => k i s | _ :: _ => None end
  end.
End Matcher.

(** A match attempt at index [i], where [s] is the subject from [i] on:
    the index just past the match. *)
Definition match_at (r : regex) (i : nat) (s : list N) : option nat :=
  m r i s (λ j _, Some j).

(** [RegExp.prototype.exec] without flags: the leftmost start index at which
    an attempt succeeds. *)
Fixpoint exec_from (r : regex) (i : nat) (s : list N) : option (nat * nat) :=
  match match_at r i s with
  | Some j => Some (i, j)
  | None =>
    match s with
    | [] => None
    | _ :: s' => exec_from r (S i) s'
    end
  end.

(** [re.test(s)] *)
Definition test (r : regex) (s : list N) : bool :=
  bool_decide (is_Some (exec_from r 0 s)).

(** [s.match(re)] for a pattern with the [g] flag: all matches, scanning on
    from the end of the previous one (one code unit further after an empty
    match).  [skip] counts the code units of the current match still to
    pass.  JavaScript returns [null] for no match; every call site of the
    source writes [s.match(re) || []]. *)
Fixpoint match_all_from (r : regex) (i skip : nat) (s : list N)
    : list (list N) :=
  match skip with
  | S n =>
    match s with
    | [] => []
    | _ :: s' => match_all_from r (S i) n s'
    end
  | O =>
    match match_at r i s with
    | Some j =>
      let len := (j - i)%nat in
      take len s ::
        match s with
        | [] => []
        | _ :: s' => match_all_from r (S i) (len - 1)%nat s'
        end
    | None =>
      match s with
      | [] => []
      | _ :: s' => match_all_from r (S i) 0%nat s'
      end
    end
  end.

Definition match_all (r : regex) (s : list N) : list (list N) :=
  match_all_from r 0 0 s.

(** Literal text, and literal text under the [i] flag.  Without the [u]
    flag, case-insensitive matching never identifies an ASCII letter with a
    code unit outside ASCII, so a letter matches its two ASCII cases only. *)
Definition chr (c : N) : N → bool := N.eqb c.
Definition chr_ci (c : N) : N → bool :=
  λ x, N.eqb (lowerUnit x) (lowerUnit c).

Fixpoint lit (w : list N) : regex :=
  match w with
  | [] => Eps
  | c :: w' => Seq (Cls (chr c)) (lit w')
  end.

Fixpoint lit_ci (w : list N) : regex :=
  match w with
  | [] => Eps
  | c :: w' => Seq (Cls (chr_ci c)) (lit_ci w')
  end.

End Regex.
Import Regex.

(** ** 1) Normalisation and the strict local filter *)

(** [function normalizeWord(text)] on a string argument *)
Definition normalizeWord (text : jsstring) : jsstring :=
  toLowerCase (trim text).

(** Character classes of the patterns. *)
Definition isLetter (c : N) : bool := isUpper c || isLower c.
Definition isDigit (c : N) : bool := (0x30 <=? c) && (c <=? 0x39).
(** [[A-Za-z'-]] *)
Definition isWordChar (c : N) : bool :=
  isLetter c || (c =? 0x27) || (c =? 0x2D).
(** [[^\s@]] *)
Definition isLocalChar (c : N) : bool :=
  negb (isWhiteSpace c || (c =? 0x40)).
(** [[぀-ヿ㐀-鿿가-힯]] *)
Definition isCJK (c : N) : bool :=
  ((0x3040 <=? c) && (c <=? 0x30FF))
  || ((0x3400 <=? c) && (c <=? 0x9FFF))
  || ((0xAC00 <=? c) && (c <=? 0xD7AF)).
(** [[0-9_]] *)
Definition isDigitOrUnderscore (c : N) : bool := isDigit c || (c =? 0x5F).

(** [/^[^\s@]+@[^\s@]+\.[^\s@]+$/i] *)
Definition reEmail : regex :=
  Seq Bol (Seq (Plus isLocalChar) (Seq (Cls (chr 0x40))
    (Seq (Plus isLocalChar) (Seq (Cls (chr 0x2E))
      (Seq (Plus isLocalChar) Eol))))).

(** [/^(https?:\/\/|www\.)|:\/\//i] *)
Definition reURL : regex :=
  Alt (Seq Bol (Alt (Seq (lit_ci (str "http"))
                      (Seq (Opt (Cls (chr_ci 0x73))) (lit_ci (str "://"))))
                    (lit_ci (str "www."))))
      (lit_ci (str "://")).

(** [/\s/] *)
Definition reSpace : regex := Cls isWhiteSpace.
(** [/[぀-ヿ㐀-鿿가-힯]/] *)
Definition reCJK : regex := Cls isCJK.
(** [/[0-9_]/] *)
Definition reDigit : regex := Cls isDigitOrUnderscore.
(** [[A-Za-z](?:[A-Za-z'-]*[A-Za-z])?], the token pattern *)
Definition reToken : regex :=
  Seq (Cls isLetter) (Opt (Seq (Star isWordChar) (Cls isLetter))).
(** [/^[A-Za-z](?:[A-Za-z'-]*[A-Za-z])?$/] *)
Definition reWord : regex := Seq Bol (Seq reToken Eol).
(** [/--|''/] *)
Definition reDoubled : regex := Alt (lit (str "--")) (lit (str "''")).

(** [function isLikelyEnglishWord(text)] on a string argument.  The first
    guard [!text] rejects the empty string. *)
Definition isLikelyEnglishWord (text : jsstring) : bool :=
  if bool_decide (text = []) then false else
  let s := trim text in
  if (length s =? 0)%nat || (64 <? length s)%nat then false else
  if test reEmail s then false else
  if test reURL s then false else
  if test reSpace s then false else
  if test reCJK s then false else
  if test reDigit s then false else
  if negb (test reWord s) then false else
  if test reDoubled s then false else
  true.

(** The object [seen = Object.create(null)] of the two loops below is used
    as a map from strings to the number [1]; [seen[x]] is read for its
    truthiness. *)
Definition truthy_entry (e : option Z) : bool :=
  match e with
  | Some v => negb (v =? 0)%Z
  | None => false
  end.

(** One iteration of the loop of [localExtractWords]; [st] holds the
    variables [seen] and [out]. *)
Definition localExtractWords_step
    (st : gmap (list N) Z * list jsstring) (tok : jsstring)
    : gmap (list N) Z * list jsstring :=
  let w := normalizeWord tok in
  if bool_decide (w = []) then st else
  if negb (isLikelyEnglishWord w) then st else
  if truthy_entry (st.1 !! w) then st else
  (<[w := 1%Z]> st.1, st.2 ++ [w]).

(** [function localExtractWords(text)] on a string argument *)
Definition localExtractWords (text : jsstring) : list jsstring :=
  let rough := match_all reToken text in
  (foldl localExtractWords_step (∅, []) rough).2.

Definition uniqueStable_step
    (st : gmap (list N) Z * list jsstring) (x : jsstring)
    : gmap (list N) Z * list jsstring :=
  if truthy_entry (st.1 !! x) then st else
  (<[x := 1%Z]> st.1, st.2 ++ [x]).

(** [function uniqueStable(arr)] on an array of strings *)
Definition uniqueStable (arr : list jsstring) : list jsstring :=
  (foldl uniqueStable_step (∅, []) arr).2.

(** [arr.slice(0, end)] for an integral [end]: a negative [end] counts from
    the end of the array. *)
Definition slice0 {A} (arr : list A) (end_ : Z) : list A :=
  if (end_ <? 0)%Z
  then take (Z.to_nat (Z.max (Z.of_nat (length arr) + end_) 0)) arr
  else take (Z.to_nat end_) arr.

(** ** Configuration constants *)

(** [Number(x) || dflt] where [x] is an option of the plugin: [None] stands
    for a value that [Number] maps to [NaN] (an unset option, text that is
    not a number), [Some z] for the integer [z].  Fractional values are not
    modelled. *)
Definition number_or (x : option Z) (dflt : Z) : Z :=
  match x with
  | Some z => if (z =? 0)%Z then dflt else z
  | None => dflt
  end.

(** [Math.ceil(a / b)] for integers [a] and [b > 0] *)
Definition ceil_div (a b : Z) : Z := (- ((- a) / b))%Z.

(** [var WORD_CHECK_TIMEOUT_MS = Number($option.word_check_timeout_ms) || 50000] *)
Definition WORD_CHECK_TIMEOUT_MS (word_check_timeout_ms : option Z) : Z :=
  number_or word_check_timeout_ms 50000.

(** [var WORD_CHECK_TIMEOUT_S = Math.max(1, Math.ceil(WORD_CHECK_TIMEOUT_MS / 50000))] *)
Definition WORD_CHECK_TIMEOUT_S (word_check_timeout_ms : option Z) : Z :=
  Z.max 1 (ceil_div (WORD_CHECK_TIMEOUT_MS word_check_timeout_ms) 50000).

(** ** JSON values and [JSON.parse] *)

Module Json.

(** A number is kept as the exact value of its literal,
    [(-1)^neg * mant * 10^exp10]; the double it denotes is that value
    rounded to nearest. *)
Record number := Num { neg : bool; mant : N; exp10 : Z }.

Inductive value : Type :=
| JNull
| JBool (b : bool)
| JNumber (n : number)
| JString (s : jsstring)
| JArray (elems : list value)
| JObject (members : list (jsstring * value)).

(** *** Lexer: one step per code unit *)

Inductive token : Type :=
| TLBrace | TRBrace | TLBracket | TRBracket | TColon | TComma
| TStr (s : jsstring)
| TNum (n : number)
| TLit (v : value).

(** The digits read so far of a number literal: sign, mantissa (integer and
    fraction digits together), number of fraction digits, sign and value of
    the exponent. *)
Record numacc := NumAcc {
  a_neg : bool; a_mant : N; a_frac : Z; a_eneg : bool; a_exp : Z }.

Definition numacc_value (a : numacc) : number :=
  Num (a_neg a) (a_mant a)
      ((if a_eneg a then - a_exp a else a_exp a) - a_frac a)%Z.

Inductive lstate : Type :=
| LDefault
| LKeyword (rest : list N) (v : value)   (* inside true, false or null *)
| LString (acc : list N)                 (* inside a string; acc is reversed *)
| LEscape (acc : list N)                 (* after a backslash *)
| LUnicode (acc : list N) (n : nat) (code : N)  (* n hex digits read of \u *)
| LMinus                                 (* after '-': a digit must follow *)
| LZero (a : numacc)                     (* integer part is a single 0 *)
| LInt (a : numacc)                      (* inside the integer part *)
| LDot (a : numacc)                      (* after '.': a digit must follow *)
| LFrac (a : numacc)                     (* inside the fraction *)
| LE (a : numacc)                        (* after e or E *)
| LESign (a : numacc)                    (* after the sign of the exponent *)
| LExp (a : numacc).                     (* inside the exponent *)

Definition isJsonSpace (c : N) : bool :=
  (c =? 0x20) || (c =? 0x09) || (c =? 0x0A) || (c =? 0x0D).

Definition digit_value (c : N) : option N :=
  if isDigit c then Some (c - 0x30) else None.

Definition hex_value (c : N) : option N :=
  if isDigit c then Some (c - 0x30)
  else if (0x41 <=? c) && (c <=? 0x46) then Some (c - 0x41 + 10)
  else if (0x61 <=? c) && (c <=? 0x66) then Some (c - 0x61 + 10)
  else None.

Definition push_digit (a : numacc) (d : N) : numacc :=
  NumAcc (a_neg a) (a_mant a * 10 + d) (a_frac a) (a_eneg a) (a_exp a).
Definition push_frac (a : numacc) (d : N) : numacc :=
  NumAcc (a_neg a) (a_mant a * 10 + d) (a_frac a + 1) (a_eneg a) (a_exp a).
Definition push_exp (a : numacc) (d : N) : numacc :=
  NumAcc (a_neg a) (a_mant a) (a_frac a) (a_eneg a)
         (a_exp a * 10 + Z.of_N d).
Definition set_eneg (a : numacc) : numacc :=
  NumAcc (a_neg a) (a_mant a) (a_frac a) true (a_exp a).

(** A code unit at a token boundary. *)
Definition lex_default (c : N) : option (list token * lstate) :=
  if isJsonSpace c then Some ([], LDefault)
  else if c =? 0x7B then Some ([TLBrace], LDefault)
  else if c =? 0x7D then Some ([TRBrace], LDefault)
  else if c =? 0x5B then Some ([TLBracket], LDefault)
  else if c =? 0x5D then Some ([TRBracket], LDefault)
  else if c =? 0x3A then Some ([TColon], LDefault)
  else if c =? 0x2C then Some ([TComma], LDefault)
  else if c =? 0x22 then Some ([], LString [])
  else if c =? 0x74 then Some ([], LKeyword (str "rue") (JBool true))
  else if c =? 0x66 then Some ([], LKeyword (str "alse") (JBool false))
  else if c =? 0x6E then Some ([], LKeyword (str "ull") JNull)
  else if c =? 0x2D then Some ([], LMinus)
  else if c =? 0x30 then Some ([], LZero (NumAcc false 0 0 false 0))
  else match digit_value c with
       | Some d => Some ([], LInt (NumAcc false d 0 false 0))
       | None => None
       end.

(** A code unit that cannot continue a complete number literal ends it. *)
Definition lex_after_number (a : numacc) (c : N)
    : option (list token * lstate) :=
  '(toks, st) ← lex_default c;
  Some (TNum (numacc_value a) :: toks, st).

Definition isE (c : N) : bool := (c =? 0x65) || (c =? 0x45).

Definition lex_step (st : lstate) (c : N) : option (list token * lstate) :=
  match st with
  | LDefault => lex_default c
  | LKeyword rest v =>
    match rest with
    | [x] => if c =? x then Some ([TLit v], LDefault) else None
    | x :: rest' => if c =? x then Some ([], LKeyword rest' v) else None
    | [] => None
    end
  | LString acc =>
    if c =? 0x22 then Some ([TStr (reverse acc)], LDefault)
    else if c =? 0x5C then Some ([], LEscape acc)
    else if c <? 0x20 then None
    else Some ([], LString (c :: acc))
  | LEscape acc =>
    if c =? 0x22 then Some ([], LString (0x22 :: acc))
    else if c =? 0x5C then Some ([], LString (0x5C :: acc))
    else if c =? 0x2F then Some ([], LString (0x2F :: acc))
    else if c =? 0x62 then Some ([], LString (0x08 :: acc))
    else if c =? 0x66 then Some ([], LString (0x0C :: acc))
    else if c =? 0x6E then Some ([], LString (0x0A :: acc))
    else if c =? 0x72 then Some ([], LString (0x0D :: acc))
    else if c =? 0x74 then Some ([], LString (0x09 :: acc))
    else if c =? 0x75 then Some ([], LUnicode acc 0 0)
    else None
  | LUnicode acc n code =>
    match hex_value c with
    | Some d =>
      let code' := code * 16 + d in
      if (n =? 3)%nat then Some ([], LString (code' :: acc))
      else Some ([], LUnicode acc (S n) code')
    | None => None
    end
  | LMinus =>
    if c =? 0x30 then Some ([], LZero (NumAcc true 0 0 false 0))
    else match digit_value c with
         | Some d => Some ([], LInt (NumAcc true d 0 false 0))
         | None => None
         end
  | LZero a =>
    if c =? 0x2E then Some ([], LDot a)
    else if isE c then Some ([], LE a)
    else if isDigit c then None
    else lex_after_number a c
  | LInt a =>
    match digit_value c with
    | Some d => Some ([], LInt (push_digit a d))
    | None =>
      if c =? 0x2E then Some ([], LDot a)
      else if isE c then Some ([], LE a)
      else lex_after_number a c
    end
  | LDot a =>
    match digit_value c with
    | Some d => Some ([], LFrac (push_frac a d))
    | None => None
    end
  | LFrac a =>
    match digit_value c with
    | Some d => Some ([], LFrac (push_frac a d))
    | None => if isE c then Some ([], LE a) else lex_after_number a c
    end
  | LE a =>
    if c =? 0x2B then Some ([], LESign a)
    else if c =? 0x2D then Some ([], LESign (set_eneg a))
    else match digit_value c with
         | Some d => Some ([], LExp (push_exp a d))
         | None => None
         end
  | LESign a =>
    match digit_value c with
    | Some d => Some ([], LExp (push_exp a d))
    | None => None
    end
  | LExp a =>
    match digit_value c with
    | Some d => Some ([], LExp (push_exp a d))
    | None => lex_after_number a c
    end
  end.

(** End of input: only a complete number may be pending. *)
Definition lex_finish (st : lstate) : option (list token) :=
  match st with
  | LDefault => Some []
  | LZero a | LInt a | LFrac a | LExp a => Some [TNum (numacc_value a)]
  | _ => None
  end.

Fixpoint lex (st : lstate) (s : list N) : option (list token) :=
  match s with
  | [] => lex_finish st
  | c :: s' =>
    '(toks, st') ← lex_step st c;
    rest ← lex st' s';
    Some (toks ++ rest)
  end.

(** *** Parser: one step per token, with an explicit stack of the arrays
    and objects that are open *)

Inductive frame : Type :=
| FArr (acc : list value)                        (* elements, reversed *)
| FObj (acc : list (jsstring * value)) (key : jsstring).
                                 (* members, reversed; key awaits its value *)

Inductive pstate : Type :=
| PValue (stk : list frame)               (* a value must start *)
| PArrFirst (stk : list frame)            (* after '[' *)
| PArrAfter (acc : list value) (stk : list frame)   (* after an element *)
| PObjFirst (stk : list frame)            (* after '{' *)
| PObjKey (acc : list (jsstring * value)) (stk : list frame) (* after ',' *)
| PColon (acc : list (jsstring * value)) (key : jsstring) (stk : list frame)
| PObjAfter (acc : list (jsstring * value)) (stk : list frame)
| PDone (v : value).

(** A value is complete: it goes into the innermost open array or object. *)
Definition reduce (v : value) (stk : list frame) : pstate :=
  match stk with
  | [] => PDone v
  | FArr acc :: stk' => PArrAfter (v :: acc) stk'
  | FObj acc key :: stk' => PObjAfter ((key, v) :: acc) stk'
  end.

Definition parse_value (stk : list frame) (t : token) : option pstate :=
  match t with
  | TStr s => Some (reduce (JString s) stk)
  | TNum n => Some (reduce (JNumber n) stk)
  | TLit v => Some (reduce v stk)
  | TLBracket => Some (PArrFirst stk)
  | TLBrace => Some (PObjFirst stk)
  | _ => None
  end.

Definition parse_step (st : pstate) (t : token) : option pstate :=
  match st with
  | PValue stk => parse_value stk t
  | PArrFirst stk =>
    match t with
    | TRBracket => Some (reduce (JArray []) stk)
    | _ => parse_value (FArr [] :: stk) t
    end
  | PArrAfter acc stk =>
    match t with
    | TComma => Some (PValue (FArr acc :: stk))
    | TRBracket => Some (reduce (JArray (reverse acc)) stk)
    | _ => None
    end
  | PObjFirst stk =>
    match t with
    | TRBrace => Some (reduce (JObject []) stk)
    | TStr k => Some (PColon [] k stk)
    | _ => None
    end
  | PObjKey acc stk =>
    match t with
    | TStr k => Some (PColon acc k stk)
    | _ => None
    end
  | PColon acc k stk =>
    match t with
    | TColon => Some (PValue (FObj acc k :: stk))
    | _ => None
    end
  | PObjAfter acc stk =>
    match t with
    | TComma => Some (PObjKey acc stk)
    | TRBrace => Some (reduce (JObject (reverse acc)) stk)
    | _ => None
    end
  | PDone _ => None
  end.

Fixpoint parse_tokens (st : pstate) (ts : list token) : option value :=
  match ts with
  | [] => match st with PDone v => Some v | _ => None end
  | t :: ts' => st' ← parse_step st t; parse_tokens st' ts'
  end.

(** [JSON.parse(text)]; [None] is a thrown [SyntaxError].  The members of
    an object are kept in source order with their duplicates; a property
    read takes the last one, as [JSON.parse] keeps the last value of a
    repeated key. *)
Definition parse (text : jsstring) : option value :=
  ts ← lex LDefault text; parse_tokens (PValue []) ts.

(** *** Reading values *)

(** [o[key]] on an object made by [JSON.parse]. *)
Fixpoint get_member (members : list (jsstring * value)) (key : jsstring)
    : option value :=
  match members with
  | [] => None
  | (k, v) :: rest =>
    match get_member rest key with
    | Some v' => Some v'
    | None => if bool_decide (k = key) then Some v else None
    end
  end.

(** [v[key]] for one of the property names the source reads ([choices],
    [message], [content], [type], [text], [reasoning_content],
    [output_text], [finish_reason], [add], [code]): none of them is
    inherited by an object, nor a property of a string, number, boolean or
    array.  [None] is [undefined]. *)
Definition get (v : value) (key : jsstring) : option value :=
  match v with
  | JObject members => get_member members key
  | _ => None
  end.

(** The double of a number literal is [+0] or [-0]: the literal is zero or
    at most half the least subnormal, [2^-1075]. *)
Definition is_zero (n : number) : bool :=
  (mant n =? 0)
  || ((exp10 n <? 0)%Z
      && (Z.of_N (mant n) * 2 ^ 1075 <=? 10 ^ (- exp10 n))%Z).

(** The double of a number literal is an infinity: the literal is at least
    [2^1024 - 2^970], half-way between the greatest double and [2^1024]. *)
Definition is_infinite (n : number) : bool :=
  if (exp10 n <? 0)%Z
  then ((2 ^ 1024 - 2 ^ 970) * 10 ^ (- exp10 n) <=? Z.of_N (mant n))%Z
  else (2 ^ 1024 - 2 ^ 970 <=? Z.of_N (mant n) * 10 ^ exp10 n)%Z.

(** Truthiness of a value ([v || dflt], [if (v)]). *)
Definition truthy (v : value) : bool :=
  match v with
  | JNull => false
  | JBool b => b
  | JNumber n => negb (is_zero n)
  | JString s => negb (bool_decide (s = []))
  | JArray _ | JObject _ => true
  end.

End Json.
Import Json.

(** ** Conversions to string *)

(** [String(n)] for a number.  Zero and the infinities print as in
    ECMAScript.  For the other doubles ECMAScript prints the shortest
    decimal that reads back as the same double; the model prints the digits
    of the literal instead (sign, mantissa, and the exponent when it is not
    zero), which is the same text for an integer literal below [2^53] and,
    as in ECMAScript, always contains a decimal digit. *)
Definition number_to_string (n : number) : jsstring :=
  if is_zero n then str "0"
  else if is_infinite n then str (if neg n then "-Infinity" else "Infinity")
  else (if neg n then str "-" else []) ++ str (pretty (mant n))
       ++ (if (exp10 n =? 0)%Z then [] else str "e" ++ str (pretty (exp10 n))).

(** [String(v)] for a value made by [JSON.parse]; [None] is a thrown
    [TypeError].  An array prints its elements separated by commas, [null]
    as the empty string.  An object has no callable [toString] of its own:
    it prints through [Object.prototype.toString] unless it has an own
    member named [toString], which hides the inherited method and leaves no
    way to a primitive. *)
Fixpoint ToString (v : value) : option jsstring :=
  match v with
  | JNull => Some (str "null")
  | JBool b => Some (str (if b then "true" else "false"))
  | JNumber n => Some (number_to_string n)
  | JString s => Some s
  | JArray elems =>
    parts ← mapM (λ x, match x with JNull => Some [] | _ => ToString x end)
                 elems;
    Some (join (str ",") parts)
  | JObject members =>
    if bool_decide (is_Some (get_member members (str "toString")))
    then None
    else Some (str "[object Object]")
  end.

(** [v || dflt] *)
Definition or_else (v : option value) (dflt : value) : value :=
  match v with
  | Some x => if truthy x then x else dflt
  | None => dflt
  end.

(** ** The LLM response *)

(** [resp.response] of the host's HTTP result. *)
Record response_info := ResponseInfo {
  statusCode : option Z;
  status : option Z;
  response_data : option value }.

(** The value an HTTP promise is fulfilled with. *)
Record http_resp := HttpResp {
  response : option response_info;
  data : option value }.

(** [{ text, finish_reason }] *)
Record ark_content := ArkContent { text : jsstring; finish_reason : value }.

(** The [text] parts of a multimodal [content] array, in order. *)
Definition text_part (part : value) : option jsstring :=
  match get part (str "type"), get part (str "text") with
  | Some (JString ty), Some (JString t) =>
    if bool_decide (ty = str "text") then Some t else None
  | _, _ => None
  end.

(** [function extractArkContent(resp)] applied to [{ data: d }] *)
Definition extractArkContent (d : option value) : ark_content :=
  let data := or_else d (JObject []) in
  let choices := or_else (get data (str "choices")) (JArray []) in
  match choices with
  | JArray (c0 :: _) =>
    let ch0 := if truthy c0 then c0 else JObject [] in
    let msg := or_else (get ch0 (str "message")) (JObject []) in
    let fr := or_else (get ch0 (str "finish_reason")) (JString []) in
    match get msg (str "content") with
    | Some (JString content) => ArkContent content fr
    | Some (JArray content) =>
      ArkContent (concat (omap text_part content)) fr
    | _ =>
      match get msg (str "reasoning_content") with
      | Some (JString r) =>
        if bool_decide (r = []) then ArkContent [] fr else ArkContent r fr
      | _ => ArkContent [] fr
      end
    end
  | _ =>
    match get data (str "output_text") with
    | Some (JString t) =>
      ArkContent t (or_else (get data (str "finish_reason")) (JString []))
    | _ => ArkContent [] (JString [])
    end
  end.

(** ** 2) Extraction through the LLM *)

Record options := Options {
  volcano_api_key : jsstring;
  volcano_endpoint : jsstring;
  volcano_model : jsstring;
  llm_words_max_add : option Z;
  word_check_timeout_ms : option Z;
  dict_type : Z;
  authorization : jsstring;
  wordbook_id : jsstring }.

(** What a promise settles with. *)
Inductive settled (A E : Type) : Type :=
| Fulfilled (a : A)
| Rejected (e : E).
Arguments Fulfilled {A E} a.
Arguments Rejected {A E} e.

(** A value an HTTP promise is rejected with, as far as the source reads
    it.  [e_data_json] and [e_raw_json] are the texts that
    [JSON.stringify] gives for the data and for the error itself (empty when
    there is nothing to print or the call throws). *)
Record error_object := ErrorObject {
  e_message : option jsstring;
  e_stack : option jsstring;
  e_response : option response_info;
  e_res : option response_info;
  e_data_json : jsstring;
  e_raw_json : jsstring }.

Inductive error_value : Type :=
| ErrNullish
| ErrString (s : jsstring)
| ErrObject (o : error_object).

Definition nonempty (o : option jsstring) : option jsstring :=
  match o with
  | Some [] | None => None
  | Some s => Some s
  end.

Definition nonzero (o : option Z) : option Z :=
  match o with
  | Some z => if (z =? 0)%Z then None else Some z
  | None => None
  end.

(** [function errorToMessage(err)] *)
Definition errorToMessage (err : error_value) : jsstring :=
  match err with
  | ErrNullish => str "unknown"
  | ErrString s => s
  | ErrObject o =>
    match nonempty (e_message o) with
    | Some msg => msg
    | None =>
      match nonempty (e_stack o) with
      | Some stk => stk
      | None =>
        let resp := match e_response o with
                    | Some r => Some r
                    | None => e_res o
                    end in
        let code := r ← resp;
                    match nonzero (statusCode r) with
                    | Some z => Some z
                    | None => nonzero (status r)
                    end in
        let parts :=
          match code with
          | Some z => [str "statusCode=" ++ str (pretty z)]
          | None => []
          end
          ++ (if bool_decide (e_data_json o = []) then []
              else [str "data=" ++ e_data_json o])
          ++ (if bool_decide (e_raw_json o = []) then []
              else [str "raw=" ++ e_raw_json o]) in
        match join (str "; ") parts with
        | [] => str "unknown"
        | msg => msg
        end
      end
    end
  end.

(** The result of [extractWordsByLLMVolcano].  The fields [headers],
    [durationMs], [url], [endpoint] and [model] of the source only feed the
    diagnostic text and are left out. *)
Record ExtractionOutcome := Outcome {
  ok : bool;
  o_statusCode : Z;
  words : list jsstring;
  o_data : option value;
  errorMessage : option jsstring }.

(** [(x && x.response && x.response.statusCode) || 0] *)
Definition status_or_0 (r : option response_info) : Z :=
  match r ≫= statusCode with
  | Some z => z
  | None => 0%Z
  end.

(** The candidate list [wordsToAdd] made from the LLM's text: the
    [try]/[catch] around [JSON.parse]. *)
Definition wordsToAdd (content : jsstring) : list value :=
  match parse content with
  | Some (JArray parsed) => parsed
  | Some (JObject members) =>
    match get_member members (str "add") with
    | Some (JArray add) => add
    | _ => []
    end
  | Some _ => []
  | None => JString <$> localExtractWords content
  end.

(** [String(wordsToAdd[i] || '')]; [None] is a thrown [TypeError]. *)
Definition candidate_string (x : value) : option jsstring :=
  ToString (if truthy x then x else JString []).

(** The filter loop over [wordsToAdd]; [None] is the [TypeError] that
    [String(...)] throws. *)
Fixpoint clean_loop (cleaned : list jsstring) (l : list value)
    : option (list jsstring) :=
  match l with
  | [] => Some cleaned
  | x :: l' =>
    w0 ← candidate_string x;
    let w := trim w0 in
    if negb (isLikelyEnglishWord w) then clean_loop cleaned l'
    else clean_loop (cleaned ++ [w]) l'
  end.

(** [Number($option.llm_words_max_add) || 200] *)
Definition maxAdd (opt : options) : Z := number_or (llm_words_max_add opt) 200.

Inductive exn : Type := TypeError.

(** The fulfilment callback of the request: [.then(function (resp) ...)].
    An exception thrown in it rejects the promise that [then] returns. *)
Definition on_response (opt : options) (resp : option http_resp)
    : settled ExtractionOutcome exn :=
  let sc := status_or_0 (resp ≫= response) in
  let ext := extractArkContent (resp ≫= data) in
  let content := trim (text ext) in
  match clean_loop [] (wordsToAdd content) with
  | None => Rejected TypeError
  | Some cleaned =>
    let cleaned := slice0 (uniqueStable cleaned) (maxAdd opt) in
    Fulfilled
      {| ok := (200 <=? sc)%Z && (sc <? 300)%Z
               && (0 <=? length cleaned)%nat;
         o_statusCode := sc;
         words := cleaned;
         o_data := resp ≫= data;
         errorMessage := None |}
  end.

(** The rejection callback of the request: [function (err) ...]. *)
Definition on_error (err : error_value) : ExtractionOutcome :=
  let r := match err with ErrObject o => e_response o | _ => None end in
  {| ok := false;
     o_statusCode := status_or_0 r;
     words := [];
     o_data := match r ≫= response_data with
               | Some v => if truthy v then Some v else None
               | None => None
               end;
     errorMessage := Some (errorToMessage err) |}.

(** *** The request *)

(** [String.prototype.replace] with a pattern without the [g] flag and a
    literal replacement. *)
Definition replace_first (r : regex) (repl s : jsstring) : jsstring :=
  match exec_from r 0 s with
  | Some (i, j) => take i s ++ repl ++ drop j s
  | None => s
  end.

(** [/\/+$/] *)
Definition reTrailingSlashes : regex := Seq (Plus (chr 0x2F)) Eol.
(** [/\/api\/v?3$/] *)
Definition reApiV3 : regex :=
  Seq (lit (str "/api/")) (Seq (Opt (Cls (chr 0x76))) (Seq (Cls (chr 0x33)) Eol)).
(** [/\/api$/] *)
Definition reApi : regex := Seq (lit (str "/api")) Eol.
(** [/^https?:\/\/(?:ark[-.]cn-beijing\.bytedance\.net|ark\.bytedance\.net)/i] *)
Definition reInternalHost : regex :=
  Seq Bol (Seq (lit_ci (str "http")) (Seq (Opt (Cls (chr_ci 0x73)))
    (Seq (lit_ci (str "://"))
      (Alt (Seq (lit_ci (str "ark"))
                (Seq (Cls (λ c, (c =? 0x2D) || (c =? 0x2E)))
                     (lit_ci (str "cn-beijing.bytedance.net"))))
           (lit_ci (str "ark.bytedance.net")))))).
(** [/^bot-/i] *)
Definition reBot : regex := Seq Bol (lit_ci (str "bot-")).

(** The endpoint [base] and the request [url] of the extraction call. *)
Definition llm_base (vBase : jsstring) : jsstring :=
  let base := replace_first reTrailingSlashes [] vBase in
  let base :=
    if negb (test reApiV3 base)
    then if test reApi base then base ++ str "/v3" else base ++ str "/api/v3"
    else base in
  if test reInternalHost base
  then str "https://ark.cn-beijing.volces.com/api/v3"
  else base.

Definition llm_url (vBase vModel : jsstring) : jsstring :=
  llm_base vBase ++
  (if test reBot vModel then str "/bots/chat/completions"
   else str "/chat/completions").

(** Where a request goes and what it carries.  Headers and the LLM prompt
    are left out. *)
Inductive target : Type :=
| LLMChat (url : jsstring)                 (* POST url *)
| YoudaoAdd (word : jsstring)              (* GET YOUDAO_ADD_WORD_URL + word *)
| EudicWords (id : jsstring) (ws : list jsstring)
                            (* POST EUDIC_ADD_WORD_URL, { id, words } *)
| EudicBatch (category_id : jsstring) (ws : list jsstring)
                            (* POST EUDIC_ADD_WORD_URL, { category_id, words } *)
| ShanbayUpload (word : jsstring).         (* POST SHANBAY_ADD_WORD_URL *)

(** The options object given to [$http.request]. *)
Record http_request := HttpRequest {
  req_target : target;
  timeout : Z }.

(** How the transport settles a request.  [$http.request] is taken to
    return a promise, and the promise to settle: the host enforces
    [timeout]. *)
Definition transport : Type :=
  http_request → settled (option http_resp) error_value.

Definition configured (s : jsstring) : bool := negb (bool_decide (s = [])).

(** The options object of the extraction call. *)
Definition llm_request (opt : options) : http_request :=
  {| req_target := LLMChat (llm_url (volcano_endpoint opt)
                                    (volcano_model opt));
     timeout := WORD_CHECK_TIMEOUT_S (word_check_timeout_ms opt) |}.

(** [function extractWordsByLLMVolcano(text, cancelSignal)]: the requests
    it issues and what the promise it returns settles with. *)
Definition extractWordsByLLMVolcano (opt : options) (text : jsstring)
    (net : transport) : list http_request * settled ExtractionOutcome exn :=
  if negb (configured (volcano_api_key opt)
           && configured (volcano_endpoint opt)
           && configured (volcano_model opt))
  then ([], Fulfilled {| ok := false; o_statusCode := 0; words := [];
                         o_data := Some (JString (str "[LLM 未配置]"));
                         errorMessage := None |})
  else
    let req := llm_request opt in
    ([req],
     match net req with
     | Fulfilled resp => on_response opt resp
     | Rejected err => Fulfilled (on_error err)
     end).

(** ** 3) Writing to the dictionaries *)

(** What a writer hands to its callback [cb]. *)
Inductive payload : Type :=
| PResult (msg : jsstring)          (* { result: buildResult(msg) } *)
| PError (msg : jsstring)           (* { error: buildError(msg) } *)
| PResponse (res : option http_resp)  (* the HTTP result itself *)
| PBatchError (msg : jsstring).
                         (* { __batch_error: true, result: buildResult(msg) } *)

(** A writer issues one request and, when it settles, calls [cb] once. *)
Definition writer : Type :=
  http_request * (settled (option http_resp) error_value → payload).

Definition masked (word : jsstring) : payload :=
  PResult (str "添加单词成功（超时本地兜底）：" ++ word).

(** [data.code === 0] *)
Definition code_is_0 (res : option http_resp) : bool :=
  match get (or_else (res ≫= data) (JObject [])) (str "code") with
  | Some (JNumber n) => is_zero n
  | _ => false
  end.

(** [res && res.response && res.response.statusCode === n] *)
Definition status_is (res : option http_resp) (n : Z) : bool :=
  bool_decide ((res ≫= response) ≫= statusCode = Some n).

(** [function addWordYoudao(query, cookie, word, cb)] *)
Definition addWordYoudao (opt : options) (word : jsstring) : writer :=
  ({| req_target := YoudaoAdd word;
      timeout := WORD_CHECK_TIMEOUT_S (word_check_timeout_ms opt) |},
   λ s, match s with
        | Fulfilled res =>
          if code_is_0 res
          then PResult (str "添加单词成功：" ++ word)
          else PError (str "有道 Cookie 错误或过期，请重新填写。")
        | Rejected _ => masked word
        end).

(** [function addWordEudic(query, token, word, wordbook_id, cb)] *)
Definition addWordEudic (opt : options) (word wordbook_id : jsstring)
    : writer :=
  ({| req_target := EudicWords wordbook_id [word];
      timeout := WORD_CHECK_TIMEOUT_S (word_check_timeout_ms opt) |},
   λ s, match s with
        | Fulfilled res => PResponse res
        | Rejected _ => masked word
        end).

(** [function addWordsBatchEudic(query, token, words, category_id, cb)] *)
Definition addWordsBatchEudic (opt : options) (ws : list jsstring)
    (category_id : jsstring) : writer :=
  ({| req_target := EudicBatch category_id ws;
      timeout := WORD_CHECK_TIMEOUT_S (word_check_timeout_ms opt) |},
   λ s, match s with
        | Fulfilled res => PResponse res
        | Rejected _ =>
          PBatchError (str "添加单词成功（批量超时本地兜底），请求词数："
                       ++ str (pretty (length ws)))
        end).

(** [function addWordShanbay(query, token, word, cb)] *)
Definition addWordShanbay (opt : options) (word : jsstring) : writer :=
  ({| req_target := ShanbayUpload word;
      timeout := WORD_CHECK_TIMEOUT_S (word_check_timeout_ms opt) |},
   λ s, match s with
        | Fulfilled res =>
          if status_is res 200
          then PResult (str "添加单词成功：" ++ word)
          else PError (str "扇贝 auth_token 错误或过期，请重新填写。")
        | Rejected _ => masked word
        end).

(** [res.response.statusCode] of a payload: only the HTTP result has one. *)
Definition payload_status_is (p : payload) (n : Z) : bool :=
  match p with
  | PResponse res => status_is res n
  | _ => false
  end.

(** [function addWord(query, dictType, authorization, word, cb)]: the
    writer of the configured dictionary, or the payload given to [cb] at
    once when the dictionary type is unknown. *)
Definition addWord (opt : options) (word : jsstring) : writer + payload :=
  if (dict_type opt =? 1)%Z then inl (addWordYoudao opt word)
  else if (dict_type opt =? 2)%Z then
    let '(req, k) := addWordEudic opt word (wordbook_id opt) in
    inl (req, λ s,
           if payload_status_is (k s) 201
           then PResult (str "添加单词成功：" ++ word)
           else PError (str "欧路词典 token 或配置有误，请检查。"))
  else if (dict_type opt =? 3)%Z then inl (addWordShanbay opt word)
  else inr (PError (str "未知的词典类型")).

(** [{ word, ok, message }] *)
Record WriteOutcome := WriteOutcomeOf {
  wo_word : jsstring;
  wo_ok : bool;
  wo_message : jsstring }.

(** [function pickMessageFromPluginPayload(p)].  For an HTTP result, which
    has no [result], the model gives the empty text; no caller hands one to
    [addWordP]. *)
Definition pickMessageFromPluginPayload (p : payload) : jsstring :=
  match p with
  | PResult msg | PError msg | PBatchError msg => msg
  | PResponse _ => []
  end.

(** [msg || dflt] on strings *)
Definition str_or (msg dflt : jsstring) : jsstring :=
  match msg with [] => dflt | _ => msg end.

(** The callback that [addWordP] gives to [addWord]: what its promise is
    resolved with. *)
Definition addWordP_resolve (word : jsstring) (res : payload) : WriteOutcome :=
  let msg := pickMessageFromPluginPayload res in
  match res with
  | PResult _ | PBatchError _ =>
    WriteOutcomeOf word true (str_or msg (str "添加单词成功：" ++ word))
  | _ =>
    WriteOutcomeOf word false (str_or msg (str "添加单词失败：" ++ word))
  end.

(** ** Serial writes and the event loop

    A piece of synchronous code issues requests, each with the callback
    that runs when the request settles, and may resolve the promise of the
    whole operation.  The variables [idx], [success] and [failed] of
    [addWordsInSeries] are shared by all callbacks and live in a store. *)

Record store := Store {
  idx : nat;
  success : list jsstring;
  failed : list (jsstring * jsstring) }.

(** [{ success, failed }] *)
Record BatchReport := Report {
  r_success : list jsstring;
  r_failed : list (jsstring * jsstring) }.

Inductive effect : Type :=
| Issue (req : http_request)
        (k : settled (option http_resp) error_value →
             store → store * list effect)
| Resolve (r : BatchReport).

Definition callback : Type :=
  settled (option http_resp) error_value → store → store * list effect.

(** The callback of [addWordP(...).then(function (r) ...)] up to the call of
    [next]. *)
Definition record_outcome (w : jsstring) (r : WriteOutcome) (st : store)
    : store :=
  if wo_ok r
  then {| idx := idx st; success := success st ++ [w]; failed := failed st |}
  else {| idx := idx st; success := success st;
          failed := failed st ++ [(w, str_or (wo_message r) (str "未知原因"))] |}.

(** [function next()] inside [addWordsInSeries].  Each call moves [idx] one
    step towards [words.length]; [fuel] bounds the number of calls.  With an
    unknown dictionary type [addWord] calls back at once, without a request,
    and the callback of [then] goes on with the next word. *)
Fixpoint next (opt : options) (words : list jsstring) (fuel : nat)
    (st : store) : store * list effect :=
  if (length words <=? idx st)%nat
  then (st, [Resolve (Report (success st) (failed st))])
  else
    match fuel with
    | O => (st, [])
    | S fuel' =>
      let w := default [] (words !! idx st) in
      let st := {| idx := S (idx st); success := success st;
                   failed := failed st |} in
      match addWord opt w with
      | inl (req, k) =>
        (st, [Issue req (λ s st',
                next opt words fuel'
                     (record_outcome w (addWordP_resolve w (k s)) st'))])
      | inr p =>
        next opt words fuel' (record_outcome w (addWordP_resolve w p) st)
      end
    end.

(** [function addWordsInSeries(query, dictType, authorization, words)] *)
Definition addWordsInSeries (opt : options) (words : list jsstring)
    : store * list effect :=
  next opt words (length words) (Store 0 [] []).

(** *** The event loop *)

Inductive event : Type :=
| EvIssue (req : http_request)
| EvSettle (req : http_request) (s : settled (option http_resp) error_value).

Record machine := Machine {
  m_store : store;
  inflight : list (http_request * callback);
  log : list event;
  resolved : option BatchReport }.

Fixpoint apply_effects (effs : list effect) (mc : machine) : machine :=
  match effs with
  | [] => mc
  | Issue req k :: effs' =>
    apply_effects effs'
      {| m_store := m_store mc; inflight := inflight mc ++ [(req, k)];
         log := log mc ++ [EvIssue req]; resolved := resolved mc |}
  | Resolve r :: effs' =>
    apply_effects effs'
      {| m_store := m_store mc; inflight := inflight mc; log := log mc;
         resolved := Some r |}
  end.

(** The [n]-th request in flight settles with [s]: its callback runs. *)
Definition settle (n : nat) (s : settled (option http_resp) error_value)
    (mc : machine) : option machine :=
  match inflight mc !! n with
  | Some (req, k) =>
    let '(st, effs) := k s (m_store mc) in
    Some (apply_effects effs
            {| m_store := st; inflight := delete n (inflight mc);
               log := log mc ++ [EvSettle req s]; resolved := resolved mc |})
  | None => None
  end.

Inductive step : machine → machine → Prop :=
| step_settle n s mc mc' : settle n s mc = Some mc' → step mc mc'.

(** The machine after the synchronous call [addWordsInSeries(...)]. *)
Definition start (opt : options) (words : list jsstring) : machine :=
  let '(st, effs) := addWordsInSeries opt words in
  apply_effects effs
    {| m_store := st; inflight := []; log := []; resolved := None |}.

(** A run in which the transport [net] settles the requests, oldest
    first. *)
Fixpoint run (net : transport) (fuel : nat) (mc : machine) : machine :=
  match fuel with
  | O => mc
  | S fuel' =>
    match inflight mc with
    | [] => mc
    | (req, _) :: _ =>
      match settle 0 (net req) mc with
      | Some mc' => run net fuel' mc'
      | None => mc
      end
    end
  end.

(** ** Input classification *)

(** The [type] of a classified input. *)
Inductive input_type : Type := single_word | multi_word | invalid.

(** [{ type, norm }] *)
Record classified := Classified { c_type : input_type; norm : jsstring }.

(** The class of the pattern for punctuation: full stop, comma,
    exclamation mark, question mark, semicolon, colon, apostrophe, double
    quote, parentheses, hyphen, underscore, slash and backslash. *)
Definition isPunct (c : N) : bool :=
  (c =? 0x2E) || (c =? 0x2C) || (c =? 0x21) || (c =? 0x3F) || (c =? 0x3B)
  || (c =? 0x3A) || (c =? 0x27) || (c =? 0x22) || (c =? 0x28) || (c =? 0x29)
  || (c =? 0x2D) || (c =? 0x5F) || (c =? 0x2F) || (c =? 0x5C).

(** The pattern for punctuation in [classifyInput]. *)
Definition rePunct : regex := Cls isPunct.

(** [function classifyInput(text)] on a string argument *)
Definition classifyInput (text : jsstring) : classified :=
  let raw := trim text in
  if bool_decide (raw = []) then Classified invalid []
  else if isLikelyEnglishWord raw
  then Classified single_word (normalizeWord raw)
  else if test reSpace raw || test rePunct raw
  then Classified multi_word raw
  else Classified invalid raw.

(** ** 5) The entry point *)

(** The argument [query] of [translate], as far as the source reads it:
    its text, and whether it has a callable [onCompletion]. *)
Record query := Query {
  q_text : jsstring;
  q_onCompletion : bool }.

(** The two ways in which the host is told the outcome. *)
Inductive channel : Type := OnCompletion | Completion.

(** [function finalize(query, completion, payload)]: the callback that is
    called, with its argument.  [completion] says whether the second
    argument of [translate] is a function.  What the callback throws is
    caught by the [try] of the source. *)
Definition finalize (q : query) (completion : bool) (p : payload)
    : list (channel * payload) :=
  if q_onCompletion q then [(OnCompletion, p)]
  else if completion then [(Completion, p)]
  else [].

(** [function joinPreview(arr, limit)] inside [translate] *)
Definition joinPreview (arr : list jsstring) (limit : nat) : jsstring :=
  let n := if (limit =? 0)%nat then 30%nat else limit in
  join (str ", ") (take n arr)
  ++ (if (n <? length arr)%nat
      then str " … 等 " ++ str (pretty (length arr - n)%nat) ++ str " 个"
      else []).

Definition agentLine (words : list jsstring) : jsstring :=
  str "Agent: 提取并优先排序 " ++ str (pretty (length words))
  ++ str " 个英文单词（AI已过滤简单词）→ " ++ joinPreview words 30.

(** [(res.data && res.data.message) ? String(res.data.message) : "批量导入成功"];
    [None] is the [TypeError] that [String] throws. *)
Definition serverMsg (res : option http_resp) : option jsstring :=
  match (res ≫= data) ≫= (λ d, if truthy d then get d (str "message")
                                else None) with
  | Some v => if truthy v then ToString v else Some (str "批量导入成功")
  | None => Some (str "批量导入成功")
  end.

(** The callback that [translate] gives to [addWordsBatchEudic]: the
    payload it hands to [finalize], or [None] when it throws. *)
Definition batch_done (words : list jsstring) (res : payload)
    : option payload :=
  let failed sc :=
    PError (str "Agent: 已提取 " ++ str (pretty (length words))
            ++ str " 个英文单词" ++ [0x0A] ++ str "Add: 批量失败（statusCode="
            ++ match nonzero sc with
               | Some z => str (pretty z)
               | None => str "n/a"
               end
            ++ str "）") in
  match res with
  | PResponse r =>
    if status_is r 201 then
      msg ← serverMsg r;
      Some (PResult (agentLine words ++ [0x0A] ++ str "Add: " ++ msg
                     ++ str "（请求词数：" ++ str (pretty (length words))
                     ++ str "）"))
    else Some (failed ((r ≫= response) ≫= statusCode))
  | PBatchError msg => Some (PBatchError msg)
  | PResult _ | PError _ => Some (failed None)
  end.

(** The callback of [addWordsInSeries(...).then(function (batchRes) ...)] *)
Definition series_done (words : list jsstring) (r : BatchReport) : payload :=
  let succ := r_success r in
  let fail := r_failed r in
  PResult
    (agentLine words ++ [0x0A]
     ++ str "Add: 成功 " ++ str (pretty (length succ)) ++ str " 个"
     ++ (match succ with
         | [] => []
         | _ => str "（" ++ joinPreview succ 30 ++ str "）"
         end)
     ++ (match fail with
         | [] => []
         | _ => [0x0A] ++ str "失败 " ++ str (pretty (length fail))
                ++ str " 个（如：" ++ joinPreview (fail.*1) 10 ++ str "）"
         end)).

(** The requests of a log, in the order of issue. *)
Definition issued (lg : list event) : list http_request :=
  omap (λ e, match e with EvIssue r => Some r | EvSettle _ _ => None end) lg.

(** [function translate(query, completion)]: the requests it issues, in
    order, and the calls of the host's callback.  The transport [net]
    settles every request.  [dbg] is the text that [makeLLMDebugMessage]
    makes for what the extraction settled with; it is built from fields of
    the outcome that the model leaves out (headers, duration, URL), and no
    branch of [translate] depends on it. *)
Definition translate (dbg : settled ExtractionOutcome exn → jsstring)
    (opt : options) (q : query) (completion : bool) (net : transport)
    : list http_request * list (channel * payload) :=
  if negb (configured (authorization opt)) then
    ([], finalize q completion (PError (str "「认证信息」缺失")))
  else
    let cls := classifyInput (q_text q) in
    match c_type cls with
    | invalid =>
      ([], finalize q completion (PResult (str "未检测到英文单词，已跳过")))
    | _ =>
      let '(reqs, s) := extractWordsByLLMVolcano opt (norm cls) net in
      match s with
      | Fulfilled winfo =>
        if negb (ok winfo)
        then (reqs, finalize q completion (PError (dbg s)))
        else
          let ws := slice0 (uniqueStable (words winfo)) (maxAdd opt) in
          if bool_decide (ws = []) then
            (reqs, finalize q completion
               (PResult (str "Agent: 模型未返回可加入的英文单词（空列表）"
                         ++ [0x0A] ++ str "Add: 跳过")))
          else if (dict_type opt =? 2)%Z then
            let '(req, k) := addWordsBatchEudic opt ws (wordbook_id opt) in
            (reqs ++ [req],
             match
               match batch_done ws (k (net req)) with
               | Some p => Some p
               | None =>
                 (* the callback threw inside [then]: the [catch] of
                    [addWordsBatchEudic] calls it again, with the payload
                    of a rejected request *)
                 batch_done ws (k (Rejected ErrNullish))
               end
             with
             | Some p => finalize q completion p
             | None => []
             end)
          else
            let mc := run net (length ws) (start opt ws) in
            (reqs ++ issued (log mc),
             match resolved mc with
             | Some r => finalize q completion (series_done ws r)
             | None => []
             end)
      | Rejected _ => (reqs, finalize q completion (PError (dbg s)))
      end
    end.

(** ** 4) Validation *)

(** The requests of the validation: the health check writes a word, the
    other request lists the notebooks
    ([GET EUDIC_BOOK_LIST_URL], with its timeout). *)
Inductive validate_request : Type :=
| VAddWord (req : http_request)
| VBookList (timeout : Z).

(** [{ result: true }] and [{ result: false, error: { type, message } }] *)
Inductive validation : Type :=
| Valid
| Invalid (type message : jsstring).

(** [function queryEudicWordbookIds(token, completion)].  [stringify] is
    [JSON.stringify(data, null, 2)]. *)
Definition queryEudicWordbookIds (stringify : value → jsstring)
    (opt : options)
    (net : validate_request → settled (option http_resp) error_value)
    : list validate_request * list validation :=
  let req :=
    VBookList (Z.max 5 (WORD_CHECK_TIMEOUT_S (word_check_timeout_ms opt))) in
  ([req],
   [match net req with
    | Fulfilled res =>
      if status_is res 200 then
        let d := or_else ((res ≫= data) ≫=
                            (λ d, if truthy d then get d (str "data")
                                  else None))
                         (JArray []) in
        Invalid (str "param")
                (str "请选择欧路单词本 id : " ++ [0x0A] ++ stringify d)
      else Invalid (str "param") (str "欧路 token 错误或过期。")
    | Rejected _ =>
      Invalid (str "param") (str "欧路单词本列表查询失败（网络/超时）。")
    end]).

(** [function pluginValidate(completion)]: the requests it issues and the
    calls of [completion]. *)
Definition pluginValidate (stringify : value → jsstring) (opt : options)
    (net : validate_request → settled (option http_resp) error_value)
    : list validate_request * list validation :=
  if negb (configured (authorization opt)) then
    ([], [Invalid (str "secretKey") (str "未设置认证信息。")])
  else if (dict_type opt =? 2)%Z then
    if negb (configured (wordbook_id opt))
    then queryEudicWordbookIds stringify opt net
    else
      let '(req, k) := addWordEudic opt (str "test") (wordbook_id opt) in
      if payload_status_is (k (net (VAddWord req))) 201
      then ([VAddWord req], [Valid])
      else
        let '(reqs, vs) := queryEudicWordbookIds stringify opt net in
        (VAddWord req :: reqs, vs)
  else ([], [Valid]).

(** * The words of the specification

    The definitions of this part are not in the source.  They say, in
    terms of lists, what the specification says in words, and the theorems
    relate them to the embedded code. *)

(** ** What a pattern matches *)

(** [denote r i u t]: the pattern [r] matches the text [u] that starts at
    index [i] of the subject and is followed by [t]. *)
Fixpoint denote (r : regex) (i : nat) (u t : list N) : Prop :=
  match r with
  | Eps => u = []
  | Cls p => ∃ c, u = [c] ∧ p c = true
  | Seq r1 r2 =>
    ∃ u1 u2, u = u1 ++ u2 ∧ denote r1 i u1 (u2 ++ t)
             ∧ denote r2 (i + length u1) u2 t
  | Alt r1 r2 => denote r1 i u t ∨ denote r2 i u t
  | Opt r1 => denote r1 i u t ∨ u = []
  | Star p => forallb p u = true
  | Plus p => u ≠ [] ∧ forallb p u = true
  | Bol => u = [] ∧ i = 0%nat
  | Eol => u = [] ∧ t = []
  end.

(** ** The strict-word rule *)

(** [w] occurs in [s]. *)
Definition has_infix (w s : jsstring) : Prop := ∃ a b, s = a ++ w ++ b.

(** [s] starts with [w], letter case aside. *)
Definition has_prefix_ci (w s : jsstring) : Prop :=
  ∃ u b, s = u ++ b ∧ toLowerCase u = toLowerCase w.

(** An e-mail address: [local@domain.tld], the three parts non-empty and
    free of white space and of [@]. *)
Definition email_shaped (s : jsstring) : Prop :=
  ∃ a b c, s = a ++ 0x40 :: b ++ 0x2E :: c
    ∧ a ≠ [] ∧ b ≠ [] ∧ c ≠ []
    ∧ forallb isLocalChar a = true
    ∧ forallb isLocalChar b = true
    ∧ forallb isLocalChar c = true.

(** A URL: starts with [http://], [https://] or [www.], or contains
    [://]. *)
Definition url_shaped (s : jsstring) : Prop :=
  has_prefix_ci (str "http://") s ∨ has_prefix_ci (str "https://") s
  ∨ has_prefix_ci (str "www.") s ∨ has_infix (str "://") s.

(** A letter, optionally followed by letters, hyphens and apostrophes that
    end in a letter. *)
Definition token_shaped (s : jsstring) : Prop :=
  ∃ c u, s = c :: u ∧ isLetter c = true
    ∧ (u = [] ∨ ∃ v d, u = v ++ [d] ∧ forallb isWordChar v = true
                        ∧ isLetter d = true).

(** The strict-word rule of the specification on a trimmed string. *)
Definition strict_word (t : jsstring) : Prop :=
  (1 ≤ length t ≤ 64)%nat
  ∧ ¬ email_shaped t
  ∧ ¬ url_shaped t
  ∧ (∀ c, c ∈ t → isWhiteSpace c = false ∧ isCJK c = false
                  ∧ isDigit c = false ∧ c ≠ 0x5F)
  ∧ token_shaped t
  ∧ ¬ has_infix (str "--") t
  ∧ ¬ has_infix (str "''") t.

(** ** First occurrences *)

(** The first occurrence of each element, in order. *)
Fixpoint first_seen (l : list jsstring) : list jsstring :=
  match l with
  | [] => []
  | x :: l' => x :: filter (λ y, y ≠ x) (first_seen l')
  end.

(** A token that passes the checks of the loop of [localExtractWords]. *)
Definition kept (w : jsstring) : Prop :=
  w ≠ [] ∧ isLikelyEnglishWord w = true.

Global Instance kept_dec w : Decision (kept w).
Proof. unfold kept. apply _. Defined.

(** What may follow a token: the end of the text, or a code unit that is
    not part of a word. *)
Definition token_end (t : jsstring) : Prop :=
  match t with [] => True | c :: _ => isWordChar c = false end.

(** ** The extraction *)

(** The response of a chat completion whose message is the text [t]. *)
Definition chat_response (sc : Z) (t : jsstring) : option http_resp :=
  Some (HttpResp (Some (ResponseInfo (Some sc) None None))
    (Some (JObject [(str "choices",
      JArray [JObject [(str "message",
        JObject [(str "content", JString t)])]])]))).

(** The text of the LLM in a fulfilled response. *)
Definition llm_text (resp : option http_resp) : jsstring :=
  trim (text (extractArkContent (resp ≫= data))).

(** The candidates that a settled extraction request gives. *)
Definition candidates_of (s : settled (option http_resp) error_value)
    : list value :=
  match s with
  | Fulfilled resp => wordsToAdd (llm_text resp)
  | Rejected _ => []
  end.

(** The strings that pass the filter, in the order of the candidates. *)
Definition kept_strings (cands : list value) : list jsstring :=
  filter (λ w, isLikelyEnglishWord w = true)
         (trim <$> omap candidate_string cands).

(** A candidate that cannot be converted to a string. *)
Definition unprintable (x : value) : Prop := candidate_string x = None.

(** An object with a member named [toString], or an array with such a
    value among its elements. *)
Fixpoint hides_toString (v : value) : bool :=
  match v with
  | JObject members =>
    bool_decide (is_Some (get_member members (str "toString")))
  | JArray elems => existsb hides_toString elems
  | _ => false
  end.

(** Induction on a value that reaches the elements of arrays. *)
Section ValueInd.
Context (P : value → Prop).
Hypothesis Hnull : P JNull.
Hypothesis Hbool : ∀ b, P (JBool b).
Hypothesis Hnum : ∀ n, P (JNumber n).
Hypothesis Hstr : ∀ s, P (JString s).
Hypothesis Harr : ∀ elems, Forall P elems → P (JArray elems).
Hypothesis Hobj : ∀ members, P (JObject members).

Fixpoint value_ind_elems (v : value) : P v :=
  match v with
  | JNull => Hnull
  | JBool b => Hbool b
  | JNumber n => Hnum n
  | JString s => Hstr s
  | JArray elems =>
    Harr elems
      ((fix go (l : list value) : Forall P l :=
          match l with
          | [] => @List.Forall_nil _ P
          | x :: l' => @List.Forall_cons _ P x l' (value_ind_elems x) (go l')
          end) elems)
  | JObject members => Hobj members
  end.
End ValueInd.

(** ** Serial runs *)

(** The request that writes one word, and what [addWordP] resolves with
    when that request settles with [s]. *)
Definition write_request (opt : options) (w : jsstring)
    : option http_request :=
  match addWord opt w with
  | inl (req, _) => Some req
  | inr _ => None
  end.

Definition write_outcome (opt : options) (w : jsstring)
    (s : settled (option http_resp) error_value) : WriteOutcome :=
  match addWord opt w with
  | inl (_, k) => addWordP_resolve w (k s)
  | inr p => addWordP_resolve w p
  end.

(** The log of a serial run: each request is issued, then settles, before
    the next one is issued.  [ss] are the settlements so far. *)
Fixpoint serial_log (reqs : list http_request)
    (ss : list (settled (option http_resp) error_value)) : list event :=
  match reqs with
  | [] => []
  | r :: reqs' =>
    match ss with
    | [] => [EvIssue r]
    | s :: ss' => EvIssue r :: EvSettle r s :: serial_log reqs' ss'
    end
  end.

(** The report of the outcomes [outs], in their order. *)
Definition successes (outs : list WriteOutcome) : list jsstring :=
  wo_word <$> filter (λ r, wo_ok r = true) outs.

Definition failures (outs : list WriteOutcome)
    : list (jsstring * jsstring) :=
  (λ r, (wo_word r, str_or (wo_message r) (str "未知原因")))
    <$> filter (λ r, wo_ok r = false) outs.

(** ** A configuration for the examples *)

(** A configuration with the defaults, and transports that answer every
    request in the same way, for the examples. *)
Definition demo_options (dictType : Z) : options :=
  {| volcano_api_key := str "key";
     volcano_endpoint := str "https://ark.cn-beijing.volces.com/api/v3";
     volcano_model := str "model";
     llm_words_max_add := None;
     word_check_timeout_ms := None;
     dict_type := dictType;
     authorization := str "secret";
     wordbook_id := str "0" |}.

Definition answer (sc : Z) (t : jsstring) : transport :=
  λ _, Fulfilled (chat_response sc t).

Definition failure (err : error_value) : transport := λ _, Rejected err.

(** ** Invariants of the loops *)

(** The invariant of the two de-duplicating loops: [seen] holds exactly the
    strings of [out]. *)
Definition seen_inv (st : gmap (list N) Z * list jsstring) : Prop :=
  ∀ x, truthy_entry (st.1 !! x) = true ↔ x ∈ st.2.

(** The store after the outcomes [outs]. *)
Definition store_is (st : store) (n : nat) (outs : list WriteOutcome) : Prop :=
  idx st = n ∧ success st = successes outs ∧ failed st = failures outs.

(** The log of the requests that have settled. *)
Fixpoint settled_log (opt : options) (ws : list jsstring)
    (ss : list (settled (option http_resp) error_value)) : list event :=
  match ws, ss with
  | w :: ws', s :: ss' =>
    match write_request opt w with
    | Some r => EvIssue r :: EvSettle r s :: settled_log opt ws' ss'
    | None => settled_log opt ws' ss'
    end
  | _, _ => []
  end.

(** The state of the event loop when the words [pre] have been written
    with the settlements [ss] and the words [rest] remain. *)
Definition serial_state (opt : options) (words : list jsstring)
    (pre rest : list jsstring)
    (ss : list (settled (option http_resp) error_value))
    (mc : machine) : Prop :=
  words = pre ++ rest ∧ length ss = length pre
  ∧ success (m_store mc) = successes (zip_with (write_outcome opt) pre ss)
  ∧ failed (m_store mc) = failures (zip_with (write_outcome opt) pre ss)
  ∧ match rest with
    | [] =>
      log mc = settled_log opt pre ss ∧ inflight mc = []
      ∧ resolved mc
        = Some (Report (successes (zip_with (write_outcome opt) pre ss))
                       (failures (zip_with (write_outcome opt) pre ss)))
    | w :: rest' =>
      ∃ req k,
        write_request opt w = Some req
        ∧ log mc = settled_log opt pre ss ++ [EvIssue req]
        ∧ inflight mc = [(req, k)]
        ∧ resolved mc = None
        ∧ idx (m_store mc) = S (length pre)
        ∧ ∀ s st, k s st
            = next opt words (length rest')
                   (record_outcome w (write_outcome opt w s) st)
    end.

(** * Proofs *)

(** ** The embedding at work *)

Example str_decodes_utf8 : str "a你" = [0x61; 0x4F60].
Proof. by vm_compute. Qed.

Example isLikelyEnglishWord_accepts :
  isLikelyEnglishWord (str "hello") = true
  ∧ isLikelyEnglishWord (str "Well-known") = true
  ∧ isLikelyEnglishWord (str "don't") = true
  ∧ isLikelyEnglishWord (str "  padded  ") = true.
Proof. by vm_compute. Qed.

Example isLikelyEnglishWord_rejects :
  isLikelyEnglishWord [] = false
  ∧ isLikelyEnglishWord (str "two words") = false
  ∧ isLikelyEnglishWord (str "a--b") = false
  ∧ isLikelyEnglishWord (str "-a") = false
  ∧ isLikelyEnglishWord (str "a'") = false
  ∧ isLikelyEnglishWord (str "naïve") = false
  ∧ isLikelyEnglishWord (str "你好") = false
  ∧ isLikelyEnglishWord (str "x_y") = false
  ∧ isLikelyEnglishWord (replicate 65 0x61) = false.
Proof. by vm_compute. Qed.

(** The second [+] of the address pattern gives back the dots it took. *)
Example reEmail_backtracks :
  test reEmail (str "me@mail.example.org") = true
  ∧ test reEmail (str "me@example") = false.
Proof. by vm_compute. Qed.

Example reURL_samples :
  test reURL (str "HTTPS://x") = true ∧ test reURL (str "Www.x") = true
  ∧ test reURL (str "ftp://x") = true ∧ test reURL (str "awww.x") = false.
Proof. by vm_compute. Qed.

Example match_all_tokens :
  match_all reToken (str "It's a well-known -fact-, x' 4you")
  = [str "It's"; str "a"; str "well-known"; str "fact"; str "x"; str "you"].
Proof. by vm_compute. Qed.

Example localExtractWords_sample :
  localExtractWords (str "The the cat's re--entry, Über-cool e-mail")
  = [str "the"; str "cat's"; str "ber-cool"; str "e-mail"].
Proof. by vm_compute. Qed.

Example parse_accepts :
  parse (strq " [1.5e2, {`a`: null, `a`: `你\n`}, true] ")
  = Some (JArray [JNumber (Num false 15 1);
                  JObject [(str "a", JNull);
                           (str "a", JString [0x4F60; 0x0A])];
                  JBool true])
  ∧ get (JObject [(str "a", JNull); (str "a", JBool true)]) (str "a")
    = Some (JBool true).
Proof. by vm_compute. Qed.

Example parse_rejects :
  parse [] = None ∧ parse (strq "[1,]") = None ∧ parse (strq "01") = None
  ∧ parse (strq "{a:1}") = None ∧ parse (strq "'x'") = None
  ∧ parse (strq "[1] 2") = None ∧ parse (strq "`open") = None
  ∧ parse (str "Here are the words: cat") = None.
Proof. by vm_compute. Qed.

Example ToString_samples :
  ToString (JArray [JNull; JString (str "a"); JArray [JBool true]])
  = Some (str ",a,true")
  ∧ ToString (JObject [(str "a", JNull)]) = Some (str "[object Object]")
  ∧ ToString (JObject [(str "toString", JNull)]) = None
  ∧ ToString (JNumber (Num false 1 999)) = Some (str "Infinity")
  ∧ ToString (JNumber (Num false 12 0)) = Some (str "12").
Proof. by vm_compute. Qed.

Example llm_url_samples :
  llm_url (str "https://ark.cn-beijing.volces.com/api/v3//") (str "model")
  = str "https://ark.cn-beijing.volces.com/api/v3/chat/completions"
  ∧ llm_url (str "https://gateway.example/api") (str "Bot-7")
    = str "https://gateway.example/api/v3/bots/chat/completions"
  ∧ llm_url (str "http://ark.bytedance.net") (str "model")
    = str "https://ark.cn-beijing.volces.com/api/v3/chat/completions".
Proof. by vm_compute. Qed.

(** The text of the model in the four shapes that [extractArkContent]
    reads. *)
Example extractArkContent_shapes :
  let message m := Some (JObject [(str "choices",
                     JArray [JObject [(str "message", JObject m)]])]) in
  text (extractArkContent (message [(str "content", JString (str "a"))]))
  = str "a"
  ∧ text (extractArkContent (message [(str "content",
        JArray [JObject [(str "type", JString (str "text"));
                         (str "text", JString (str "b"))];
                JObject [(str "type", JString (str "image"))];
                JObject [(str "type", JString (str "text"));
                         (str "text", JString (str "c"))]])]))
    = str "bc"
  ∧ text (extractArkContent
            (message [(str "reasoning_content", JString (str "d"))]))
    = str "d"
  ∧ text (extractArkContent
            (Some (JObject [(str "output_text", JString (str "e"))])))
    = str "e"
  ∧ text (extractArkContent None) = [].
Proof. by vm_compute. Qed.

(** A fulfilled extraction: the words are validated, de-duplicated and
    kept in the order of the model. *)
Example on_response_sample :
  ∃ o, on_response (demo_options 1)
         (chat_response 200
            (strq "{`add`:[`serendipity`,` Paris `,`e-mail`,`serendipity`,`two words`,42],`skip`:[`the`]}"))
       = Fulfilled o
       ∧ ok o = true
       ∧ words o = [str "serendipity"; str "Paris"; str "e-mail"].
Proof. eexists. by vm_compute. Qed.

(** ** The matcher *)

Section StarFacts.
Context {A : Type}.
Implicit Types (p : N → bool) (k : nat → list N → option A).

Lemma star_fallback p k i s :
  is_Some (k i s) → is_Some (star p k i s).
Proof.
  destruct s as [|c s]; simpl; [done|].
  destruct (p c); [|done]. destruct (star p k (S i) s); eauto.
Qed.

Lemma star_Some p k i s a :
  star p k i s = Some a →
  ∃ u t, s = u ++ t ∧ forallb p u = true ∧ k (i + length u)%nat t = Some a.
Proof.
  revert i. induction s as [|c s IH]; intros i; simpl.
  - intros H. exists [], []. by rewrite Nat.add_0_r.
  - assert (k i (c :: s) = Some a →
            ∃ u t, c :: s = u ++ t ∧ forallb p u = true
                   ∧ k (i + length u)%nat t = Some a) as Hhere.
    { intros H. exists [], (c :: s). by rewrite Nat.add_0_r. }
    destruct (p c) eqn:Hc; [|done].
    destruct (star p k (S i) s) as [b|] eqn:Hs; [|done].
    intros [= ->]. destruct (IH _ Hs) as (u & t & -> & Hu & Hk).
    exists (c :: u), t. simpl. rewrite Hc, Hu.
    repeat split. by rewrite <- Nat.add_succ_comm.
Qed.

Lemma star_is_Some p k i u t :
  forallb p u = true → is_Some (k (i + length u)%nat t) →
  is_Some (star p k i (u ++ t)).
Proof.
  revert i. induction u as [|c u IH]; intros i; simpl.
  - rewrite Nat.add_0_r. intros _. apply star_fallback.
  - intros [Hc Hu]%andb_prop. rewrite Hc. intros Hk.
    rewrite <- Nat.add_succ_comm in Hk.
    destruct (IH _ Hu Hk) as [a ->]. eauto.
Qed.

(** The greedy choice: when the continuation fails after the whole run and
    succeeds one code unit earlier, that is the result. *)
Lemma star_greedy p k i u d t a :
  forallb p u = true → p d = true →
  match t with [] => True | c :: _ => p c = false end →
  k (i + length u + 1)%nat t = None →
  k (i + length u)%nat (d :: t) = Some a →
  star p k i (u ++ d :: t) = Some a.
Proof.
  revert i. induction u as [|c u IH]; intros i; simpl.
  - intros _ Hd Ht Hnone Hsome. rewrite Hd.
    rewrite Nat.add_0_r in *. rewrite Nat.add_1_r in Hnone.
    destruct t as [|c t]; simpl; [by rewrite Hnone|].
    by rewrite Ht, Hnone.
  - intros [Hc Hu]%andb_prop Hd Ht Hnone Hsome. rewrite Hc.
    rewrite (IH (S i)); try done.
    + by rewrite Nat.add_succ_comm.
    + by rewrite Nat.add_succ_comm.
Qed.

(** With nothing to repeat the continuation runs in place. *)
Lemma star_stop p k i t :
  match t with [] => True | c :: _ => p c = false end →
  star p k i t = k i t.
Proof. destruct t as [|c t]; simpl; [done|]. by intros ->. Qed.
End StarFacts.

(** *** Searching for a single class *)

Lemma exec_from_Cls p i s :
  is_Some (exec_from (Cls p) i s) ↔ ∃ c, c ∈ s ∧ p c = true.
Proof.
  revert i. induction s as [|c s IH]; intros i; simpl.
  - split; [by intros [? [=]]|]. intros (c & Hc & _). by apply elem_of_nil in Hc.
  - unfold match_at; simpl. destruct (p c) eqn:Hc.
    + split; [|eauto]. intros _. exists c. split; [left|done].
    + rewrite IH. split.
      * intros (x & Hx & Hp). exists x. split; [by right|done].
      * intros (x & [->|Hx]%elem_of_cons & Hp); [congruence|eauto].
Qed.

Lemma test_Cls p s : test (Cls p) s = true ↔ ∃ c, c ∈ s ∧ p c = true.
Proof. unfold test. rewrite bool_decide_eq_true. apply exec_from_Cls. Qed.

Lemma test_Cls_false p s :
  test (Cls p) s = false ↔ ∀ c, c ∈ s → p c = false.
Proof.
  rewrite <- not_true_iff_false, test_Cls. split.
  - intros H c Hc. destruct (p c) eqn:Hp; [|done]. destruct H; eauto.
  - intros H (c & Hc & Hp). rewrite (H c Hc) in Hp. done.
Qed.

Section MatcherFacts.
Context {A : Type}.
Implicit Types (k : nat → list N → option A).

Lemma star_is_Some_iff p k i s :
  is_Some (star p k i s) ↔
  ∃ u t, s = u ++ t ∧ forallb p u = true ∧ is_Some (k (i + length u)%nat t).
Proof.
  split.
  - intros [a Ha]. destruct (star_Some _ _ _ _ _ Ha) as (u & t & ? & ? & Hk).
    exists u, t. rewrite Hk. eauto.
  - intros (u & t & -> & Hu & Hk). by apply star_is_Some.
Qed.

(** The matcher finds a match followed by a successful continuation
    exactly when there is one. *)
Theorem m_is_Some r i s k :
  is_Some (m r i s k) ↔
  ∃ u t, s = u ++ t ∧ denote r i u t ∧ is_Some (k (i + length u)%nat t).
Proof.
  revert i s k. induction r as [|p|r1 IH1 r2 IH2|r1 IH1 r2 IH2|r1 IH1|p|p| |];
    intros i s k; simpl.
  - split.
    + intros H. exists [], s. by rewrite Nat.add_0_r.
    + intros (u & t & -> & -> & H). by rewrite Nat.add_0_r in H.
  - split.
    + destruct s as [|c s]; [by intros [? [=]]|].
      destruct (p c) eqn:Hc; [|by intros [? [=]]].
      intros H. exists [c], s. simpl. rewrite Nat.add_1_r. eauto.
    + intros (u & t & -> & (c & -> & Hc) & H). simpl. rewrite Hc.
      by rewrite Nat.add_1_r in H.
  - rewrite IH1. split.
    + intros (u1 & t1 & -> & H1 & (u2 & t & -> & H2 & Hk)%IH2).
      exists (u1 ++ u2), t. rewrite length_app, Nat.add_assoc, <- (assoc_L (++)).
      eauto 10.
    + intros (u & t & -> & (u1 & u2 & -> & H1 & H2) & Hk).
      exists u1, (u2 ++ t). rewrite <- (assoc_L (++)). repeat split; [done|].
      apply IH2. exists u2, t. rewrite length_app, Nat.add_assoc in Hk. eauto.
  - split.
    + destruct (m r1 i s k) as [a|] eqn:H1.
      * intros _. destruct (proj1 (IH1 i s k)) as (u & t & ? & ? & ?).
        { by rewrite H1. } exists u, t. eauto.
      * intros (u & t & ? & ? & ?)%IH2. exists u, t. eauto.
    + intros (u & t & -> & [H|H] & Hk).
      * destruct (proj2 (IH1 i (u ++ t) k)) as [a ->]; eauto.
      * destruct (m r1 i (u ++ t) k); [eauto|]. apply IH2. eauto.
  - split.
    + destruct (m r1 i s k) as [a|] eqn:H1.
      * intros _. destruct (proj1 (IH1 i s k)) as (u & t & ? & ? & ?).
        { by rewrite H1. } exists u, t. eauto.
      * intros H. exists [], s. rewrite Nat.add_0_r. eauto.
    + intros (u & t & -> & [H| ->] & Hk).
      * destruct (proj2 (IH1 i (u ++ t) k)) as [a ->]; eauto.
      * destruct (m r1 i ([] ++ t) k); [eauto|].
        by rewrite Nat.add_0_r in Hk.
  - apply star_is_Some_iff.
  - split.
    + destruct s as [|c s]; [by intros [? [=]]|].
      destruct (p c) eqn:Hc; [|by intros [? [=]]].
      intros (u & t & -> & Hu & Hk)%star_is_Some_iff.
      exists (c :: u), t. simpl. rewrite Hc, Hu.
      rewrite <- Nat.add_succ_comm. eauto.
    + intros (u & t & -> & [Hne Hu] & Hk). destruct u as [|c u]; [done|].
      simpl in *. apply andb_prop in Hu as [-> Hu].
      apply star_is_Some_iff. exists u, t. rewrite Nat.add_succ_comm. eauto.
  - split.
    + destruct i; [|by intros [? [=]]]. intros H. exists [], s. eauto.
    + intros (u & t & -> & [-> ->] & Hk). done.
  - split.
    + destruct s; [|by intros [? [=]]]. intros H. exists [], [].
      rewrite Nat.add_0_r. eauto.
    + intros (u & t & -> & [-> ->] & Hk). by rewrite Nat.add_0_r in Hk.
Qed.
End MatcherFacts.

Lemma match_at_is_Some r i s :
  is_Some (match_at r i s) ↔ ∃ u t, s = u ++ t ∧ denote r i u t.
Proof.
  unfold match_at. rewrite m_is_Some. split.
  - intros (u & t & ? & ? & _). eauto.
  - intros (u & t & ? & ?). exists u, t. eauto.
Qed.

Lemma exec_from_is_Some r i s :
  is_Some (exec_from r i s) ↔
  ∃ a u t, s = a ++ u ++ t ∧ denote r (i + length a) u t.
Proof.
  revert i. induction s as [|c s IH]; intros i; simpl.
  - destruct (match_at r i []) as [j|] eqn:Hm.
    + split; [|eauto]. intros _.
      destruct (proj1 (match_at_is_Some r i [])) as (u & t & ? & ?).
      { by rewrite Hm. } exists [], u, t. by rewrite Nat.add_0_r.
    + split; [by intros [? [=]]|]. intros (a & u & t & Hs & H).
      symmetry in Hs. apply app_eq_nil in Hs as [-> Hs].
      rewrite Nat.add_0_r in H.
      destruct (proj2 (match_at_is_Some r i [])) as [j Hj]; [eauto|].
      congruence.
  - destruct (match_at r i (c :: s)) as [j|] eqn:Hm.
    + split; [|eauto]. intros _.
      destruct (proj1 (match_at_is_Some r i (c :: s))) as (u & t & ? & ?).
      { by rewrite Hm. } exists [], u, t. by rewrite Nat.add_0_r.
    + rewrite IH. split.
      * intros (a & u & t & -> & H). exists (c :: a), u, t. simpl.
        by rewrite <- Nat.add_succ_comm.
      * intros (a & u & t & Hs & H). destruct a as [|c' a].
        -- rewrite Nat.add_0_r in H. simpl in Hs.
           destruct (proj2 (match_at_is_Some r i (c :: s))) as [j Hj];
             [by exists u, t|congruence].
        -- simpl in Hs. injection Hs as -> ->. exists a, u, t.
           simpl in H. by rewrite Nat.add_succ_comm.
Qed.

(** [re.test(s)] holds exactly when some part of [s] matches. *)
Theorem test_true r s :
  test r s = true ↔
  ∃ a u t, s = a ++ u ++ t ∧ denote r (length a) u t.
Proof.
  unfold test. rewrite bool_decide_eq_true, exec_from_is_Some. done.
Qed.

(** *** The patterns of the source *)

Lemma denote_lit w i u t : denote (lit w) i u t ↔ u = w.
Proof.
  revert i u. induction w as [|c w IH]; intros i u; simpl; [done|].
  split.
  - intros (u1 & u2 & -> & (x & -> & Hx) & ->%IH).
    unfold chr in Hx. apply N.eqb_eq in Hx. by subst.
  - intros ->. exists [c], w. repeat split.
    + exists c. split; [done|]. unfold chr. apply N.eqb_refl.
    + by apply IH.
Qed.

Lemma denote_lit_ci w i u t :
  denote (lit_ci w) i u t ↔ toLowerCase u = toLowerCase w.
Proof.
  revert i u. induction w as [|c w IH]; intros i u; simpl.
  - split; [by intros ->|]. by destruct u.
  - split.
    + intros (u1 & u2 & -> & (x & -> & Hx) & Hw%IH).
      unfold chr_ci in Hx. apply N.eqb_eq in Hx.
      unfold toLowerCase in *. csimpl. by rewrite Hx, Hw.
    + destruct u as [|x u]; [done|]. unfold toLowerCase. simpl.
      intros [= Hx Hu]. exists [x], u. repeat split.
      * exists x. split; [done|]. unfold chr_ci. by apply N.eqb_eq.
      * by apply IH.
Qed.

Lemma test_lit w s : test (lit w) s = true ↔ has_infix w s.
Proof.
  rewrite test_true. unfold has_infix. split.
  - intros (a & u & t & -> & ->%denote_lit). eauto.
  - intros (a & b & ->). exists a, w, b. by rewrite denote_lit.
Qed.

Lemma denote_reToken i w t : denote reToken i w t ↔ token_shaped w.
Proof.
  unfold token_shaped. simpl. split.
  - intros (u1 & u2 & -> & (c & -> & Hc) & [H| ->]).
    + destruct H as (v & d' & -> & Hv & (d & -> & Hd)).
      exists c, (v ++ [d]). repeat split; [done|]. right. eauto.
    + exists c, []. eauto.
  - intros (c & u & -> & Hc & [->|(v & d & -> & Hv & Hd)]).
    + exists [c], []. repeat split; eauto.
    + exists [c], (v ++ [d]). repeat split; [eauto|]. left.
      exists v, [d]. repeat split; eauto.
Qed.

Theorem test_reWord s : test reWord s = true ↔ token_shaped s.
Proof.
  rewrite test_true. unfold reWord. split.
  - intros (a & u & t & -> & H).
    destruct H as (u1 & u2 & -> & [-> Ha] & u3 & u4 & -> & Htok & -> & ->).
    apply length_zero_iff_nil in Ha as ->. simpl. rewrite !app_nil_r.
    by eapply denote_reToken.
  - intros H. exists [], s, []. rewrite app_nil_r. split; [done|].
    exists [], s. split; [done|]. split; [done|].
    exists s, []. split; [by rewrite app_nil_r|].
    split; [by apply denote_reToken|done].
Qed.

Theorem test_reDoubled s :
  test reDoubled s = true ↔
  has_infix (str "--") s ∨ has_infix (str "''") s.
Proof.
  rewrite test_true. unfold reDoubled, has_infix. split.
  - intros (a & u & t & -> & [H|H]); apply denote_lit in H as ->; eauto.
  - intros [(a & b & ->)|(a & b & ->)].
    + exists a, (str "--"), b. split; [done|]. left. by apply denote_lit.
    + exists a, (str "''"), b. split; [done|]. right. by apply denote_lit.
Qed.

Theorem test_reEmail s : test reEmail s = true ↔ email_shaped s.
Proof.
  rewrite test_true. unfold reEmail, email_shaped. split.
  - intros (a0 & u & t & -> & H).
    destruct H as (? & ? & -> & [-> Ha] & a & ? & -> & [Hane Ha'] &
                   ? & ? & -> & (x & -> & Hx) & b & ? & -> & [Hbne Hb] &
                   ? & ? & -> & (y & -> & Hy) & c & ? & -> & [Hcne Hc] &
                   -> & ->).
    apply length_zero_iff_nil in Ha as ->.
    unfold chr in Hx, Hy. apply N.eqb_eq in Hx as <-, Hy as <-.
    exists a, b, c. simpl. rewrite !app_nil_r. done.
  - intros (a & b & c & -> & Ha & Hb & Hc & Hfa & Hfb & Hfc).
    exists [], (a ++ 64 :: b ++ 46 :: c), []. rewrite app_nil_r.
    split; [done|]. exists [], (a ++ 64 :: b ++ 46 :: c).
    repeat split. exists a, (64 :: b ++ 46 :: c). repeat split; [done..|].
    exists [64], (b ++ 46 :: c). repeat split; [by exists 64|].
    exists b, (46 :: c). repeat split; [done..|].
    exists [46], c. repeat split; [by exists 46|].
    exists c, []. by rewrite app_nil_r.
Qed.

(** *** Letter case *)

Lemma isUpper_spec c : isUpper c = true ↔ 0x41 ≤ c ≤ 0x5A.
Proof. unfold isUpper. rewrite andb_true_iff, !N.leb_le. done. Qed.

Lemma isLower_spec c : isLower c = true ↔ 0x61 ≤ c ≤ 0x7A.
Proof. unfold isLower. rewrite andb_true_iff, !N.leb_le. done. Qed.

Lemma lowerUnit_not_upper c : isUpper (lowerUnit c) = false.
Proof.
  unfold lowerUnit. destruct (isUpper c) eqn:H; [|done].
  apply isUpper_spec in H. apply not_true_iff_false.
  rewrite isUpper_spec. lia.
Qed.

Lemma lowerUnit_id c : isUpper c = false → lowerUnit c = c.
Proof. unfold lowerUnit. by intros ->. Qed.

Lemma lowerUnit_idemp c : lowerUnit (lowerUnit c) = lowerUnit c.
Proof. apply lowerUnit_id, lowerUnit_not_upper. Qed.

Lemma lowerUnit_nonletter x c :
  isLetter c = false → lowerUnit x = c → x = c.
Proof.
  unfold isLetter, lowerUnit. intros [Hu Hl]%orb_false_elim.
  destruct (isUpper x) eqn:Hx; [|done]. intros <-.
  apply isUpper_spec in Hx. apply not_true_iff_false in Hl.
  destruct Hl. apply isLower_spec. lia.
Qed.

Lemma toLowerCase_nonletters u w :
  forallb (λ c, negb (isLetter c)) w = true →
  toLowerCase u = toLowerCase w → u = w.
Proof.
  unfold toLowerCase. revert u. induction w as [|c w IH]; intros u; csimpl.
  - by intros _ ->%fmap_nil_inv.
  - intros [Hc Hw]%andb_prop. apply negb_true_iff in Hc.
    destruct u as [|x u]; csimpl; [done|]. intros [= Hx Hu].
    assert (isUpper c = false) as Hcu.
    { unfold isLetter in Hc. by apply orb_false_elim in Hc as [? _]. }
    rewrite (lowerUnit_id c) in Hx by done.
    f_equal; [by apply lowerUnit_nonletter|by apply IH].
Qed.

Lemma toLowerCase_app u v :
  toLowerCase (u ++ v) = toLowerCase u ++ toLowerCase v.
Proof. apply fmap_app. Qed.

Lemma toLowerCase_length u : length (toLowerCase u) = length u.
Proof. apply length_fmap. Qed.

Theorem test_reURL s : test reURL s = true ↔ url_shaped s.
Proof.
  rewrite test_true. unfold reURL, url_shaped, has_prefix_ci, has_infix.
  split.
  - intros (a & u & t & -> & [H|H]).
    + destruct H as (? & u2 & -> & [-> Ha] & H).
      apply length_zero_iff_nil in Ha as ->. simpl.
      destruct H as [H|H].
      * destruct H as (v1 & ? & -> & Hv1%denote_lit_ci
                       & v3 & v4 & -> & Hopt & Hv4%denote_lit_ci).
        destruct Hopt as [(x & -> & Hx)| ->].
        -- right; left. exists (v1 ++ [x] ++ v4), t. split; [done|].
           unfold chr_ci in Hx. apply N.eqb_eq in Hx.
           rewrite !toLowerCase_app, Hv1, Hv4. unfold toLowerCase at 2.
           csimpl. by rewrite Hx.
        -- left. exists (v1 ++ v4), t. split; [done|].
           by rewrite toLowerCase_app, Hv1, Hv4.
      * apply denote_lit_ci in H. right; right; left. eauto.
    + apply denote_lit_ci, toLowerCase_nonletters in H as ->; [|done].
      right; right; right. eauto.
  - intros [(u & b & -> & Hu)|[(u & b & -> & Hu)|[(u & b & -> & Hu)|
            (a & b & ->)]]].
    + exists [], u, b. split; [done|]. left. exists [], u.
      split; [done|]. split; [done|]. left.
      exists (take 4 u), (drop 4 u). split; [by rewrite take_drop|].
      split.
      { apply denote_lit_ci. unfold toLowerCase in *.
        by rewrite fmap_take, Hu. }
      exists [], (drop 4 u). split; [done|]. split; [by right|].
      apply denote_lit_ci. unfold toLowerCase in *.
      by rewrite fmap_drop, Hu.
    + exists [], u, b. split; [done|]. left. exists [], u.
      split; [done|]. split; [done|]. left.
      exists (take 4 u), (drop 4 u). split; [by rewrite take_drop|].
      split.
      { apply denote_lit_ci. unfold toLowerCase in *.
        by rewrite fmap_take, Hu. }
      assert (length u = 8%nat) as Hlen.
      { by rewrite <- (toLowerCase_length u), Hu. }
      destruct u as [|x1 [|x2 [|x3 [|x4 [|x5 u]]]]]; try done.
      exists [x5], u. split; [done|]. unfold toLowerCase in Hu.
      injection Hu as _ _ _ _ H5 Hu. split.
      * left. exists x5. split; [done|]. unfold chr_ci. by apply N.eqb_eq.
      * by apply denote_lit_ci.
    + exists [], u, b. split; [done|]. left. exists [], u.
      split; [done|]. split; [done|]. right. by apply denote_lit_ci.
    + exists a, (str "://"), b. split; [done|]. right.
      by apply denote_lit_ci.
Qed.

(** *** Trimming *)

Lemma dropWhile_split {A} (p : A → bool) l :
  ∃ a, l = a ++ dropWhile p l ∧ forallb p a = true.
Proof.
  induction l as [|x l (a & Hl & Ha)]; simpl; [by exists []|].
  destruct (p x) eqn:Hx; [|by exists []].
  exists (x :: a). simpl. rewrite Hx, Ha. by rewrite <- Hl.
Qed.

Lemma dropWhile_head {A} (p : A → bool) l x l' :
  dropWhile p l = x :: l' → p x = false.
Proof.
  induction l as [|y l IH]; simpl; [done|].
  destruct (p y) eqn:Hy; [done|]. by intros [= -> _].
Qed.

Lemma dropWhile_id {A} (p : A → bool) l :
  match l with [] => True | x :: _ => p x = false end → dropWhile p l = l.
Proof. destruct l; simpl; [done|]. by intros ->. Qed.

Lemma dropWhile_fmap {A} (p : A → bool) (f : A → A) l :
  (∀ x, p (f x) = p x) → dropWhile p (f <$> l) = f <$> dropWhile p l.
Proof.
  intros Hf. induction l as [|x l IH]; csimpl; [done|].
  rewrite Hf. by destruct (p x).
Qed.

Lemma elem_of_dropWhile {A} (p : A → bool) l x :
  x ∈ l → p x = false → x ∈ dropWhile p l.
Proof.
  induction l as [|y l IH]; simpl; [done|].
  intros [->|Hx]%elem_of_cons Hp.
  - rewrite Hp. left.
  - destruct (p y); [by apply IH|by right].
Qed.

Lemma dropWhile_subseteq {A} (p : A → bool) l x :
  x ∈ dropWhile p l → x ∈ l.
Proof.
  destruct (dropWhile_split p l) as (a & Hl & _). rewrite Hl at 2.
  intros. apply elem_of_app. by right.
Qed.

Lemma elem_of_trim s c : c ∈ s → isWhiteSpace c = false → c ∈ trim s.
Proof.
  intros Hc Hw. unfold trim, trimEnd, trimStart.
  rewrite elem_of_reverse. apply elem_of_dropWhile; [|done].
  rewrite elem_of_reverse. by apply elem_of_dropWhile.
Qed.

Lemma trim_subseteq s c : c ∈ trim s → c ∈ s.
Proof.
  unfold trim, trimEnd, trimStart.
  rewrite elem_of_reverse. intros H%dropWhile_subseteq.
  rewrite elem_of_reverse in H. by eapply dropWhile_subseteq.
Qed.

(** A string whose first and last code units are not white space is its
    own trimmed form. *)
Lemma trim_id s :
  match s with [] => True | c :: _ => isWhiteSpace c = false end →
  match reverse s with [] => True | c :: _ => isWhiteSpace c = false end →
  trim s = s.
Proof.
  intros H1 H2. unfold trim, trimEnd, trimStart.
  rewrite (dropWhile_id _ s) by done.
  rewrite (dropWhile_id _ (reverse s)) by done. apply reverse_involutive.
Qed.

Lemma trim_ends s :
  match trim s with [] => True | c :: _ => isWhiteSpace c = false end
  ∧ match reverse (trim s) with
    | [] => True | c :: _ => isWhiteSpace c = false end.
Proof.
  unfold trim, trimEnd. rewrite reverse_involutive. split.
  - destruct (dropWhile_split isWhiteSpace (reverse (trimStart s)))
      as (a & Hs & Ha).
    destruct (dropWhile isWhiteSpace (reverse (trimStart s)))
      as [|c l] eqn:Hd using rev_ind; [done|].
    rewrite reverse_snoc.
    unfold trimStart in *.
    destruct (dropWhile isWhiteSpace s) as [|x s'] eqn:Hx.
    { rewrite reverse_nil in Hs. by destruct a, l. }
    apply dropWhile_head in Hx.
    apply (f_equal reverse) in Hs.
    rewrite reverse_involutive, reverse_app, reverse_snoc in Hs.
    simpl in Hs. injection Hs as -> _. done.
  - destruct (dropWhile isWhiteSpace (reverse (trimStart s))) eqn:Hd;
      [done|]. by eapply dropWhile_head.
Qed.

Lemma trim_idemp s : trim (trim s) = trim s.
Proof. destruct (trim_ends s). by apply trim_id. Qed.

Lemma isWhiteSpace_lowerUnit c : isWhiteSpace (lowerUnit c) = isWhiteSpace c.
Proof.
  unfold lowerUnit. destruct (isUpper c) eqn:H; [|done].
  apply isUpper_spec in H.
  assert (isWhiteSpace c = false) as ->.
  { apply not_true_iff_false. unfold isWhiteSpace.
    rewrite !orb_true_iff, !andb_true_iff, !N.eqb_eq, !N.leb_le. lia. }
  apply not_true_iff_false. unfold isWhiteSpace.
  rewrite !orb_true_iff, !andb_true_iff, !N.eqb_eq, !N.leb_le. lia.
Qed.

Lemma trim_toLowerCase s : trim (toLowerCase s) = toLowerCase (trim s).
Proof.
  unfold trim, trimEnd, trimStart, toLowerCase.
  rewrite dropWhile_fmap by apply isWhiteSpace_lowerUnit.
  rewrite <- fmap_reverse.
  rewrite dropWhile_fmap by apply isWhiteSpace_lowerUnit.
  by rewrite fmap_reverse.
Qed.

Lemma normalizeWord_trimmed s : trim (normalizeWord s) = normalizeWord s.
Proof. unfold normalizeWord. by rewrite trim_toLowerCase, trim_idemp. Qed.

Lemma toLowerCase_idemp s : toLowerCase (toLowerCase s) = toLowerCase s.
Proof.
  unfold toLowerCase. rewrite <- list_fmap_compose.
  apply list_fmap_ext. intros _ c _. apply lowerUnit_idemp.
Qed.

Lemma normalizeWord_lower s : toLowerCase (normalizeWord s) = normalizeWord s.
Proof. apply toLowerCase_idemp. Qed.

(** *** The strict filter *)

Lemma trim_nil : trim [] = [].
Proof. done. Qed.

Ltac reject :=
  split; [done|];
  let H := fresh in intros H; decompose [and] H; congruence.

Lemma isLikelyEnglishWord_tests text :
  isLikelyEnglishWord text = true ↔
  let s := trim text in
  (1 ≤ length s ≤ 64)%nat
  ∧ test reEmail s = false ∧ test reURL s = false
  ∧ test reSpace s = false ∧ test reCJK s = false
  ∧ test reDigit s = false ∧ test reWord s = true
  ∧ test reDoubled s = false.
Proof.
  unfold isLikelyEnglishWord. cbv zeta. case_bool_decide as Ht.
  { subst. rewrite trim_nil. simpl. split; [done|]. intros [? _]. lia. }
  destruct (length (trim text) =? 0)%nat eqn:H0; simpl.
  { apply Nat.eqb_eq in H0. split; [done|]. intros [? _]. lia. }
  apply Nat.eqb_neq in H0.
  destruct (64 <? length (trim text))%nat eqn:H64.
  { apply Nat.ltb_lt in H64. split; [done|]. intros [? _]. lia. }
  apply Nat.ltb_ge in H64.
  destruct (test reEmail (trim text)); [reject|].
  destruct (test reURL (trim text)); [reject|].
  destruct (test reSpace (trim text)); [reject|].
  destruct (test reCJK (trim text)); [reject|].
  destruct (test reDigit (trim text)); [reject|].
  destruct (test reWord (trim text)); simpl; [|reject].
  destruct (test reDoubled (trim text)); [reject|].
  split; [|done]. intros _. repeat split; [lia|done].
Qed.

Lemma not_test r s P : (test r s = true ↔ P) → test r s = false ↔ ¬ P.
Proof. intros <-. by rewrite not_true_iff_false. Qed.

Lemma isDigitOrUnderscore_false c :
  isDigitOrUnderscore c = false ↔ isDigit c = false ∧ c ≠ 0x5F.
Proof.
  unfold isDigitOrUnderscore. by rewrite orb_false_iff, N.eqb_neq.
Qed.

(** The function accepts exactly the strings whose trimmed form is a strict
    word. *)
Theorem isLikelyEnglishWord_strict text :
  isLikelyEnglishWord text = true ↔ strict_word (trim text).
Proof.
  rewrite isLikelyEnglishWord_tests. cbv zeta. unfold strict_word.
  rewrite (not_test _ _ _ (test_reEmail _)), (not_test _ _ _ (test_reURL _)).
  rewrite (not_test _ _ _ (test_reDoubled _)), test_reWord.
  unfold reSpace, reCJK, reDigit. rewrite !test_Cls_false.
  split.
  - intros (Hlen & He & Hu & Hs & Hc & Hd & Hw & Hdd).
    repeat split; try done; try tauto.
    + by apply Hs. + by apply Hc.
    + by apply (isDigitOrUnderscore_false c), Hd.
    + by apply (isDigitOrUnderscore_false c), Hd.
  - intros (Hlen & He & Hu & Hall & Hw & Hd1 & Hd2).
    repeat split; try done; try tauto.
    + intros c Hc. by apply Hall. + intros c Hc. by apply Hall.
    + intros c Hc. apply isDigitOrUnderscore_false. split; by apply Hall.
Qed.

(** Facts about the code units of a token. *)
Lemma isLetter_isWordChar c : isLetter c = true → isWordChar c = true.
Proof. unfold isWordChar. by intros ->. Qed.

Lemma isWordChar_spec c :
  isWordChar c = true ↔
  0x41 ≤ c ≤ 0x5A ∨ 0x61 ≤ c ≤ 0x7A ∨ c = 0x27 ∨ c = 0x2D.
Proof.
  unfold isWordChar, isLetter.
  rewrite !orb_true_iff, isUpper_spec, isLower_spec, !N.eqb_eq. tauto.
Qed.

Lemma isWordChar_not_space c : isWordChar c = true → isWhiteSpace c = false.
Proof.
  intros H%isWordChar_spec. apply not_true_iff_false. unfold isWhiteSpace.
  rewrite !orb_true_iff, !andb_true_iff, !N.eqb_eq, !N.leb_le. lia.
Qed.

Lemma token_shaped_wordchars s :
  token_shaped s → forallb isWordChar s = true.
Proof.
  intros (c & u & -> & Hc & Hu). simpl.
  rewrite (isLetter_isWordChar _ Hc). simpl.
  destruct Hu as [->|(v & d & -> & Hv & Hd)]; [done|].
  rewrite forallb_app, Hv. simpl. by rewrite (isLetter_isWordChar _ Hd).
Qed.

Lemma token_shaped_ends s :
  token_shaped s →
  ∃ c d u v, s = c :: u ∧ s = v ++ [d] ∧ isLetter c = true
             ∧ isLetter d = true.
Proof.
  intros (c & u & -> & Hc & [->|(v & d & -> & Hv & Hd)]).
  - exists c, c, [], []. done.
  - exists c, d, (v ++ [d]), (c :: v). done.
Qed.

Lemma token_shaped_trim s : token_shaped s → trim s = s.
Proof.
  intros (c & d & u & v & Hs & Hs' & Hc & Hd)%token_shaped_ends.
  apply trim_id.
  - rewrite Hs. by apply isWordChar_not_space, isLetter_isWordChar.
  - rewrite Hs', reverse_snoc.
    by apply isWordChar_not_space, isLetter_isWordChar.
Qed.

Ltac find_elem := first [left | right; find_elem].

Lemma forallb_elem {A} (p : A → bool) l x :
  forallb p l = true → x ∈ l → p x = true.
Proof.
  rewrite forallb_forall. intros H Hx. apply H. by apply list_elem_of_In.
Qed.

(** The shape of a token already excludes addresses, URLs, white space,
    CJK text, digits and underscores: what remains of the rule is the
    length, the shape and the doubled marks. *)
Theorem strict_word_short t :
  strict_word t ↔
  (length t ≤ 64)%nat ∧ token_shaped t
  ∧ ¬ has_infix (str "--") t ∧ ¬ has_infix (str "''") t.
Proof.
  unfold strict_word. split; [tauto|].
  intros (Hlen & Htok & Hd1 & Hd2).
  pose proof (token_shaped_wordchars _ Htok) as Hall.
  assert (∀ c, c ∈ t → isWordChar c = true) as Hin.
  { intros c. by apply forallb_elem. }
  assert (∀ c, isLetter c = false → isWordChar c = true →
               c = 0x27 ∨ c = 0x2D) as Hpunct.
  { intros c Hl. unfold isWordChar. rewrite Hl. simpl.
    rewrite orb_true_iff, !N.eqb_eq. tauto. }
  repeat split; try done.
  - destruct Htok as (c & u & -> & _). simpl. lia.
  - intros (a & b & c & -> & _).
    assert (isWordChar 0x40 = true) as H; [|done].
    apply Hin, elem_of_app. right. left.
  - intros [(u & b & -> & Hu)|[(u & b & -> & Hu)|[(u & b & -> & Hu)|
            (a & b & ->)]]].
    + destruct u as [|x1 [|x2 [|x3 [|x4 [|x5 u]]]]]; try done.
      injection Hu as _ _ _ _ H5 _.
      apply lowerUnit_nonletter in H5 as ->; [|done].
      assert (isWordChar 0x3A = true) as H; [|done]. apply Hin. simpl. find_elem.
    + destruct u as [|x1 [|x2 [|x3 [|x4 [|x5 [|x6 u]]]]]]; try done.
      injection Hu as _ _ _ _ _ H6 _.
      apply lowerUnit_nonletter in H6 as ->; [|done].
      assert (isWordChar 0x3A = true) as H; [|done]. apply Hin. simpl. find_elem.
    + destruct u as [|x1 [|x2 [|x3 [|x4 u]]]]; try done.
      injection Hu as _ _ _ H4 _.
      apply lowerUnit_nonletter in H4 as ->; [|done].
      assert (isWordChar 0x2E = true) as H; [|done]. apply Hin. simpl. find_elem.
    + assert (isWordChar 0x3A = true) as H; [|done]. apply Hin.
      apply elem_of_app. right. left.
  - by apply isWordChar_not_space, Hin.
  - apply Hin, isWordChar_spec in H. apply not_true_iff_false.
    unfold isCJK. rewrite !orb_true_iff, !andb_true_iff, !N.leb_le. lia.
  - apply Hin, isWordChar_spec in H. apply not_true_iff_false.
    unfold isDigit. rewrite !andb_true_iff, !N.leb_le. lia.
  - intros ->. assert (isWordChar 0x5F = true) as H'; [by apply Hin|done].
Qed.

Lemma email_shaped_at s : email_shaped s → 0x40 ∈ s.
Proof. intros (a & b & c & -> & _). apply elem_of_app. right. left. Qed.

Lemma url_shaped_mark s : url_shaped s → 0x3A ∈ s ∨ 0x2E ∈ s.
Proof.
  intros [(u & b & -> & Hu)|[(u & b & -> & Hu)|[(u & b & -> & Hu)|
          (a & b & ->)]]].
  - destruct u as [|x1 [|x2 [|x3 [|x4 [|x5 u]]]]]; try done.
    injection Hu as _ _ _ _ H5 _.
    apply lowerUnit_nonletter in H5 as ->; [|done]. left. simpl. find_elem.
  - destruct u as [|x1 [|x2 [|x3 [|x4 [|x5 [|x6 u]]]]]]; try done.
    injection Hu as _ _ _ _ _ H6 _.
    apply lowerUnit_nonletter in H6 as ->; [|done]. left. simpl. find_elem.
  - destruct u as [|x1 [|x2 [|x3 [|x4 u]]]]; try done.
    injection Hu as _ _ _ H4 _.
    apply lowerUnit_nonletter in H4 as ->; [|done]. right. simpl. find_elem.
  - left. apply elem_of_app. right. left.
Qed.

Lemma isLikelyEnglishWord_wordchars s c :
  isLikelyEnglishWord s = true → c ∈ trim s → isWordChar c = true.
Proof.
  intros (_ & Htok & _)%isLikelyEnglishWord_strict%strict_word_short Hc.
  eapply forallb_elem; [by apply token_shaped_wordchars|done].
Qed.

(** A code unit that is neither white space nor allowed in a word makes the
    function reject the string, wherever it stands. *)
Lemma isLikelyEnglishWord_foreign s c :
  c ∈ s → isWhiteSpace c = false → isWordChar c = false →
  isLikelyEnglishWord s = false.
Proof.
  intros Hc Hw Hx. apply not_true_iff_false. intros H.
  pose proof (isLikelyEnglishWord_wordchars s c H (elem_of_trim _ _ Hc Hw)).
  congruence.
Qed.

(** *** First occurrences *)

Lemma filter_all {A} (P : A → Prop) `{!∀ x, Decision (P x)} l :
  Forall P l → filter P l = l.
Proof.
  induction 1 as [|x l Hx _ IH]; [done|].
  by rewrite filter_cons_True, IH.
Qed.

Lemma first_seen_filter (P : jsstring → Prop) `{!∀ x, Decision (P x)} l :
  filter P (first_seen l) = first_seen (filter P l).
Proof.
  induction l as [|x l IH]; [done|]. simpl.
  rewrite !filter_cons. destruct (decide (P x)) as [Hx|Hx]; simpl.
  - f_equal. rewrite <- IH, !list_filter_filter.
    apply list_filter_iff. tauto.
  - rewrite <- IH, list_filter_filter. apply list_filter_iff.
    intros y. split; [tauto|]. intros Hy. split; [done|]. by intros ->.
Qed.

Lemma elem_of_first_seen l x : x ∈ first_seen l ↔ x ∈ l.
Proof.
  induction l as [|y l IH]; [done|]. simpl.
  rewrite !elem_of_cons, list_elem_of_filter, IH.
  destruct (decide (x = y)); naive_solver.
Qed.

Lemma NoDup_first_seen l : NoDup (first_seen l).
Proof.
  induction l as [|x l IH]; simpl; [constructor|].
  constructor; [|by apply NoDup_filter].
  rewrite list_elem_of_filter. naive_solver.
Qed.

Lemma first_seen_NoDup l : NoDup l → first_seen l = l.
Proof.
  induction 1 as [|x l Hx _ IH]; [done|]. simpl. rewrite IH. f_equal.
  apply filter_all, Forall_forall. by intros y Hy ->.
Qed.

Lemma first_seen_sublist l : first_seen l `sublist_of` l.
Proof.
  induction l as [|x l IH]; simpl; [done|].
  apply sublist_skip. etrans; [apply sublist_filter|done].
Qed.

(** *** The two de-duplicating loops *)

Lemma seen_inv_empty : seen_inv (∅, []).
Proof.
  intros x. simpl. rewrite lookup_empty. simpl. split; [done|].
  by intros ?%elem_of_nil.
Qed.

Lemma uniqueStable_step_inv st x :
  seen_inv st →
  seen_inv (uniqueStable_step st x)
  ∧ (uniqueStable_step st x).2 =
    st.2 ++ (if decide (x ∈ st.2) then [] else [x]).
Proof.
  intros Hinv. unfold uniqueStable_step.
  destruct (truthy_entry (st.1 !! x)) eqn:Hx.
  - apply Hinv in Hx. rewrite decide_True by done.
    by rewrite app_nil_r.
  - assert (x ∉ st.2) as Hnot.
    { intros H%Hinv. congruence. }
    rewrite decide_False by done. split; [|done].
    intros y. simpl. rewrite elem_of_app, list_elem_of_singleton.
    destruct (decide (x = y)) as [->|Hne].
    + rewrite lookup_insert_eq. simpl. naive_solver.
    + rewrite lookup_insert_ne by done. rewrite (Hinv y). naive_solver.
Qed.

Lemma uniqueStable_fold l st :
  seen_inv st →
  (foldl uniqueStable_step st l).2 =
  st.2 ++ first_seen (filter (λ y, y ∉ st.2) l).
Proof.
  revert st. induction l as [|x l IH]; intros st Hinv; simpl.
  { by rewrite app_nil_r. }
  destruct (uniqueStable_step_inv st x Hinv) as [Hinv' Hout].
  rewrite (IH _ Hinv'), Hout, filter_cons.
  destruct (decide (x ∈ st.2)) as [Hx|Hx].
  - rewrite decide_False by (by intros ?). by rewrite !app_nil_r.
  - rewrite decide_True by done. rewrite <- (assoc_L (++)). f_equal. simpl. f_equal.
    rewrite first_seen_filter, list_filter_filter. f_equal.
    apply list_filter_iff. intros y.
    rewrite elem_of_app, list_elem_of_singleton. naive_solver.
Qed.

(** [uniqueStable] keeps the first occurrence of each string. *)
Theorem uniqueStable_first_seen arr : uniqueStable arr = first_seen arr.
Proof.
  unfold uniqueStable. rewrite uniqueStable_fold by apply seen_inv_empty.
  simpl. f_equal. apply filter_all, Forall_forall.
  intros x _. apply not_elem_of_nil.
Qed.

Lemma localExtractWords_fold l st :
  foldl localExtractWords_step st l =
  foldl uniqueStable_step st (filter kept (normalizeWord <$> l)).
Proof.
  revert st. induction l as [|tok l IH]; intros st; [done|].
  csimpl. rewrite filter_cons. unfold localExtractWords_step at 2.
  case_bool_decide as Hnil.
  { rewrite decide_False by (by intros [? _]). apply IH. }
  destruct (isLikelyEnglishWord (normalizeWord tok)) eqn:Hok; simpl.
  - rewrite decide_True by done. simpl. rewrite IH. done.
  - rewrite decide_False by (intros [_ ?]; congruence). apply IH.
Qed.

Theorem localExtractWords_first_seen text :
  localExtractWords text =
  first_seen (filter kept (normalizeWord <$> match_all reToken text)).
Proof.
  unfold localExtractWords. cbv zeta. rewrite localExtractWords_fold.
  apply uniqueStable_first_seen.
Qed.

(** *** The token pattern on a list of words *)

Lemma token_end_letter t :
  token_end t → match t with [] => True | c :: _ => isLetter c = false end.
Proof.
  destruct t as [|c t]; [done|]. simpl. intros H.
  destruct (isLetter c) eqn:Hc; [|done].
  by rewrite (isLetter_isWordChar _ Hc) in H.
Qed.

Lemma match_at_reToken i w t :
  token_shaped w → token_end t →
  match_at reToken i (w ++ t) = Some (i + length w)%nat.
Proof.
  intros (c & u & -> & Hc & Hu) Ht. unfold match_at. simpl. rewrite Hc.
  pose proof (token_end_letter t Ht) as Htl.
  destruct Hu as [->|(v & d & -> & Hv & Hd)].
  - simpl. rewrite star_stop by done.
    destruct t as [|x t]; simpl.
    + f_equal. lia.
    + rewrite Htl. f_equal. lia.
  - rewrite <- (assoc_L (++)). simpl.
    rewrite (star_greedy _ _ _ v d t (i + length (c :: v ++ [d]))%nat);
      [done|done|by apply isLetter_isWordChar|done|..].
    + destruct t as [|x t]; simpl; [done|]. by rewrite Htl.
    + simpl. rewrite Hd. f_equal. rewrite length_app. simpl. lia.
Qed.

Lemma match_at_reToken_None i t :
  match t with [] => True | c :: _ => isLetter c = false end →
  match_at reToken i t = None.
Proof.
  unfold match_at. destruct t as [|c t]; simpl; [done|]. by intros ->.
Qed.

Lemma match_all_from_skip r i u t :
  match_all_from r i (length u) (u ++ t) =
  match_all_from r (i + length u) 0 t.
Proof.
  revert i. induction u as [|c u IH]; intros i; simpl.
  - by rewrite Nat.add_0_r.
  - rewrite IH. f_equal. lia.
Qed.

Lemma match_all_from_token i w t :
  token_shaped w → token_end t →
  match_all_from reToken i 0 (w ++ t) =
  w :: match_all_from reToken (i + length w) 0 t.
Proof.
  intros Hw Ht. pose proof (match_at_reToken i w t Hw Ht) as Hm.
  destruct Hw as (c & u & -> & _). simpl in *. rewrite Hm.
  replace (i + S (length u) - i)%nat with (S (length u)) by lia.
  simpl. rewrite take_app_length. f_equal.
  rewrite Nat.sub_0_r, match_all_from_skip. f_equal. lia.
Qed.

Lemma match_all_from_join i ws :
  Forall token_shaped ws →
  match_all_from reToken i 0 (join (str " ") ws) = ws.
Proof.
  intros H. revert i. induction H as [|w ws Hw Hws IH]; intros i; [done|].
  destruct ws as [|w' ws].
  - simpl. rewrite <- (app_nil_r w) at 1.
    rewrite match_all_from_token by done. done.
  - change (join (str " ") (w :: w' :: ws))
      with (w ++ 0x20 :: join (str " ") (w' :: ws)).
    rewrite match_all_from_token by done. f_equal.
    change (match_all_from reToken (i + length w) 0
              (0x20 :: join (str " ") (w' :: ws)))
      with (match_all_from reToken (S (i + length w)) 0
              (join (str " ") (w' :: ws))).
    apply IH.
Qed.

(** Every word that the tokenizer returns is a lower-case strict word in
    trimmed form. *)
Lemma localExtractWords_elem text w :
  w ∈ localExtractWords text →
  isLikelyEnglishWord w = true ∧ toLowerCase w = w ∧ trim w = w
  ∧ token_shaped w.
Proof.
  rewrite localExtractWords_first_seen, elem_of_first_seen.
  intros [[_ Hok] (tok & -> & _)%list_elem_of_fmap]%list_elem_of_filter.
  split; [done|]. split; [apply normalizeWord_lower|].
  split; [apply normalizeWord_trimmed|].
  apply isLikelyEnglishWord_strict, strict_word_short in Hok.
  rewrite normalizeWord_trimmed in Hok. tauto.
Qed.

Lemma localExtractWords_words ws :
  NoDup ws →
  Forall (λ w, isLikelyEnglishWord w = true ∧ toLowerCase w = w
               ∧ trim w = w ∧ token_shaped w) ws →
  localExtractWords (join (str " ") ws) = ws.
Proof.
  intros Hnd Hall. rewrite localExtractWords_first_seen.
  unfold match_all. rewrite match_all_from_join.
  2:{ eapply Forall_impl; [done|]. simpl. tauto. }
  assert (normalizeWord <$> ws = ws) as ->.
  { rewrite <- (list_fmap_id ws) at 2. apply Forall_fmap_ext.
    eapply Forall_impl; [done|]. simpl. intros w (_ & Hl & Ht & _).
    unfold normalizeWord. by rewrite Ht, Hl. }
  rewrite filter_all.
  - by apply first_seen_NoDup.
  - eapply Forall_impl; [done|]. simpl. intros w (Hok & _ & _ & Htok).
    split; [|done]. by destruct Htok as (c & u & -> & _).
Qed.

(** *** The filter loop of the extraction *)

(** [String(...)] throws exactly on the values that hide [toString]. *)
Lemma ToString_None v : ToString v = None ↔ hides_toString v = true.
Proof.
  induction v as [| | | |elems IH|members] using value_ind_elems;
    try done.
  - simpl. induction IH as [|x l Hx _ IHl]; [done|]. csimpl.
    rewrite orb_true_iff, <- Hx, <- IHl.
    assert (match x with JNull => Some [] | _ => ToString x end = None
            ↔ ToString x = None) as Hnull.
    { by destruct x. }
    destruct (match x with JNull => Some [] | _ => ToString x end)
      as [y|] eqn:Hy; simpl.
    + destruct (mapM _ l) as [ys|] eqn:Hl; simpl.
      * split; [done|]. intros [H|H]; [|done].
        apply Hnull in H. congruence.
      * split; [tauto|done].
    + split; [|done]. intros _. left. by apply Hnull.
  - simpl. case_bool_decide; split; done.
Qed.

Lemma unprintable_hides x : unprintable x ↔ hides_toString x = true.
Proof.
  unfold unprintable, candidate_string.
  destruct (truthy x) eqn:Ht; [apply ToString_None|].
  split; [done|]. by destruct x.
Qed.

Lemma kept_strings_cons x l :
  kept_strings (x :: l) =
  match candidate_string x with
  | Some w0 =>
    if isLikelyEnglishWord (trim w0) then trim w0 :: kept_strings l
    else kept_strings l
  | None => kept_strings l
  end.
Proof.
  unfold kept_strings. csimpl. destruct (candidate_string x) as [w0|]; [|done].
  csimpl. rewrite filter_cons.
  destruct (isLikelyEnglishWord (trim w0)) eqn:Hok.
  - by rewrite decide_True.
  - by rewrite decide_False by congruence.
Qed.

Lemma clean_loop_Some l : ∀ acc r,
  clean_loop acc l = Some r →
  r = acc ++ kept_strings l ∧ Forall (λ x, ¬ unprintable x) l.
Proof.
  unfold unprintable.
  induction l as [|x l IH]; intros acc r.
  - intros [= <-]. by rewrite app_nil_r.
  - rewrite kept_strings_cons. simpl.
    destruct (candidate_string x) as [w0|] eqn:Hx; simpl; [|done].
    destruct (isLikelyEnglishWord (trim w0)) eqn:Hok; simpl.
    + intros [-> Hall]%IH. rewrite <- (assoc_L (++)). split; [done|].
      constructor; [congruence|done].
    + intros [-> Hall]%IH. split; [done|]. constructor; [congruence|done].
Qed.

Lemma clean_loop_None l : ∀ acc,
  clean_loop acc l = None ↔ ∃ x, x ∈ l ∧ unprintable x.
Proof.
  unfold unprintable. induction l as [|x l IH]; intros acc; simpl.
  - split; [done|]. by intros (x & ?%elem_of_nil & _).
  - destruct (candidate_string x) as [w0|] eqn:Hx; simpl.
    + assert ((∃ y, y ∈ x :: l ∧ candidate_string y = None) ↔
              (∃ y, y ∈ l ∧ candidate_string y = None)) as ->.
      { split.
        - intros (y & [->|Hy]%elem_of_cons & Hn); [congruence|eauto].
        - intros (y & Hy & Hn). exists y. split; [by right|done]. }
      destruct (isLikelyEnglishWord (trim w0)); simpl; apply IH.
    + split; [|done]. intros _. exists x. split; [left|done].
Qed.


(** *** [slice] *)

Lemma slice0_nonneg {A} (l : list A) n :
  (0 ≤ n)%Z → slice0 l n = take (Z.to_nat n) l.
Proof.
  intros Hn. unfold slice0.
  destruct (n <? 0)%Z eqn:H; [|done]. apply Z.ltb_lt in H. lia.
Qed.

(** A negative end counts from the end of the array. *)
Example slice0_negative :
  slice0 [str "alpha"; str "beta"; str "gamma"] (-1)
  = [str "alpha"; str "beta"].
Proof. done. Qed.

Lemma slice0_prefix {A} (l : list A) n : slice0 l n `prefix_of` l.
Proof. unfold slice0. destruct (n <? 0)%Z; apply prefix_take. Qed.



Lemma prefix_NoDup {A} (l1 l2 : list A) :
  l1 `prefix_of` l2 → NoDup l2 → NoDup l1.
Proof. intros [k ->] H. by apply NoDup_app in H as [? _]. Qed.

(** *** The outcome of the fulfilment callback *)

Lemma on_response_Fulfilled opt resp o :
  on_response opt resp = Fulfilled o →
  words o = slice0 (first_seen (kept_strings (wordsToAdd (llm_text resp))))
                   (maxAdd opt)
  ∧ o_statusCode o = status_or_0 (resp ≫= response)
  ∧ ok o = bool_decide (200 ≤ o_statusCode o < 300)%Z
  ∧ errorMessage o = None
  ∧ Forall (λ x, ¬ unprintable x) (wordsToAdd (llm_text resp)).
Proof.
  unfold on_response. cbv zeta. fold (llm_text resp).
  destruct (clean_loop [] (wordsToAdd (llm_text resp))) as [cleaned|] eqn:Hc;
    [|done].
  apply clean_loop_Some in Hc as [-> Hall]. simpl.
  intros [= <-]. simpl. rewrite uniqueStable_first_seen.
  repeat split; [|done].
  rewrite andb_true_r.
  destruct (bool_decide _) eqn:Hb.
  - apply bool_decide_eq_true in Hb as [?%Z.leb_le ?%Z.ltb_lt]. by apply andb_true_iff.
  - apply bool_decide_eq_false in Hb. apply andb_false_iff.
    rewrite Z.leb_gt, Z.ltb_ge. lia.
Qed.

Lemma on_response_Rejected opt resp e :
  on_response opt resp = Rejected e ↔
  ∃ x, x ∈ wordsToAdd (llm_text resp) ∧ unprintable x.
Proof.
  rewrite <- (clean_loop_None _ []). unfold on_response. cbv zeta.
  fold (llm_text resp).
  destruct (clean_loop [] (wordsToAdd (llm_text resp))); [done|].
  by destruct e.
Qed.

(** The text that [extractArkContent] finds in a chat completion. *)
Lemma llm_text_chat_response sc t : llm_text (chat_response sc t) = trim t.
Proof. done. Qed.

(** *** Letter case and the strict filter *)

Lemma isLetter_lowerUnit c : isLetter (lowerUnit c) = isLetter c.
Proof.
  unfold lowerUnit. destruct (isUpper c) eqn:H; [|done].
  unfold isLetter. rewrite H. apply isUpper_spec in H. simpl.
  apply orb_true_iff. right. apply isLower_spec. lia.
Qed.

Lemma isWordChar_lowerUnit c : isWordChar (lowerUnit c) = isWordChar c.
Proof.
  unfold isWordChar. rewrite isLetter_lowerUnit.
  unfold lowerUnit. destruct (isUpper c) eqn:H; [|done].
  unfold isLetter. rewrite H. done.
Qed.

Lemma forallb_isWordChar_lower v :
  forallb isWordChar (toLowerCase v) = forallb isWordChar v.
Proof.
  induction v as [|c v IH]; [done|]. csimpl.
  by rewrite isWordChar_lowerUnit, <- IH.
Qed.

Lemma token_shaped_lower t : token_shaped (toLowerCase t) ↔ token_shaped t.
Proof.
  unfold token_shaped, toLowerCase. split.
  - intros (c' & u' & Ht & Hc & Hu).
    apply fmap_cons_inv in Ht as (c & u & -> & -> & ->).
    exists c, u. rewrite isLetter_lowerUnit in Hc. repeat split; [done|].
    destruct Hu as [Hu|(v' & d' & Hu & Hv & Hd)].
    + left. by apply fmap_nil_inv in Hu.
    + right. apply fmap_app_inv in Hu as (v & dl & -> & Hd' & ->).
      symmetry in Hd'. apply fmap_cons_inv in Hd' as (d & ? & -> & Hn & ->).
      symmetry in Hn. apply fmap_nil_inv in Hn as ->.
      exists v, d. rewrite isLetter_lowerUnit in Hd.
      by rewrite <- forallb_isWordChar_lower.
  - intros (c & u & -> & Hc & Hu).
    exists (lowerUnit c), (lowerUnit <$> u). rewrite isLetter_lowerUnit.
    repeat split; [done|].
    destruct Hu as [->|(v & d & -> & Hv & Hd)]; [by left|]. right.
    exists (lowerUnit <$> v), (lowerUnit d).
    rewrite fmap_app, isLetter_lowerUnit.
    repeat split; [|done]. by rewrite <- forallb_isWordChar_lower in Hv.
Qed.

Lemma has_infix_lower w t :
  forallb (λ c, negb (isLetter c)) w = true →
  has_infix w (toLowerCase t) ↔ has_infix w t.
Proof.
  intros Hw. assert (toLowerCase w = w) as Hlw.
  { unfold toLowerCase. rewrite <- (list_fmap_id w) at 2.
    apply list_fmap_ext. intros i c Hc. apply lowerUnit_id.
    apply list_elem_of_lookup_2 in Hc.
    pose proof (forallb_elem (λ c, negb (isLetter c)) w c Hw Hc) as Hn.
    simpl in Hn.
    apply negb_true_iff in Hn. unfold isLetter in Hn.
    by apply orb_false_elim in Hn as [? _]. }
  unfold has_infix. split.
  - intros (a' & b' & Ht). unfold toLowerCase in Ht.
    apply fmap_app_inv in Ht as (a & wb & -> & Hwb & ->).
    symmetry in Hwb. apply fmap_app_inv in Hwb as (w' & b & Hw' & -> & ->).
    exists a, b. do 2 f_equal.
    apply toLowerCase_nonletters; [done|]. by rewrite Hlw.
  - intros (a & b & ->). exists (toLowerCase a), (toLowerCase b).
    by rewrite !toLowerCase_app, Hlw.
Qed.

(** The filter does not look at letter case. *)
Theorem isLikelyEnglishWord_lower s :
  isLikelyEnglishWord (toLowerCase s) = isLikelyEnglishWord s.
Proof.
  apply eq_true_iff_eq.
  rewrite !isLikelyEnglishWord_strict, !strict_word_short.
  rewrite trim_toLowerCase, toLowerCase_length, token_shaped_lower.
  by rewrite !has_infix_lower.
Qed.

(** *** The timeout of the requests *)

Lemma WORD_CHECK_TIMEOUT_S_small ms :
  (0 < ms ≤ 50000)%Z → WORD_CHECK_TIMEOUT_S (Some ms) = 1%Z.
Proof.
  intros H. unfold WORD_CHECK_TIMEOUT_S, WORD_CHECK_TIMEOUT_MS, number_or.
  destruct (ms =? 0)%Z eqn:H0; [apply Z.eqb_eq in H0; lia|].
  unfold ceil_div.
  assert (- (- ms / 50000) = 1)%Z as ->; [|done].
  assert (- ms / 50000 = -1)%Z as ->; [|done].
  symmetry. apply (Z.div_unique_pos _ _ _ (50000 - ms)); lia.
Qed.

Lemma writers_timeout opt w :
  timeout (llm_request opt) = WORD_CHECK_TIMEOUT_S (word_check_timeout_ms opt)
  ∧ timeout (addWordYoudao opt w).1
    = WORD_CHECK_TIMEOUT_S (word_check_timeout_ms opt)
  ∧ timeout (addWordShanbay opt w).1
    = WORD_CHECK_TIMEOUT_S (word_check_timeout_ms opt)
  ∧ timeout (addWordEudic opt w (wordbook_id opt)).1
    = WORD_CHECK_TIMEOUT_S (word_check_timeout_ms opt).
Proof. done. Qed.

(** *** Serial writes *)

Section Serial.
Context (opt : options) (words : list jsstring).
Hypothesis per_word : (1 ≤ dict_type opt ≤ 3)%Z.

Lemma addWord_writer w :
  ∃ req k, addWord opt w = inl (req, k)
           ∧ write_request opt w = Some req
           ∧ ∀ s, write_outcome opt w s = addWordP_resolve w (k s).
Proof.
  unfold write_request, write_outcome, addWord.
  destruct (dict_type opt =? 1)%Z eqn:H1; [by eexists _, _|].
  destruct (dict_type opt =? 2)%Z eqn:H2; [by eexists _, _|].
  destruct (dict_type opt =? 3)%Z eqn:H3; [by eexists _, _|].
  apply Z.eqb_neq in H1, H2, H3. lia.
Qed.

Lemma write_outcome_word w s : wo_word (write_outcome opt w s) = w.
Proof.
  destruct (addWord_writer w) as (req & k & _ & _ & ->).
  unfold addWordP_resolve. by destruct (k s).
Qed.

Lemma omap_write_request l :
  length (omap (write_request opt) l) = length l.
Proof.
  induction l as [|w l IH]; [done|]. csimpl.
  destruct (addWord_writer w) as (req & k & _ & -> & _). simpl. by rewrite IH.
Qed.

Lemma successes_snoc outs r :
  successes (outs ++ [r])
  = successes outs ++ (if wo_ok r then [wo_word r] else []).
Proof.
  unfold successes. rewrite filter_app, fmap_app. f_equal.
  rewrite filter_cons, filter_nil.
  destruct (wo_ok r); [by rewrite decide_True|by rewrite decide_False].
Qed.

Lemma failures_snoc outs r :
  failures (outs ++ [r])
  = failures outs ++
    (if wo_ok r then []
     else [(wo_word r, str_or (wo_message r) (str "未知原因"))]).
Proof.
  unfold failures. rewrite filter_app, fmap_app. f_equal.
  rewrite filter_cons, filter_nil.
  destruct (wo_ok r); [by rewrite decide_False|by rewrite decide_True].
Qed.

Lemma record_outcome_store st n outs w s :
  store_is st n outs →
  store_is (record_outcome w (write_outcome opt w s) st) n
           (outs ++ [write_outcome opt w s]).
Proof.
  intros (Hi & Hs & Hf). unfold store_is, record_outcome.
  rewrite successes_snoc, failures_snoc, write_outcome_word.
  destruct (wo_ok (write_outcome opt w s)); simpl;
    rewrite ?app_nil_r, ?Hs, ?Hf; done.
Qed.

Lemma settled_log_snoc pre ss w r s :
  length ss = length pre → write_request opt w = Some r →
  settled_log opt (pre ++ [w]) (ss ++ [s])
  = settled_log opt pre ss ++ [EvIssue r; EvSettle r s].
Proof.
  intros Hlen Hr. revert ss Hlen.
  induction pre as [|w' pre IH]; intros [|s' ss] Hlen; try done.
  - simpl. by rewrite Hr.
  - simpl in *. destruct (write_request opt w'); rewrite IH by lia; done.
Qed.

Lemma serial_log_split pre rest ss :
  length ss = length pre →
  serial_log (omap (write_request opt) (pre ++ rest)) ss
  = settled_log opt pre ss ++
    match rest with
    | [] => []
    | w :: _ => match write_request opt w with
                | Some r => [EvIssue r]
                | None => []
                end
    end.
Proof.
  revert ss. induction pre as [|w' pre IH]; intros [|s ss] Hlen; try done.
  - simpl. destruct rest as [|w rest]; [done|]. csimpl.
    destruct (addWord_writer w) as (req & k & _ & -> & _). done.
  - csimpl. destruct (addWord_writer w') as (req & k & _ & -> & _).
    simpl. rewrite IH by (simpl in Hlen; lia). done.
Qed.

(** One call of [next] with the store at [pre] and [rest] to go. *)
Lemma next_serial_state pre rest ss st lg :
  words = pre ++ rest → length ss = length pre →
  store_is st (length pre) (zip_with (write_outcome opt) pre ss) →
  lg = settled_log opt pre ss →
  serial_state opt words pre rest ss
    (apply_effects (next opt words (length rest) st).2
       {| m_store := (next opt words (length rest) st).1;
          inflight := []; log := lg; resolved := None |}).
Proof.
  intros Hw Hlen (Hi & Hs & Hf) ->. unfold serial_state.
  split; [done|]. split; [done|].
  destruct rest as [|w rest'].
  - rewrite app_nil_r in Hw. subst words. simpl.
    rewrite Hi. rewrite (proj2 (Nat.leb_le _ _)) by lia. simpl.
    by rewrite Hs, Hf.
  - simpl.
    assert ((length words <=? idx st)%nat = false) as ->.
    { apply Nat.leb_gt. rewrite Hw, Hi, length_app. simpl. lia. }
    assert (words !! idx st = Some w) as ->.
    { rewrite Hw, Hi. by apply list_lookup_middle. }
    simpl. destruct (addWord_writer w) as (req & k & -> & Hreq & Hout).
    simpl. rewrite Hs, Hf, Hi. repeat split; try done.
    eexists _, _. repeat split; try done.
    intros s st'. by rewrite Hout.
Qed.

Lemma start_serial_state : serial_state opt words [] words [] (start opt words).
Proof.
  unfold start, addWordsInSeries.
  destruct (next opt words (length words) (Store 0 [] [])) as [st effs] eqn:H.
  pose proof (next_serial_state [] words [] (Store 0 [] []) []) as Hn.
  rewrite H in Hn. by apply Hn.
Qed.

Lemma settle_serial_state pre rest ss mc n s mc' :
  serial_state opt words pre rest ss mc → settle n s mc = Some mc' →
  ∃ w rest', rest = w :: rest'
             ∧ serial_state opt words (pre ++ [w]) rest' (ss ++ [s]) mc'.
Proof.
  intros (Hw & Hlen & Hs & Hf & Hrest) Hsettle. unfold settle in Hsettle.
  destruct rest as [|w rest'].
  { destruct Hrest as (_ & Hin & _). by rewrite Hin in Hsettle. }
  destruct Hrest as (req & k & Hreq & Hlog & Hin & Hres & Hidx & Hk).
  rewrite Hin in Hsettle. destruct n as [|n]; [|done]. simpl in Hsettle.
  rewrite Hk in Hsettle. exists w, rest'. split; [done|].
  assert (store_is (record_outcome w (write_outcome opt w s) (m_store mc))
            (length (pre ++ [w]))
            (zip_with (write_outcome opt) (pre ++ [w]) (ss ++ [s]))) as Hst.
  { rewrite zip_with_app by done. simpl.
    rewrite length_app, Nat.add_1_r. simpl.
    by apply record_outcome_store. }
  pose proof (next_serial_state (pre ++ [w]) rest' (ss ++ [s])
                (record_outcome w (write_outcome opt w s) (m_store mc))
                (log mc ++ [EvSettle req s])) as Hn.
  destruct (next opt words (length rest')
              (record_outcome w (write_outcome opt w s) (m_store mc)))
    as [st effs] eqn:Hnext.
  injection Hsettle as <-. rewrite Hres. apply Hn; try done.
  - by rewrite Hw, <- (assoc_L (++)).
  - rewrite !length_app. simpl. lia.
  - rewrite Hlog, <- (assoc_L (++)). simpl.
    by rewrite (settled_log_snoc _ _ _ req).
Qed.

Lemma reachable_serial_state mc :
  rtc step (start opt words) mc →
  ∃ pre rest ss, serial_state opt words pre rest ss mc.
Proof.
  revert mc. apply rtc_ind_r.
  - exists [], words, []. apply start_serial_state.
  - intros mc1 mc2 _ Hstep (pre & rest & ss & Hinv).
    destruct Hstep as [n s mc1 mc2 Hsettle].
    destruct (settle_serial_state _ _ _ _ _ _ _ Hinv Hsettle)
      as (w & rest' & -> & Hinv').
    eauto.
Qed.

Lemma zip_with_prefix pre rest ss :
  length ss = length pre →
  zip_with (write_outcome opt) (pre ++ rest) ss
  = zip_with (write_outcome opt) pre ss.
Proof.
  intros Hlen. rewrite zip_with_app_l.
  rewrite take_ge, drop_ge by lia.
  by rewrite zip_with_nil_r, app_nil_r.
Qed.

Lemma requests_next pre rest :
  omap (write_request opt) (pre ++ rest) !! length pre
  = head (omap (write_request opt) rest).
Proof.
  rewrite omap_app, lookup_app_r by (rewrite omap_write_request; lia).
  rewrite omap_write_request, Nat.sub_diag.
  by destruct (omap (write_request opt) rest).
Qed.

(** What a state of a serial run shows. *)
Lemma serial_state_view pre rest ss mc :
  serial_state opt words pre rest ss mc →
  (length ss ≤ length words)%nat
  ∧ log mc = serial_log (omap (write_request opt) words) ss
  ∧ (inflight mc).*1
    = option_list (omap (write_request opt) words !! length ss)
  ∧ resolved mc
    = if decide (length ss = length words)
      then Some (Report
                   (successes (zip_with (write_outcome opt) words ss))
                   (failures (zip_with (write_outcome opt) words ss)))
      else None.
Proof.
  intros (Hw & Hlen & Hs & Hf & Hrest). subst words.
  rewrite serial_log_split, zip_with_prefix, Hlen, requests_next by done.
  rewrite length_app. split; [lia|].
  destruct rest as [|w rest'].
  - destruct Hrest as (-> & -> & ->). rewrite app_nil_r.
    split; [done|]. split; [done|]. by rewrite decide_True by (simpl; lia).
  - destruct Hrest as (req & k & Hreq & -> & -> & -> & _).
    csimpl. rewrite Hreq. simpl.
    split; [done|]. split; [done|]. by rewrite decide_False by lia.
Qed.

(** A run with a transport goes through all the words. *)
Lemma run_serial_state net rest : ∀ pre ss mc,
  serial_state opt words pre rest ss mc →
  rtc step mc (run net (length rest) mc)
  ∧ serial_state opt words (pre ++ rest) []
      (ss ++ (net <$> omap (write_request opt) rest))
      (run net (length rest) mc).
Proof.
  induction rest as [|w rest' IH]; intros pre ss mc Hinv.
  - simpl. rewrite !app_nil_r. done.
  - pose proof Hinv as (_ & _ & _ & _ & req & k & Hreq & _ & Hin & _).
    simpl. rewrite Hin.
    destruct (settle 0 (net req) mc) as [mc'|] eqn:Hsettle.
    2:{ unfold settle in Hsettle. rewrite Hin in Hsettle. simpl in Hsettle.
        by destruct (k (net req) (m_store mc)). }
    assert (step mc mc') as Hstep by by econstructor.
    destruct (settle_serial_state _ _ _ _ _ _ _ Hinv Hsettle)
      as (w' & rest'' & [= <- <-] & Hinv').
    destruct (IH _ _ _ Hinv') as [Hrtc Hfin]. split.
    + by eapply rtc_l.
    + csimpl. rewrite Hreq. csimpl.
      rewrite <- !(assoc_L (++)) in Hfin. done.
Qed.

Lemma report_in_input_order ss :
  successes (zip_with (write_outcome opt) words ss) `sublist_of` words
  ∧ (failures (zip_with (write_outcome opt) words ss)).*1
    `sublist_of` words.
Proof.
  clear per_word. unfold successes, failures.
  revert ss. induction words as [|w ws IH]; intros [|s ss]; csimpl;
    try (split; apply sublist_nil_l).
  destruct (IH ss) as [IH1 IH2]. rewrite !filter_cons.
  assert (wo_word (write_outcome opt w s) = w) as Hw.
  { unfold write_outcome, addWordP_resolve.
    destruct (addWord opt w) as [[req k]|p]; [by destruct (k s)|by destruct p]. }
  destruct (wo_ok (write_outcome opt w s)) eqn:Hok.
  - rewrite decide_True, decide_False by done. csimpl. rewrite Hw.
    split; [by apply sublist_skip|by apply sublist_cons].
  - rewrite decide_False, decide_True by done. csimpl. rewrite Hw.
    split; [by apply sublist_cons|by apply sublist_skip].
Qed.
End Serial.

(** In a serial log every request after the first is issued right after
    a settlement. *)
Lemma serial_log_issue reqs : ∀ ss i r,
  serial_log reqs ss !! S i = Some (EvIssue r) →
  ∃ r' s, serial_log reqs ss !! i = Some (EvSettle r' s).
Proof.
  induction reqs as [|r0 reqs IH]; intros ss i r; [done|].
  destruct ss as [|s ss]; simpl; [by destruct i|].
  destruct i as [|[|i]]; [done|eauto|]. simpl. apply IH.
Qed.

(** * The properties of the specification *)

(** ** C1: from the LLM's text to the candidate list *)

(** C1, where the specification is off: the text [{"skip":["alpha"]}] is
    valid JSON that is neither an array nor an object with an [add] array.
    The source gives the empty candidate list for it; the tokenizer would
    give [skip] and [alpha]. *)
Lemma other_shape_is_not_tokenized :
  let resp := chat_response 200 (strq "{`skip`:[`alpha`]}") in
  parse (llm_text resp)
    = Some (JObject [(str "skip", JArray [JString (str "alpha")])])
  ∧ candidates_of (Fulfilled resp) = []
  ∧ localExtractWords (llm_text resp) = [str "skip"; str "alpha"]
  ∧ candidates_of (Fulfilled resp)
    ≠ JString <$> localExtractWords (llm_text resp).
Proof. by vm_compute. Qed.

(** C1 (as amended): the candidates come from the text that
    [extractArkContent] finds in the response, trimmed.  When that text
    parses as a JSON array, the array is the candidate list; when it parses
    as an object with an [add] array, that array is; when it parses as any
    other JSON value, the candidate list is empty; and when it does not
    parse, the candidates are the words that the local tokenizer finds in
    the text. *)
Theorem candidates_by_shape (resp : option http_resp) :
  let content := llm_text resp in
  let cands := candidates_of (Fulfilled resp) in
  content = trim (text (extractArkContent (resp ≫= data)))
  ∧ (∀ parsed, parse content = Some (JArray parsed) → cands = parsed)
  ∧ (∀ members add,
       parse content = Some (JObject members) →
       get_member members (str "add") = Some (JArray add) → cands = add)
  ∧ (∀ v, parse content = Some v →
       (∀ parsed, v ≠ JArray parsed) →
       (∀ members add, v = JObject members →
          get_member members (str "add") ≠ Some (JArray add)) →
       cands = [])
  ∧ (parse content = None → cands = JString <$> localExtractWords content).
Proof.
  cbv zeta. simpl. unfold wordsToAdd. split; [done|]. repeat split.
  - by intros parsed ->.
  - by intros members add -> ->.
  - intros v -> Harr Hobj. destruct v as [| | | |l|ms]; try done.
    + by destruct (Harr l).
    + destruct (get_member ms (str "add")) as [[| | | |add|]|] eqn:Hadd;
        try done.
      by destruct (Hobj ms add).
  - by intros ->.
Qed.

(** One response for each of the four cases. *)
Lemma candidates_by_shape_witness :
  candidates_of (Fulfilled (chat_response 200 (strq "[`alpha`]")))
    = [JString (str "alpha")]
  ∧ candidates_of (Fulfilled (chat_response 200
                                (strq "{`add`:[`beta`],`skip`:[]}")))
    = [JString (str "beta")]
  ∧ candidates_of (Fulfilled (chat_response 200 (strq "`gamma`"))) = []
  ∧ candidates_of (Fulfilled (chat_response 200 (str "Words: delta.")))
    = [JString (str "words"); JString (str "delta")].
Proof.
  split; [|split; [|split]].
  - destruct (candidates_by_shape (chat_response 200 (strq "[`alpha`]")))
      as (_ & H & _).
    by apply H.
  - destruct (candidates_by_shape
                (chat_response 200 (strq "{`add`:[`beta`],`skip`:[]}")))
      as (_ & _ & H & _).
    by eapply H.
  - destruct (candidates_by_shape (chat_response 200 (strq "`gamma`")))
      as (_ & _ & _ & H & _).
    by eapply H.
  - destruct (candidates_by_shape (chat_response 200 (str "Words: delta.")))
      as (_ & _ & _ & _ & H).
    by rewrite H.
Defined.

(** ** C2: the transport timeout *)

(** C2, at the default configuration: the millisecond budget is 50000, the
    conversion of the claim gives 50 seconds, and the source, which
    divides by 50000, gives every request a timeout of 1 second. *)
Theorem timeout_at_default :
  WORD_CHECK_TIMEOUT_MS None = 50000%Z
  ∧ Z.max 1 (ceil_div (WORD_CHECK_TIMEOUT_MS None) 1000) = 50%Z
  ∧ WORD_CHECK_TIMEOUT_S None = 1%Z
  ∧ timeout (llm_request (demo_options 1)) = 1%Z
  ∧ timeout (addWordYoudao (demo_options 1) (str "apple")).1 = 1%Z
  ∧ timeout (addWordShanbay (demo_options 3) (str "apple")).1 = 1%Z
  ∧ timeout (addWordsBatchEudic (demo_options 2) [str "apple"]
               (str "0")).1 = 1%Z.
Proof. by vm_compute. Qed.

(** ** C3: the strict-word predicate *)

(** C3, where the specification is off: a string with white space at an
    end (here [hello] followed by a space) contains white space and is
    accepted, because the predicate trims its argument first. *)
Lemma isLikelyEnglishWord_trailing_space :
  (∃ c, c ∈ str "hello " ∧ isWhiteSpace c = true)
  ∧ isLikelyEnglishWord (str "hello ") = true.
Proof. split; [|done]. exists 0x20. split; [|done]. simpl. find_elem. Qed.

(** C3 (as amended): [isLikelyEnglishWord] accepts [s] exactly when the
    trimmed [s] has 1 to 64 code units, is neither e-mail nor URL shaped,
    has no white space, CJK code unit, digit or underscore, is a letter
    optionally followed by letters, hyphens and apostrophes ending in a
    letter, and has no doubled hyphen or apostrophe.  It rejects every
    string with white space inside its trimmed form, every string that
    contains a digit, an underscore or a CJK code unit, and every string of
    e-mail or URL shape. *)
Theorem isLikelyEnglishWord_rule (s : jsstring) :
  (isLikelyEnglishWord s = true ↔ strict_word (trim s))
  ∧ ((∃ c, c ∈ trim s ∧ isWhiteSpace c = true) →
     isLikelyEnglishWord s = false)
  ∧ ((∃ c, c ∈ s ∧ (isDigit c = true ∨ c = 0x5F ∨ isCJK c = true)) →
     isLikelyEnglishWord s = false)
  ∧ (email_shaped s → isLikelyEnglishWord s = false)
  ∧ (url_shaped s → isLikelyEnglishWord s = false).
Proof.
  split; [apply isLikelyEnglishWord_strict|]. repeat split.
  - intros (c & Hc & Hw). apply not_true_iff_false.
    intros (_ & _ & _ & Hall & _)%isLikelyEnglishWord_strict.
    destruct (Hall c Hc) as [? _]. congruence.
  - intros (c & Hc & H).
    assert (isWhiteSpace c = false ∧ isWordChar c = false) as [Hw Hx].
    { split; apply not_true_iff_false.
      - unfold isWhiteSpace.
        rewrite !orb_true_iff, !andb_true_iff, !N.eqb_eq, !N.leb_le.
        destruct H as [H|[->|H]]; [| lia |].
        + unfold isDigit in H. rewrite andb_true_iff, !N.leb_le in H. lia.
        + unfold isCJK in H.
          rewrite !orb_true_iff, !andb_true_iff, !N.leb_le in H. lia.
      - rewrite isWordChar_spec.
        destruct H as [H|[->|H]]; [| lia |].
        + unfold isDigit in H. rewrite andb_true_iff, !N.leb_le in H. lia.
        + unfold isCJK in H.
          rewrite !orb_true_iff, !andb_true_iff, !N.leb_le in H. lia. }
    by eapply isLikelyEnglishWord_foreign.
  - intros H%email_shaped_at. by eapply isLikelyEnglishWord_foreign.
  - intros [H|H]%url_shaped_mark; by eapply isLikelyEnglishWord_foreign.
Qed.

(** A phrase, a string with digits, an address and a host name. *)
Lemma isLikelyEnglishWord_rule_witness :
  isLikelyEnglishWord (str "a b") = false
  ∧ isLikelyEnglishWord (str "r2d2") = false
  ∧ isLikelyEnglishWord (str "me@example.org") = false
  ∧ isLikelyEnglishWord (str "www.example.org") = false.
Proof.
  split; [|split; [|split]].
  - destruct (isLikelyEnglishWord_rule (str "a b")) as (_ & H & _).
    apply H. exists 0x20. split; [|done]. vm_compute. find_elem.
  - destruct (isLikelyEnglishWord_rule (str "r2d2")) as (_ & _ & H & _).
    apply H. exists 0x32. split; [|by left]. vm_compute. find_elem.
  - destruct (isLikelyEnglishWord_rule (str "me@example.org"))
      as (_ & _ & _ & H & _).
    apply H. exists (str "me"), (str "example"), (str "org"). by vm_compute.
  - destruct (isLikelyEnglishWord_rule (str "www.example.org"))
      as (_ & _ & _ & _ & H).
    apply H. right; right; left.
    by exists (str "www."), (str "example.org").
Defined.

(** ** C4: the words of an outcome *)




(** ** C5: the [ok] flag *)

(** C5: when the extraction request is fulfilled with a response and the
    operation resolves, [ok] holds exactly when the status code of the
    response is in 200..299, whatever the words are; in particular with no
    words at all. *)
Theorem ok_iff_2xx (opt : options) (text : jsstring) (net : transport)
    (resp : option http_resp) (o : ExtractionOutcome) :
  (extractWordsByLLMVolcano opt text net).1 = [llm_request opt] →
  net (llm_request opt) = Fulfilled resp →
  (extractWordsByLLMVolcano opt text net).2 = Fulfilled o →
  o_statusCode o = status_or_0 (resp ≫= response)
  ∧ (ok o = true ↔ (200 ≤ o_statusCode o ≤ 299)%Z)
  ∧ (words o = [] → (200 ≤ o_statusCode o ≤ 299)%Z → ok o = true).
Proof.
  unfold extractWordsByLLMVolcano.
  destruct (negb _); simpl; [done|]. intros _ -> Ho.
  apply on_response_Fulfilled in Ho as (_ & Hsc & Hok & _).
  rewrite Hok, bool_decide_eq_true. split; [done|].
  split; [lia|]. intros _ ?. lia.
Qed.

(** A response with status 204 and no valid word. *)
Lemma ok_iff_2xx_witness :
  let o := {| ok := true; o_statusCode := 204; words := [];
              o_data := chat_response 204 (strq "[`a b`,42]") ≫= data;
              errorMessage := None |} in
  words o = [] ∧ ok o = true ∧ (200 ≤ o_statusCode o ≤ 299)%Z.
Proof.
  intros o.
  destruct (ok_iff_2xx (demo_options 1) (str "text")
              (answer 204 (strq "[`a b`,42]"))
              (chat_response 204 (strq "[`a b`,42]")) o)
    as (_ & H & _); [by vm_compute..|].
  split; [done|]. split; [done|]. by apply H.
Defined.

(** ** C6: how the extraction settles *)

(** C6, where the specification is off: the model answers with the text
    [[{"toString":1}]].  The candidate is an object whose member
    [toString] hides the inherited method, [String(...)] throws a
    [TypeError] inside the fulfilment callback, and the promise of the
    extraction is rejected. *)
Lemma extraction_can_reject :
  extractWordsByLLMVolcano (demo_options 1) (str "text")
    (answer 200 (strq "[{`toString`:1}]"))
  = ([llm_request (demo_options 1)], Rejected TypeError).
Proof. by vm_compute. Qed.

(** C6 (as amended): the extraction always returns a promise.  With the
    key, the endpoint or the model missing it issues no request and
    resolves with [ok = false], status code 0 and no words.  Otherwise it
    issues one request.  When the transport rejects, it resolves with
    [ok = false], no words, the status code of the response of the error
    (0 without one) and the message of the error.  When the transport
    fulfils, it resolves, unless a candidate cannot be converted to a
    string, being an object with a member named [toString] or an array
    that holds one: then the promise is rejected with a [TypeError]. *)
Theorem extraction_settles (opt : options) (text : jsstring)
    (net : transport) :
  let set := configured (volcano_api_key opt)
             && configured (volcano_endpoint opt)
             && configured (volcano_model opt) in
  let res := extractWordsByLLMVolcano opt text net in
  (set = false →
     res.1 = [] ∧ ∃ o, res.2 = Fulfilled o ∧ ok o = false
                       ∧ o_statusCode o = 0%Z ∧ words o = [])
  ∧ (set = true →
     res.1 = [llm_request opt]
     ∧ (∀ err, net (llm_request opt) = Rejected err →
          ∃ o, res.2 = Fulfilled o ∧ ok o = false ∧ words o = []
               ∧ o_statusCode o =
                 match err with
                 | ErrObject e => default 0%Z (e_response e ≫= statusCode)
                 | _ => 0%Z
                 end
               ∧ errorMessage o = Some (errorToMessage err))
     ∧ (∀ resp, net (llm_request opt) = Fulfilled resp →
          match res.2 with
          | Fulfilled o =>
            Forall (λ x, hides_toString x = false)
                   (wordsToAdd (llm_text resp))
            ∧ errorMessage o = None
          | Rejected TypeError =>
            ∃ x, x ∈ wordsToAdd (llm_text resp) ∧ hides_toString x = true
          end)).
Proof.
  cbv zeta. unfold extractWordsByLLMVolcano.
  destruct (configured (volcano_api_key opt)
            && configured (volcano_endpoint opt)
            && configured (volcano_model opt)); simpl.
  - split; [done|]. intros _. split; [done|]. split.
    + intros err ->. eexists. split; [done|]. simpl.
      repeat split. by destruct err as [| |e].
    + intros resp ->.
      destruct (on_response opt resp) as [o|[]] eqn:Ho.
      * apply on_response_Fulfilled in Ho as (_ & _ & _ & Hmsg & Hall).
        split; [|done]. eapply Forall_impl; [done|]. simpl.
        intros x Hx. apply not_true_iff_false. by rewrite <- unprintable_hides.
      * apply on_response_Rejected in Ho as (x & Hx & Hu).
        exists x. by rewrite <- unprintable_hides.
  - split; [|done]. intros _. split; [done|]. eexists. by split.
Qed.

(** A transport that rejects with the text of a timeout. *)
Lemma extraction_settles_witness :
  (∃ o, (extractWordsByLLMVolcano (demo_options 1) (str "text")
           (failure (ErrString (str "timed out")))).2 = Fulfilled o
        ∧ ok o = false ∧ words o = [] ∧ o_statusCode o = 0%Z
        ∧ errorMessage o = Some (str "timed out")).
Proof.
  destruct (extraction_settles (demo_options 1) (str "text")
              (failure (ErrString (str "timed out")))) as [_ H].
  destruct H as (_ & H & _); [done|].
  destruct (H (ErrString (str "timed out")) eq_refl)
    as (o & Ho & Hok & Hw & Hsc & Hmsg).
  exists o. done.
Defined.

(** ** C7: failures of a write *)

(** The three writers turn a rejected request into a success payload with
    the fallback message. *)
Lemma writers_mask_rejection opt w id err :
  (addWordYoudao opt w).2 (Rejected err) = masked w
  ∧ (addWordShanbay opt w).2 (Rejected err) = masked w
  ∧ (addWordEudic opt w id).2 (Rejected err) = masked w.
Proof. done. Qed.

(** Youdao and Shanbay report a refusal of the service as an error with
    their own hint, and through [addWord] a rejected request stays a
    success for them. *)
Lemma youdao_shanbay_failures opt w res err :
  (code_is_0 res = false →
   (addWordYoudao opt w).2 (Fulfilled res)
   = PError (str "有道 Cookie 错误或过期，请重新填写。"))
  ∧ (status_is res 200 = false →
     (addWordShanbay opt w).2 (Fulfilled res)
     = PError (str "扇贝 auth_token 错误或过期，请重新填写。"))
  ∧ (dict_type opt = 1%Z ∨ dict_type opt = 3%Z →
     write_outcome opt w (Rejected err)
     = {| wo_word := w; wo_ok := true;
          wo_message := str "添加单词成功（超时本地兜底）：" ++ w |}).
Proof.
  split; [|split].
  - unfold addWordYoudao. cbn [snd]. by intros ->.
  - unfold addWordShanbay. cbn [snd]. by intros ->.
  - unfold write_outcome, addWord. intros [-> | ->]; by vm_compute.
Qed.

(** Through [addWord], Eudic reports any status other than 201 as an error
    with its hint. *)
Lemma eudic_status_failure opt w res :
  dict_type opt = 2%Z → status_is res 201 = false →
  write_outcome opt w (Fulfilled res)
  = {| wo_word := w; wo_ok := false;
       wo_message := str "欧路词典 token 或配置有误，请检查。" |}.
Proof.
  intros Hd Hs. unfold write_outcome, addWord, addWordEudic. rewrite Hd.
  cbn [Z.eqb Pos.eqb payload_status_is]. rewrite Hs. by vm_compute.
Qed.


(** ** C8: serial writes *)

(** C8: for a dictionary that is written word by word, in every state that
    the event loop can reach the log is that of a serial run over the
    words in their order: each request is issued, then settles, before the
    next is issued, so that at most one request is in flight; the promise
    is resolved when the last request has settled, and its report lists
    the successes and the failures in the order of the words.  A run with
    any transport reaches that end. *)
Theorem serial_writes (opt : options) (words : list jsstring) :
  (1 ≤ dict_type opt ≤ 3)%Z →
  let reqs := omap (write_request opt) words in
  let report ss :=
    Report (successes (zip_with (write_outcome opt) words ss))
           (failures (zip_with (write_outcome opt) words ss)) in
  length reqs = length words
  ∧ (∀ mc, rtc step (start opt words) mc →
       ∃ ss, (length ss ≤ length words)%nat
         ∧ log mc = serial_log reqs ss
         ∧ (∀ i r, log mc !! S i = Some (EvIssue r) →
                   ∃ r' s, log mc !! i = Some (EvSettle r' s))
         ∧ (inflight mc).*1 = option_list (reqs !! length ss)
         ∧ resolved mc = (if decide (length ss = length words)
                          then Some (report ss) else None)
         ∧ r_success (report ss) `sublist_of` words
         ∧ (r_failed (report ss)).*1 `sublist_of` words)
  ∧ (∀ net : transport,
       let mc := run net (length words) (start opt words) in
       rtc step (start opt words) mc
       ∧ log mc = serial_log reqs (net <$> reqs)
       ∧ inflight mc = []
       ∧ resolved mc = Some (report (net <$> reqs))).
Proof.
  intros Hd. cbv zeta. split; [by apply omap_write_request|]. split.
  - intros mc (pre & rest & ss & Hinv)%reachable_serial_state; [|done].
    apply serial_state_view in Hinv as (Hlen & Hlog & Hin & Hres); [|done].
    exists ss. split; [done|]. split; [done|].
    split; [rewrite Hlog; apply serial_log_issue|].
    split; [done|]. split; [done|]. apply report_in_input_order.
  - intros net.
    destruct (run_serial_state opt words Hd net words [] []
                (start opt words)) as [Hrtc Hfin].
    { by apply start_serial_state. }
    split; [done|].
    pose proof Hfin as (_ & _ & _ & _ & _ & Hin & _).
    apply serial_state_view in Hfin as (_ & Hlog & _ & Hres); [|done].
    simpl in Hlog, Hres. split; [done|]. split; [done|].
    rewrite Hres, decide_True; [done|].
    by rewrite length_fmap, omap_write_request.
Qed.

(** Two words written to Shanbay over a transport that rejects. *)
Lemma serial_writes_witness :
  let opt := demo_options 3 in
  let words := [str "a"; str "b"] in
  let mc := run (failure ErrNullish) 2 (start opt words) in
  resolved mc = Some (Report [str "a"; str "b"] [])
  ∧ log mc
    = [EvIssue (HttpRequest (ShanbayUpload (str "a")) 1);
       EvSettle (HttpRequest (ShanbayUpload (str "a")) 1)
                (Rejected ErrNullish);
       EvIssue (HttpRequest (ShanbayUpload (str "b")) 1);
       EvSettle (HttpRequest (ShanbayUpload (str "b")) 1)
                (Rejected ErrNullish)].
Proof.
  intros opt words mc.
  destruct (serial_writes opt words) as (_ & _ & H); [by vm_compute|].
  destruct (H (failure ErrNullish)) as (_ & Hlog & _ & Hres).
  split.
  - etrans; [apply Hres|]. by vm_compute.
  - etrans; [apply Hlog|]. by vm_compute.
Defined.

(** ** C9: the local fallback tokenizer *)

(** C9: [localExtractWords] is a total function; its result lists, in the
    order of their first occurrence in the text, the tokens that pass the
    filter; it has no duplicates, consists of lower-case strict words, and
    tokenizing its words joined by spaces gives it back. *)
Theorem localExtractWords_idempotent (text : jsstring) :
  let ws := localExtractWords text in
  ws = first_seen (filter kept (normalizeWord <$> match_all reToken text))
  ∧ NoDup ws
  ∧ Forall (λ w, isLikelyEnglishWord w = true ∧ strict_word w
                 ∧ toLowerCase w = w) ws
  ∧ localExtractWords (join (str " ") ws) = ws.
Proof.
  cbv zeta. split; [apply localExtractWords_first_seen|].
  assert (NoDup (localExtractWords text)) as Hnd.
  { rewrite localExtractWords_first_seen. apply NoDup_first_seen. }
  split; [done|]. split.
  - apply Forall_forall. intros w (Hok & Hl & Ht & _)%localExtractWords_elem.
    split; [done|]. split; [|done].
    apply isLikelyEnglishWord_strict in Hok. by rewrite Ht in Hok.
  - apply localExtractWords_words; [done|].
    apply Forall_forall. apply localExtractWords_elem.
Qed.

(** ** C10: de-duplication looks at letter case *)

(** C10: two candidates that differ, even if only in the case of their
    letters, are both kept by [uniqueStable]; the strict-word predicate
    gives the same verdict on both; and when both pass it, in trimmed form,
    both are in the words of the outcome. *)
Theorem dedup_is_case_sensitive (opt : options) (a b : jsstring) :
  a ≠ b → toLowerCase a = toLowerCase b →
  uniqueStable [a; b] = [a; b]
  ∧ isLikelyEnglishWord a = isLikelyEnglishWord b
  ∧ (isLikelyEnglishWord a = true → trim a = a → trim b = b →
     (2 ≤ maxAdd opt)%Z →
     clean_loop [] [JString a; JString b] = Some [a; b]
     ∧ slice0 (uniqueStable [a; b]) (maxAdd opt) = [a; b]).
Proof.
  intros Hne Hlow.
  assert (uniqueStable [a; b] = [a; b]) as Hu.
  { rewrite uniqueStable_first_seen. simpl.
    rewrite filter_cons_True by done. done. }
  assert (isLikelyEnglishWord a = isLikelyEnglishWord b) as Hab.
  { by rewrite <- (isLikelyEnglishWord_lower a), Hlow,
               isLikelyEnglishWord_lower. }
  split; [done|]. split; [done|]. intros Ha Hta Htb Hmax.
  assert (a ≠ []) as Hane. { intros ->. done. }
  assert (b ≠ []) as Hbne. { intros ->. by rewrite Ha in Hab. }
  split.
  - simpl. unfold candidate_string. simpl.
    rewrite !bool_decide_eq_false_2 by done. simpl.
    rewrite Hta, Htb, <- Hab, Ha. done.
  - rewrite Hu, slice0_nonneg by lia.
    replace (Z.to_nat (maxAdd opt)) with (S (S (Z.to_nat (maxAdd opt - 2))))
      by lia.
    simpl. by rewrite take_nil.
Qed.

(** [Paris] and [paris]. *)
Lemma dedup_is_case_sensitive_witness :
  uniqueStable [str "Paris"; str "paris"] = [str "Paris"; str "paris"]
  ∧ isLikelyEnglishWord (str "Paris") = true
  ∧ isLikelyEnglishWord (str "paris") = true
  ∧ (∃ o, on_response (demo_options 1)
            (chat_response 200 (strq "[`Paris`,`paris`]")) = Fulfilled o
          ∧ words o = [str "Paris"; str "paris"]).
Proof.
  destruct (dedup_is_case_sensitive (demo_options 1)
              (str "Paris") (str "paris")) as (H1 & H2 & H3); [done..|].
  split; [done|]. split; [done|]. split; [by rewrite <- H2|].
  destruct H3 as [Hc Hs]; [done..|].
  eexists. split; [by vm_compute|done].
Defined.

(** * Further properties of the code

    The properties of this part are read off the source: they cover
    functions that the specification's claims leave aside
    ([classifyInput], [translate], [pluginValidate]) and say more about
    the ones they cite. *)

(** ** Input classification *)

Lemma isLikelyEnglishWord_trim text :
  isLikelyEnglishWord (trim text) = isLikelyEnglishWord text.
Proof.
  unfold isLikelyEnglishWord. rewrite trim_idemp.
  destruct (decide (text = [])) as [->|Hne].
  - by rewrite trim_nil.
  - rewrite (bool_decide_false (text = [])) by done.
    case_bool_decide as Ht; [|done]. by rewrite Ht.
Qed.

Lemma isLikelyEnglishWord_nonempty text :
  isLikelyEnglishWord text = true → trim text ≠ [].
Proof.
  intros H%isLikelyEnglishWord_tests. cbn zeta in H.
  destruct H as [[H _] _]. intros E. rewrite E in H. cbn in H. lia.
Qed.

(** X1: [classifyInput] calls a text a single word exactly when the strict
    filter accepts it; a multi-word text when the filter rejects it and
    the trimmed text has white space or one of the punctuation marks of the
    pattern; and invalid otherwise. *)
Theorem classifyInput_kinds (text : jsstring) :
  (c_type (classifyInput text) = single_word
   ↔ isLikelyEnglishWord text = true)
  ∧ (c_type (classifyInput text) = multi_word
     ↔ isLikelyEnglishWord text = false
       ∧ ∃ c, c ∈ trim text ∧ (isWhiteSpace c = true ∨ isPunct c = true))
  ∧ (c_type (classifyInput text) = invalid
     ↔ isLikelyEnglishWord text = false
       ∧ ∀ c, c ∈ trim text → isWhiteSpace c = false ∧ isPunct c = false).
Proof.
  unfold classifyInput. cbn zeta.
  rewrite isLikelyEnglishWord_trim.
  destruct (isLikelyEnglishWord text) eqn:Hw.
  - pose proof (isLikelyEnglishWord_nonempty _ Hw).
    rewrite bool_decide_false by done. cbn. naive_solver.
  - case_bool_decide as Hnil.
    + rewrite Hnil. cbn. split; [done|]. split.
      * split; [done|]. intros [_ (c & Hc & _)]. by apply elem_of_nil in Hc.
      * split; [|done]. intros _. split; [done|]. by intros c Hc%elem_of_nil.
    + destruct (test reSpace (trim text) || test rePunct (trim text)) eqn:Ht;
        cbn; (split; [done|]).
      * split.
        -- split; [|done]. intros _. split; [done|].
           apply orb_true_iff in Ht as [Ht|Ht];
             apply test_Cls in Ht as (c & Hc & Hp); eauto.
        -- split; [done|]. intros [_ Hall].
           apply orb_true_iff in Ht as [Ht|Ht];
             apply test_Cls in Ht as (c & Hc & Hp);
             destruct (Hall c Hc); congruence.
      * apply orb_false_iff in Ht as [Hs Hp].
        pose proof (proj1 (test_Cls_false _ _) Hs) as Hs'.
        pose proof (proj1 (test_Cls_false _ _) Hp) as Hp'.
        split.
        -- split; [done|]. intros [_ (c & Hc & [Hx|Hx])].
           ++ by rewrite (Hs' c Hc) in Hx.
           ++ by rewrite (Hp' c Hc) in Hx.
        -- split; [|done]. intros _. split; [done|]. intros c Hc.
           by rewrite (Hs' c Hc), (Hp' c Hc).
Qed.

(** X2: the [norm] of an input that is not invalid is never empty and has
    no white space at its ends; it is the trimmed text for a multi-word
    input and the trimmed text in lower case for a single word. *)
Theorem classifyInput_norm (text : jsstring) :
  c_type (classifyInput text) ≠ invalid →
  norm (classifyInput text) ≠ []
  ∧ trim (norm (classifyInput text)) = norm (classifyInput text)
  ∧ (c_type (classifyInput text) = multi_word →
     norm (classifyInput text) = trim text)
  ∧ (c_type (classifyInput text) = single_word →
     norm (classifyInput text) = toLowerCase (trim text)).
Proof.
  unfold classifyInput. cbn zeta.
  case_bool_decide as Hnil; [done|].
  destruct (isLikelyEnglishWord (trim text)) eqn:Hw; cbn [norm c_type].
  - intros _. unfold normalizeWord. rewrite trim_idemp.
    split; [|split; [|done]].
    + by destruct (trim text).
    + by rewrite trim_toLowerCase, trim_idemp.
  - destruct (test reSpace (trim text) || test rePunct (trim text));
      cbn [norm c_type]; [|done].
    intros _. by rewrite trim_idemp.
Qed.

Lemma classifyInput_norm_witness :
  norm (classifyInput (str " New  York ")) ≠ []
  ∧ trim (norm (classifyInput (str " New  York ")))
    = norm (classifyInput (str " New  York "))
  ∧ (c_type (classifyInput (str " New  York ")) = multi_word →
     norm (classifyInput (str " New  York ")) = trim (str " New  York "))
  ∧ (c_type (classifyInput (str " New  York ")) = single_word →
     norm (classifyInput (str " New  York "))
     = toLowerCase (trim (str " New  York "))).
Proof. refine (classifyInput_norm (str " New  York ") _). by vm_compute. Defined.

Lemma classifyInput_single text :
  c_type (classifyInput text) = single_word →
  isLikelyEnglishWord text = true
  ∧ norm (classifyInput text) = toLowerCase (trim text).
Proof.
  unfold classifyInput. cbn zeta. rewrite isLikelyEnglishWord_trim.
  case_bool_decide; [done|].
  destruct (isLikelyEnglishWord text); cbn [norm c_type].
  - intros _. unfold normalizeWord. by rewrite trim_idemp.
  - by destruct (test reSpace (trim text) || test rePunct (trim text)).
Qed.

(** X3: the [norm] of a single word is a strict word in lower case, and
    classifying it again changes nothing. *)
Theorem classifyInput_single_word (text : jsstring) :
  c_type (classifyInput text) = single_word →
  strict_word (norm (classifyInput text))
  ∧ norm (classifyInput text) = toLowerCase (trim text)
  ∧ classifyInput (norm (classifyInput text)) = classifyInput text.
Proof.
  intros [Hw Hn]%classifyInput_single.
  assert (isLikelyEnglishWord (toLowerCase (trim text)) = true) as Hl.
  { by rewrite isLikelyEnglishWord_lower, isLikelyEnglishWord_trim. }
  assert (trim (toLowerCase (trim text)) = toLowerCase (trim text)) as Ht.
  { by rewrite trim_toLowerCase, trim_idemp. }
  split; [|split; [done|]].
  - rewrite Hn, <- Ht. by apply isLikelyEnglishWord_strict.
  - rewrite Hn. unfold classifyInput. cbn zeta.
    rewrite Ht, Hl, isLikelyEnglishWord_trim, Hw.
    pose proof (isLikelyEnglishWord_nonempty _ Hw) as Hne.
    pose proof (isLikelyEnglishWord_nonempty _ Hl) as Hne'.
    rewrite Ht in Hne'.
    rewrite !bool_decide_false by done.
    unfold normalizeWord. by rewrite Ht, trim_idemp, toLowerCase_idemp.
Qed.

Lemma classifyInput_single_word_witness :
  strict_word (norm (classifyInput (str " Hello ")))
  ∧ norm (classifyInput (str " Hello ")) = toLowerCase (trim (str " Hello "))
  ∧ classifyInput (norm (classifyInput (str " Hello ")))
    = classifyInput (str " Hello ").
Proof.
  refine (classifyInput_single_word (str " Hello ") _). by vm_compute.
Defined.

(** X4: an e-mail address or a URL is classified as a multi-word input (it
    has a dot or a colon), so [translate] hands it to the LLM. *)
Theorem classifyInput_address (text : jsstring) :
  email_shaped (trim text) ∨ url_shaped (trim text) →
  classifyInput text = Classified multi_word (trim text).
Proof.
  intros Hshape.
  assert (isLikelyEnglishWord text = false) as Hw.
  { apply not_true_is_false. intros Hw%isLikelyEnglishWord_strict.
    destruct Hw as (_ & He & Hu & _). tauto. }
  assert (∃ c, c ∈ trim text ∧ isPunct c = true) as (c & Hc & Hp).
  { destruct Hshape as [He|Hu].
    - destruct He as (a & b & d & -> & _). exists 0x2E. split; [|done].
      set_solver.
    - apply url_shaped_mark in Hu as [H|H]; eauto. }
  unfold classifyInput. cbn zeta. rewrite isLikelyEnglishWord_trim, Hw.
  rewrite bool_decide_false
    by (intros E; rewrite E in Hc; by apply elem_of_nil in Hc).
  assert (test rePunct (trim text) = true) as ->.
  { apply test_Cls. eauto. }
  by rewrite orb_true_r.
Qed.

Lemma classifyInput_address_witness :
  classifyInput (str "me@example.org")
  = Classified multi_word (trim (str "me@example.org")).
Proof.
  refine (classifyInput_address (str "me@example.org") _).
  left. exists (str "me"), (str "example"), (str "org"). by vm_compute.
Defined.

(** ** The tokenizer *)

(** The matcher returns what the continuation returns after a match. *)
Lemma m_Some {A} r i s (k : nat → list N → option A) a :
  m r i s k = Some a →
  ∃ u t, s = u ++ t ∧ denote r i u t ∧ k (i + length u)%nat t = Some a.
Proof.
  revert i s k. induction r as [|p|r1 IH1 r2 IH2|r1 IH1 r2 IH2|r1 IH1|p|p| |];
    intros i s k; simpl.
  - intros H. exists [], s. by rewrite Nat.add_0_r.
  - destruct s as [|c s]; [done|]. destruct (p c) eqn:Hc; [|done].
    intros H. exists [c], s. simpl. rewrite Nat.add_1_r. eauto.
  - intros (u1 & t1 & -> & H1 & (u2 & t & -> & H2 & Hk)%IH2)%IH1.
    exists (u1 ++ u2), t. rewrite length_app, Nat.add_assoc, <- (assoc_L (++)).
    eauto 10.
  - destruct (m r1 i s k) as [b|] eqn:H1.
    + intros [= ->]. destruct (IH1 _ _ _ H1) as (u & t & ? & ? & ?).
      exists u, t. eauto.
    + intros (u & t & ? & ? & ?)%IH2. exists u, t. eauto.
  - destruct (m r1 i s k) as [b|] eqn:H1.
    + intros [= ->]. destruct (IH1 _ _ _ H1) as (u & t & ? & ? & ?).
      exists u, t. eauto.
    + intros H. exists [], s. rewrite Nat.add_0_r. eauto.
  - apply star_Some.
  - destruct s as [|c s]; [done|]. destruct (p c) eqn:Hc; [|done].
    intros (u & t & -> & Hu & Hk)%star_Some.
    exists (c :: u), t. simpl. rewrite Hc, Hu.
    rewrite <- Nat.add_succ_comm. eauto.
  - destruct i; [|done]. intros H. exists [], s. eauto.
  - destruct s; [|done]. intros H. exists [], [].
    rewrite Nat.add_0_r. eauto.
Qed.

Lemma match_at_Some r i s j :
  match_at r i s = Some j →
  ∃ u t, s = u ++ t ∧ denote r i u t ∧ j = (i + length u)%nat.
Proof.
  unfold match_at. intros (u & t & ? & ? & [= <-])%m_Some. eauto.
Qed.

(** Every match of the token pattern is a piece of the text. *)
Lemma match_all_from_infix s : ∀ i skip x,
  x ∈ match_all_from reToken i skip s → has_infix x s ∧ token_shaped x.
Proof.
  induction s as [|c s IH]; intros i skip x.
  - destruct skip; cbn [match_all_from]; [|by intros ?%elem_of_nil].
    rewrite match_at_reToken_None by done. by intros ?%elem_of_nil.
  - assert (∀ y, has_infix y s → has_infix y (c :: s)) as Hcons.
    { intros y (a & b & ->). by exists (c :: a), b. }
    destruct skip as [|n]; cbn [match_all_from].
    + destruct (match_at reToken i (c :: s)) as [j|] eqn:Hm.
      * apply match_at_Some in Hm as (u & t & Hs & Hu & ->).
        replace (i + length u - i)%nat with (length u) by lia.
        replace (take (length u) (c :: s)) with u
          by (by rewrite Hs, take_app_length).
        intros [->|Hx]%elem_of_cons.
        -- split; [by exists [], t|]. by apply denote_reToken in Hu.
        -- apply IH in Hx as [Hx ?]. eauto.
      * intros [Hx ?]%IH. eauto.
    + intros [Hx ?]%IH. eauto.
Qed.

(** X5: the tokenizer invents nothing: each word it returns is a token of
    the text (a letter, or letters, hyphens and apostrophes between two
    letters) in lower case. *)
Theorem localExtractWords_from_text (text w : jsstring) :
  w ∈ localExtractWords text →
  ∃ tok, has_infix tok text ∧ token_shaped tok ∧ w = toLowerCase tok.
Proof.
  rewrite localExtractWords_first_seen, elem_of_first_seen.
  intros [_ (tok & -> & Htok)%list_elem_of_fmap]%list_elem_of_filter.
  apply match_all_from_infix in Htok as [Hin Hshape].
  exists tok. repeat split; [done..|].
  unfold normalizeWord. by rewrite token_shaped_trim.
Qed.

Lemma localExtractWords_from_text_witness :
  ∃ tok, has_infix tok (str "Über-Cool") ∧ token_shaped tok
         ∧ str "ber-cool" = toLowerCase tok.
Proof.
  refine (localExtractWords_from_text (str "Über-Cool") (str "ber-cool") _).
  replace (localExtractWords (str "Über-Cool")) with [str "ber-cool"]
    by (by vm_compute).
  left.
Defined.

Lemma match_all_from_nonletters a : ∀ i t,
  forallb (λ c, negb (isLetter c)) a = true →
  match_all_from reToken i 0 (a ++ t)
  = match_all_from reToken (i + length a) 0 t.
Proof.
  induction a as [|c a IH]; intros i t;
    cbn [app length forallb match_all_from].
  - by rewrite Nat.add_0_r.
  - intros [Hc Ha]%andb_prop. apply negb_true_iff in Hc.
    rewrite match_at_reToken_None by done.
    rewrite IH by done. by rewrite Nat.add_succ_comm.
Qed.

Lemma match_all_reToken_nil i : match_all_from reToken i 0 [] = [].
Proof. cbn [match_all_from]. by rewrite match_at_reToken_None. Qed.

Lemma isWhiteSpace_not_letter c : isWhiteSpace c = true → isLetter c = false.
Proof.
  intros Hs. destruct (isLetter c) eqn:Hl; [|done].
  apply isLetter_isWordChar, isWordChar_not_space in Hl. congruence.
Qed.

Lemma forallb_impl {A} (p q : A → bool) l :
  (∀ x, p x = true → q x = true) → forallb p l = true → forallb q l = true.
Proof.
  intros Hpq. induction l as [|x l IH]; simpl; [done|].
  intros [Hx Hl]%andb_prop. by rewrite (Hpq x Hx), IH.
Qed.

(** A text is white space, its trimmed form, white space. *)
Lemma trim_split s :
  ∃ a b, s = a ++ trim s ++ b
         ∧ forallb isWhiteSpace a = true ∧ forallb isWhiteSpace b = true.
Proof.
  unfold trim, trimEnd, trimStart.
  destruct (dropWhile_split isWhiteSpace s) as (a & Ha & Hwa).
  destruct (dropWhile_split isWhiteSpace (reverse (dropWhile isWhiteSpace s)))
    as (b & Hb & Hwb).
  exists a, (reverse b). split; [|split; [done|]].
  - rewrite <- reverse_app, <- Hb, reverse_involutive. done.
  - clear Hb. induction b as [|x b IH]; [done|].
    simpl in Hwb. apply andb_prop in Hwb as [Hx Hb].
    rewrite reverse_cons, forallb_app, IH by done. simpl. by rewrite Hx.
Qed.

Lemma match_all_strict_word text :
  isLikelyEnglishWord text = true →
  match_all reToken text = [trim text].
Proof.
  intros Hw. pose proof Hw as Hs. apply isLikelyEnglishWord_strict in Hs.
  destruct Hs as (_ & _ & _ & _ & Hshape & _).
  destruct (trim_split text) as (a & b & Htext & Ha & Hb).
  unfold match_all. rewrite Htext at 1.
  rewrite match_all_from_nonletters.
  2:{ eapply forallb_impl; [|exact Ha]. intros x Hx. cbn beta.
      by rewrite isWhiteSpace_not_letter. }
  rewrite match_all_from_token; [|done|].
  2:{ destruct b as [|c b]; [done|]. simpl in *.
      apply andb_prop in Hb as [Hc _].
      destruct (isWordChar c) eqn:Hwc; [|done].
      apply isWordChar_not_space in Hwc. congruence. }
  f_equal. rewrite <- (app_nil_r b), match_all_from_nonletters.
  - apply match_all_reToken_nil.
  - eapply forallb_impl; [|exact Hb]. intros x Hx. cbn beta.
    by rewrite isWhiteSpace_not_letter.
Qed.

(** X6: the tokenizer and the strict filter agree on a single word: a text
    that the filter accepts is tokenized to itself, normalised. *)
Theorem localExtractWords_strict_word (text : jsstring) :
  isLikelyEnglishWord text = true →
  localExtractWords text = [normalizeWord text].
Proof.
  intros Hw. rewrite localExtractWords_first_seen, match_all_strict_word by done.
  csimpl. unfold normalizeWord at 1. rewrite trim_idemp.
  fold (normalizeWord text).
  assert (kept (normalizeWord text)) as Hk.
  { unfold kept, normalizeWord.
    rewrite isLikelyEnglishWord_lower, isLikelyEnglishWord_trim.
    split; [|done]. intros E.
    apply isLikelyEnglishWord_tests in Hw. cbn zeta in Hw.
    destruct Hw as [[Hlen _] _].
    apply (f_equal length) in E. rewrite toLowerCase_length in E.
    simpl in E. lia. }
  rewrite filter_cons_True by done. by rewrite filter_nil.
Qed.

Lemma localExtractWords_strict_word_witness :
  localExtractWords (str "  Well-Known ")
  = [normalizeWord (str "  Well-Known ")].
Proof.
  refine (localExtractWords_strict_word (str "  Well-Known ") _).
  by vm_compute.
Defined.

(** X7: a text without an ASCII letter has no words. *)
Theorem localExtractWords_no_letters (text : jsstring) :
  forallb (λ c, negb (isLetter c)) text = true →
  localExtractWords text = [].
Proof.
  intros Hno. rewrite localExtractWords_first_seen.
  replace (match_all reToken text) with (@nil (list N)); [done|].
  symmetry. destruct (match_all reToken text) as [|x l] eqn:E; [done|].
  exfalso. assert (x ∈ match_all reToken text) as Hin by (rewrite E; left).
  apply match_all_from_infix in Hin as [(a & b & ->) (c & u & -> & Hc & _)].
  rewrite !forallb_app in Hno. cbn [forallb] in Hno.
  rewrite Hc in Hno. cbn [negb andb] in Hno.
  by rewrite andb_false_r in Hno.
Qed.

Lemma localExtractWords_no_letters_witness :
  localExtractWords (str "你好, 2024!") = [].
Proof.
  refine (localExtractWords_no_letters (str "你好, 2024!") _). by vm_compute.
Defined.

(** X8: of the checks of [isLikelyEnglishWord] only three decide: the
    length bound, the word pattern and the pattern for doubled hyphens and
    apostrophes.  The checks for e-mail addresses, URLs, white space, CJK,
    digits and underscores reject nothing that the word pattern accepts. *)
Theorem isLikelyEnglishWord_short (text : jsstring) :
  isLikelyEnglishWord text = true
  ↔ (length (trim text) ≤ 64)%nat
    ∧ test reWord (trim text) = true
    ∧ test reDoubled (trim text) = false.
Proof.
  rewrite isLikelyEnglishWord_strict, strict_word_short, test_reWord.
  rewrite (not_test _ _ _ (test_reDoubled (trim text))).
  split.
  - intros (? & ? & ? & ?). repeat split; [done..|]. tauto.
  - intros (? & ? & H). repeat split; [done..| |]; tauto.
Qed.

(** ** De-duplication *)

(** X9: [uniqueStable] keeps exactly the elements of its argument, each
    once, in the order of the argument and starting with the same element;
    it changes nothing in an array without duplicates, so applying it twice
    is the same as applying it once. *)
Theorem uniqueStable_dedup (arr : list jsstring) :
  NoDup (uniqueStable arr)
  ∧ (∀ x, x ∈ uniqueStable arr ↔ x ∈ arr)
  ∧ uniqueStable arr `sublist_of` arr
  ∧ head (uniqueStable arr) = head arr
  ∧ (NoDup arr → uniqueStable arr = arr)
  ∧ uniqueStable (uniqueStable arr) = uniqueStable arr.
Proof.
  rewrite !uniqueStable_first_seen.
  split; [apply NoDup_first_seen|].
  split; [intros x; apply elem_of_first_seen|].
  split; [apply first_seen_sublist|].
  split; [by destruct arr|].
  split; [apply first_seen_NoDup|].
  apply first_seen_NoDup, NoDup_first_seen.
Qed.

(** ** The LLM response *)

(** X10: only the first choice of a response counts, and a [content] that
    is a string is the text as it is (also when it is empty and the message
    has a [reasoning_content]): the other choices, [output_text] and the
    other members of the response are not read. *)
Theorem extractArkContent_first_choice
    (ms : list (jsstring * value)) (c0 : value) (rest : list value)
    (msg : list (jsstring * value)) (s : jsstring) :
  get_member ms (str "choices") = Some (JArray (c0 :: rest)) →
  get c0 (str "message") = Some (JObject msg) →
  get_member msg (str "content") = Some (JString s) →
  text (extractArkContent (Some (JObject ms))) = s
  ∧ ∀ ms' rest',
      get_member ms' (str "choices") = Some (JArray (c0 :: rest')) →
      extractArkContent (Some (JObject ms'))
      = extractArkContent (Some (JObject ms)).
Proof.
  intros Hch Hmsg Hcontent.
  assert (∀ ms1 rest1,
    get_member ms1 (str "choices") = Some (JArray (c0 :: rest1)) →
    extractArkContent (Some (JObject ms1))
    = ArkContent s (or_else (get c0 (str "finish_reason")) (JString [])))
    as Hone.
  { intros ms1 rest1 H1. unfold extractArkContent, or_else at 1 2.
    cbn [truthy get]. rewrite H1. cbn [truthy].
    destruct c0 as [| | | | |members]; try done.
    cbn [truthy]. rewrite Hmsg. unfold or_else at 1. cbn [truthy get].
    by rewrite Hcontent. }
  split.
  - by rewrite (Hone ms rest Hch).
  - intros ms' rest' H'. by rewrite (Hone ms rest Hch), (Hone ms' rest' H').
Qed.

Lemma extractArkContent_first_choice_witness :
  let c0 := JObject [(str "message",
              JObject [(str "content", JString []);
                       (str "reasoning_content", JString (str "hidden"))])] in
  let ms := [(str "choices", JArray [c0; JNull]);
             (str "output_text", JString (str "other"))] in
  text (extractArkContent (Some (JObject ms))) = []
  ∧ ∀ ms' rest',
      get_member ms' (str "choices") = Some (JArray (c0 :: rest')) →
      extractArkContent (Some (JObject ms'))
      = extractArkContent (Some (JObject ms)).
Proof.
  refine (extractArkContent_first_choice _ _ _ _ _ _ _ _);
    by vm_compute.
Defined.

(** *** Prose answers *)

Lemma candidate_string_JString w : candidate_string (JString w) = Some w.
Proof.
  unfold candidate_string. simpl. case_bool_decide as E; simpl; [by subst|done].
Qed.

Lemma kept_strings_words ws :
  Forall (λ w, isLikelyEnglishWord w = true ∧ trim w = w) ws →
  kept_strings (JString <$> ws) = ws.
Proof.
  induction 1 as [|w ws [Hw Ht] _ IH]; [done|].
  csimpl. rewrite kept_strings_cons, candidate_string_JString, Ht, Hw.
  by rewrite IH.
Qed.

(** X11: when the text of the LLM is not JSON, the extraction is fulfilled
    and its words are the words that the local tokenizer finds in the
    text, up to the limit: the second filter and the de-duplication change
    nothing in them. *)
Theorem on_response_prose (opt : options) (resp : option http_resp) :
  parse (llm_text resp) = None →
  ∃ o, on_response opt resp = Fulfilled o
       ∧ words o = slice0 (localExtractWords (llm_text resp)) (maxAdd opt).
Proof.
  intros Hp.
  assert (wordsToAdd (llm_text resp)
          = JString <$> localExtractWords (llm_text resp)) as Hw.
  { unfold wordsToAdd. by rewrite Hp. }
  destruct (on_response opt resp) as [o|e] eqn:Ho.
  - exists o. split; [done|].
    apply on_response_Fulfilled in Ho as (-> & _). rewrite Hw.
    rewrite kept_strings_words.
    + rewrite first_seen_NoDup; [done|].
      rewrite localExtractWords_first_seen. apply NoDup_first_seen.
    + apply Forall_forall. intros w Hin.
      apply localExtractWords_elem in Hin. tauto.
  - apply on_response_Rejected in Ho as (x & Hx & Hun). rewrite Hw in Hx.
    apply list_elem_of_fmap in Hx as (w & -> & _).
    unfold unprintable in Hun. by rewrite candidate_string_JString in Hun.
Qed.

Lemma on_response_prose_witness :
  ∃ o, on_response (demo_options 1)
         (chat_response 200 (str "Sure: Serendipity, then ephemeral."))
       = Fulfilled o
       ∧ words o
         = slice0 (localExtractWords
                     (llm_text (chat_response 200
                        (str "Sure: Serendipity, then ephemeral."))))
                  (maxAdd (demo_options 1)).
Proof.
  refine (on_response_prose (demo_options 1)
            (chat_response 200 (str "Sure: Serendipity, then ephemeral.")) _).
  by vm_compute.
Defined.

(** *** Error messages *)

Lemma nonempty_Some o s : nonempty o = Some s → s ≠ [].
Proof. destruct o as [[|c l]|]; simpl; by intros [= <-]. Qed.

(** X12: the message that [errorToMessage] makes is never empty, unless
    the error is the empty string itself. *)
Theorem errorToMessage_nonempty (err : error_value) :
  err ≠ ErrString [] →
  ∃ c msg, errorToMessage err = c :: msg.
Proof.
  assert (∀ l : jsstring, l ≠ [] → ∃ c msg, l = c :: msg) as Hcons.
  { intros [|c l] H; [done|eauto]. }
  intros Hne. apply Hcons.
  destruct err as [|s|o]; cbn [errorToMessage].
  - by vm_compute.
  - congruence.
  - destruct (nonempty (e_message o)) as [msg|] eqn:Hm.
    { by apply nonempty_Some in Hm. }
    destruct (nonempty (e_stack o)) as [stk|] eqn:Hs.
    { by apply nonempty_Some in Hs. }
    cbn zeta. match goal with |- context [join ?a ?b] => destruct (join a b) end.
    + by vm_compute.
    + done.
Qed.

Lemma errorToMessage_nonempty_witness :
  ∃ c msg,
    errorToMessage
      (ErrObject {| e_message := Some []; e_stack := None;
                    e_response := Some (ResponseInfo None (Some 503%Z) None);
                    e_res := None; e_data_json := []; e_raw_json := [] |})
    = c :: msg.
Proof. refine (errorToMessage_nonempty _ _). done. Defined.

(** ** The endpoint of the LLM *)

Lemma forallb_last p (l : list N) :
  forallb p l = true → l ≠ [] → ∃ c, last l = Some c ∧ p c = true.
Proof.
  induction l as [|c l IH]; [done|]. simpl.
  intros [Hc Hl]%andb_prop _. destruct l as [|d l]; [eauto|].
  apply IH; done.
Qed.

Lemma match_at_reTrailingSlashes i s :
  is_Some (match_at reTrailingSlashes i s)
  ↔ s ≠ [] ∧ forallb (chr 0x2F) s = true.
Proof.
  rewrite match_at_is_Some. split.
  - intros (u & t & -> & (u1 & u2 & -> & [Hne Hu] & [-> ->])).
    rewrite !app_nil_r. done.
  - intros [Hne Hs]. exists s, []. rewrite app_nil_r. split; [done|].
    exists s, []. rewrite app_nil_r. done.
Qed.

Lemma match_at_reTrailingSlashes_Some i s j :
  match_at reTrailingSlashes i s = Some j → j = (i + length s)%nat.
Proof.
  intros (u & t & -> & (u1 & u2 & -> & _ & [-> ->]) & ->)%match_at_Some.
  by rewrite !app_nil_r.
Qed.

(** The pattern for trailing slashes finds the whole run of slashes at the
    end of the text. *)
Lemma exec_from_reTrailingSlashes p : ∀ u i,
  forallb (chr 0x2F) u = true → last p ≠ Some 0x2F →
  exec_from reTrailingSlashes i (p ++ u)
  = match u with
    | [] => None
    | _ => Some ((i + length p)%nat, (i + length p + length u)%nat)
    end.
Proof.
  induction p as [|c p IH]; intros u i Hu Hp.
  - cbn [app length]. rewrite Nat.add_0_r.
    destruct u as [|d u].
    + cbn [exec_from].
      destruct (match_at reTrailingSlashes i []) as [j|] eqn:Hm; [|done].
      assert (is_Some (match_at reTrailingSlashes i [])) as Hs by eauto.
      apply match_at_reTrailingSlashes in Hs as [? _]. done.
    + cbn [exec_from].
      destruct (match_at reTrailingSlashes i (d :: u)) as [j|] eqn:Hm.
      * by apply match_at_reTrailingSlashes_Some in Hm as ->.
      * assert (is_Some (match_at reTrailingSlashes i (d :: u))) as [? Hs].
        { by apply match_at_reTrailingSlashes. }
        congruence.
  - cbn [app exec_from].
    destruct (match_at reTrailingSlashes i (c :: p ++ u)) as [j|] eqn:Hm.
    + assert (is_Some (match_at reTrailingSlashes i (c :: p ++ u))) as Hs
        by eauto.
      apply match_at_reTrailingSlashes in Hs as [_ Hs].
      change (c :: p ++ u) with ((c :: p) ++ u) in Hs.
      rewrite forallb_app in Hs. apply andb_prop in Hs as [Hs _].
      apply forallb_last in Hs as (d & Hd & Hsl); [|done].
      unfold chr in Hsl. apply N.eqb_eq in Hsl. subst d. done.
    + rewrite IH; [|done|].
      * destruct u; [done|]. cbn [length]. do 2 f_equal; lia.
      * destruct p as [|d p]; [done|]. done.
Qed.

Lemma replace_first_reTrailingSlashes p u :
  forallb (chr 0x2F) u = true → last p ≠ Some 0x2F →
  replace_first reTrailingSlashes [] (p ++ u) = p.
Proof.
  intros Hu Hp. unfold replace_first.
  rewrite exec_from_reTrailingSlashes by done.
  destruct u as [|d u]; [by rewrite app_nil_r|].
  cbn [app Nat.add]. rewrite take_app_length.
  rewrite drop_ge; [by rewrite app_nil_r|].
  rewrite length_app. lia.
Qed.

Lemma slashes_split (b : list N) :
  ∃ p u, b = p ++ u ∧ forallb (chr 0x2F) u = true ∧ last p ≠ Some 0x2F.
Proof.
  induction b as [|c b IH] using rev_ind.
  - by exists [], [].
  - destruct (chr 0x2F c) eqn:Hc.
    + destruct IH as (p & u & -> & Hu & Hp). exists p, (u ++ [c]).
      split; [by rewrite (assoc_L (++))|]. split; [|done].
      rewrite forallb_app, Hu. cbn [forallb]. by rewrite Hc.
    + exists (b ++ [c]), []. rewrite app_nil_r, last_snoc.
      split; [done|]. split; [done|]. intros [= ->]. done.
Qed.

(** X13: slashes at the end of the configured endpoint make no
    difference. *)
Theorem llm_base_trailing_slash (b : jsstring) :
  llm_base (b ++ str "/") = llm_base b.
Proof.
  destruct (slashes_split b) as (p & u & -> & Hu & Hp).
  unfold llm_base. rewrite <- (assoc_L (++)).
  rewrite !replace_first_reTrailingSlashes; try done.
  rewrite forallb_app, Hu. done.
Qed.

Lemma test_reApiV3 s :
  test reApiV3 s = true
  ↔ str "/api/v3" `suffix_of` s ∨ str "/api/3" `suffix_of` s.
Proof.
  rewrite test_true. split.
  - intros (a & u & t & -> & u1 & u2 & -> & ->%denote_lit
            & o & u3 & -> & Ho & c & e & -> & (x & -> & Hx) & [-> ->]).
    unfold chr in Hx. apply N.eqb_eq in Hx. subst x.
    destruct Ho as [(y & -> & Hy)| ->].
    + unfold chr in Hy. apply N.eqb_eq in Hy. subst y. left. by exists a.
    + right. by exists a.
  - intros [[a ->]|[a ->]].
    + exists a, (str "/api/v3"), []. split; [by rewrite app_nil_r|].
      exists (str "/api/"), (str "v3"). split; [done|].
      split; [by apply denote_lit|].
      exists (str "v"), (str "3"). split; [done|]. split.
      { left. by exists 0x76. }
      exists (str "3"), []. split; [done|]. split; [by exists 0x33|done].
    + exists a, (str "/api/3"), []. split; [by rewrite app_nil_r|].
      exists (str "/api/"), (str "3"). split; [done|].
      split; [by apply denote_lit|].
      exists [], (str "3"). split; [done|]. split; [by right|].
      exists (str "3"), []. split; [done|]. split; [by exists 0x33|done].
Qed.

Lemma test_reApi s : test reApi s = true ↔ str "/api" `suffix_of` s.
Proof.
  rewrite test_true. split.
  - intros (a & u & t & -> & u1 & u2 & -> & ->%denote_lit & [-> ->]).
    by exists a.
  - intros [a ->]. exists a, (str "/api"), []. split; [by rewrite app_nil_r|].
    exists (str "/api"), []. split; [done|]. split; [by apply denote_lit|done].
Qed.

Lemma llm_base_shape b :
  str "/api/v3" `suffix_of` llm_base b ∨ str "/api/3" `suffix_of` llm_base b.
Proof.
  unfold llm_base. cbn zeta.
  set (base0 := replace_first reTrailingSlashes [] b).
  match goal with |- context [if test reInternalHost ?x then _ else _] =>
    set (base1 := x) end.
  assert (str "/api/v3" `suffix_of` base1 ∨ str "/api/3" `suffix_of` base1)
    as Hshape.
  { subst base1. destruct (test reApiV3 base0) eqn:H3; cbn [negb].
    - by apply test_reApiV3.
    - destruct (test reApi base0) eqn:Ha.
      + apply test_reApi in Ha as [a ->]. left. exists a.
        by rewrite <- (assoc_L (++)).
      + left. by exists base0. }
  destruct (test reInternalHost base1); [|done].
  left. by exists (str "https://ark.cn-beijing.volces.com").
Qed.

Lemma suffix_last (w s : list N) c :
  w `suffix_of` s → last w = Some c → last s = Some c.
Proof.
  intros [a ->] Hw. destruct w as [|d w] using rev_ind; [done|].
  rewrite (assoc_L (++)), last_snoc. by rewrite last_snoc in Hw.
Qed.

(** X14: the endpoint that the request uses always ends in [/api/v3] or
    [/api/3], and it is a fixed point of the normalisation: configuring
    the normalised endpoint gives the same requests. *)
Theorem llm_base_normal_form (b : jsstring) :
  (str "/api/v3" `suffix_of` llm_base b
   ∨ str "/api/3" `suffix_of` llm_base b)
  ∧ llm_base (llm_base b) = llm_base b.
Proof.
  pose proof (llm_base_shape b) as Hshape. split; [done|].
  assert (last (llm_base b) = Some 0x33) as Hlast.
  { destruct Hshape as [H|H]; by eapply suffix_last. }
  assert (test reInternalHost (llm_base b) = false) as Hhost.
  { unfold llm_base. cbn zeta.
    match goal with |- context [if test reInternalHost ?x then _ else _] =>
      destruct (test reInternalHost x) eqn:E end; [by vm_compute|done]. }
  assert (replace_first reTrailingSlashes [] (llm_base b) = llm_base b)
    as Hstrip.
  { rewrite <- (app_nil_r (llm_base b)) at 1.
    apply replace_first_reTrailingSlashes; [done|by rewrite Hlast]. }
  unfold llm_base at 1. cbn zeta. rewrite Hstrip.
  rewrite (proj2 (test_reApiV3 _) Hshape). cbn [negb].
  by rewrite Hhost.
Qed.

Lemma test_reBot s : test reBot s = true ↔ has_prefix_ci (str "bot-") s.
Proof.
  rewrite test_true. split.
  - intros (a & u & t & -> & u1 & u2 & -> & [-> Ha] & Hu%denote_lit_ci).
    destruct a; [|done]. by exists u2, t.
  - intros (u & b & -> & Hu). exists [], u, b. split; [done|].
    exists [], u. split; [done|]. split; [done|]. by apply denote_lit_ci.
Qed.

(** X15: the URL of the request is the endpoint followed by
    [/bots/chat/completions] when the model name starts with [bot-] (in
    any letter case) and by [/chat/completions] otherwise. *)
Theorem llm_url_shape (b m : jsstring) :
  (has_prefix_ci (str "bot-") m →
   llm_url b m = llm_base b ++ str "/bots/chat/completions")
  ∧ (¬ has_prefix_ci (str "bot-") m →
     llm_url b m = llm_base b ++ str "/chat/completions")
  ∧ str "/chat/completions" `suffix_of` llm_url b m.
Proof.
  unfold llm_url. destruct (test reBot m) eqn:E.
  - apply test_reBot in E. split; [done|]. split; [done|].
    exists (llm_base b ++ str "/bots"). by rewrite <- (assoc_L (++)).
  - split; [|split; [done|by exists (llm_base b)]].
    intros H%test_reBot. congruence.
Qed.

(** ** Timeouts *)


(** ** The writers *)

Lemma wo_ok_resolve w p :
  wo_ok (addWordP_resolve w p)
  = match p with PResult _ | PBatchError _ => true | _ => false end.
Proof. by destruct p. Qed.

Lemma wo_word_resolve w p : wo_word (addWordP_resolve w p) = w.
Proof. by destruct p. Qed.

Lemma wo_word_write_outcome opt w s : wo_word (write_outcome opt w s) = w.
Proof.
  unfold write_outcome. destruct (addWord opt w) as [[req k]|p];
    apply wo_word_resolve.
Qed.

(** X17: what counts as a successful write of one word.  For Youdao it is
    [code] being zero in the body, whatever the HTTP status; for Eudic the
    status 201 and for Shanbay the status 200, whatever the body; with an
    unknown dictionary type no answer counts. *)
Theorem write_outcome_verdict (opt : options) (w : jsstring)
    (res : option http_resp) :
  wo_word (write_outcome opt w (Fulfilled res)) = w
  ∧ (dict_type opt = 1%Z →
     wo_ok (write_outcome opt w (Fulfilled res)) = code_is_0 res)
  ∧ (dict_type opt = 2%Z →
     wo_ok (write_outcome opt w (Fulfilled res)) = status_is res 201)
  ∧ (dict_type opt = 3%Z →
     wo_ok (write_outcome opt w (Fulfilled res)) = status_is res 200)
  ∧ ((dict_type opt < 1 ∨ 3 < dict_type opt)%Z →
     wo_ok (write_outcome opt w (Fulfilled res)) = false).
Proof.
  split; [apply wo_word_write_outcome|].
  unfold write_outcome, addWord.
  split; [|split; [|split]].
  - intros ->. change (1 =? 1)%Z with true. lazy beta iota zeta.
    unfold addWordYoudao. lazy beta iota zeta. rewrite wo_ok_resolve.
    by destruct (code_is_0 res).
  - intros ->. change (2 =? 1)%Z with false. change (2 =? 2)%Z with true.
    unfold addWordEudic. lazy beta iota zeta. rewrite wo_ok_resolve.
    unfold payload_status_is. by destruct (status_is res 201).
  - intros ->. change (3 =? 1)%Z with false. change (3 =? 2)%Z with false.
    change (3 =? 3)%Z with true.
    unfold addWordShanbay. lazy beta iota zeta. rewrite wo_ok_resolve.
    by destruct (status_is res 200).
  - intros H.
    destruct (Z.eqb_spec (dict_type opt) 1); [lia|].
    destruct (Z.eqb_spec (dict_type opt) 2); [lia|].
    destruct (Z.eqb_spec (dict_type opt) 3); [lia|].
    apply wo_ok_resolve.
Qed.

(** ** Serial writes *)

Lemma addWord_unknown opt w :
  (dict_type opt < 1 ∨ 3 < dict_type opt)%Z →
  addWord opt w = inr (PError (str "未知的词典类型")).
Proof.
  intros H. unfold addWord.
  destruct (Z.eqb_spec (dict_type opt) 1); [lia|].
  destruct (Z.eqb_spec (dict_type opt) 2); [lia|].
  destruct (Z.eqb_spec (dict_type opt) 3); [lia|]. done.
Qed.

Lemma record_unknown w st :
  record_outcome w (addWordP_resolve w (PError (str "未知的词典类型"))) st
  = {| idx := idx st; success := success st;
       failed := failed st ++ [(w, str "未知的词典类型")] |}.
Proof. by vm_compute. Qed.

Lemma next_unknown opt words :
  (dict_type opt < 1 ∨ 3 < dict_type opt)%Z →
  ∀ fuel st, (length words - idx st ≤ fuel)%nat →
  (next opt words fuel st).2
  = [Resolve (Report (success st)
       (failed st ++ ((λ w, (w, str "未知的词典类型"))
                        <$> drop (idx st) words)))].
Proof.
  intros Hd. induction fuel as [|fuel IH]; intros st Hfuel.
  - cbn [next]. destruct (Nat.leb_spec (length words) (idx st)); [|lia].
    rewrite drop_ge by done. by rewrite app_nil_r.
  - cbn [next]. destruct (Nat.leb_spec (length words) (idx st)) as [Hle|Hlt].
    { rewrite drop_ge by done. by rewrite app_nil_r. }
    lazy zeta. rewrite addWord_unknown by done.
    destruct (lookup_lt_is_Some_2 words (idx st) Hlt) as [w Hw].
    rewrite Hw. cbn [default]. rewrite record_unknown.
    rewrite IH by (cbn [idx]; lia). cbn [idx success failed].
    rewrite (drop_S _ _ _ Hw). csimpl. by rewrite <- (assoc_L (++)).
Qed.

Lemma run_idle net fuel mc : inflight mc = [] → run net fuel mc = mc.
Proof. intros H. destruct fuel; [done|]. cbn [run]. by rewrite H. Qed.

Lemma start_unknown opt words :
  (dict_type opt < 1 ∨ 3 < dict_type opt)%Z →
  start opt words
  = {| m_store := (addWordsInSeries opt words).1; inflight := []; log := [];
       resolved := Some (Report []
         ((λ w, (w, str "未知的词典类型")) <$> words)) |}.
Proof.
  intros Hd. unfold start.
  pose proof (next_unknown opt words Hd (length words) (Store 0 [] [])) as H.
  fold (addWordsInSeries opt words) in H.
  destruct (addWordsInSeries opt words) as [st effs]. cbn [snd fst] in *.
  rewrite H by (cbn [idx]; lia). done.
Qed.

(** X18: with a dictionary type that is not 1, 2 or 3, the serial writer
    issues no request; its promise is resolved at once, with every word
    reported as failed for the reason [未知的词典类型]. *)
Theorem series_unknown_dictionary (opt : options) (words : list jsstring)
    (net : transport) :
  (dict_type opt < 1 ∨ 3 < dict_type opt)%Z →
  log (start opt words) = []
  ∧ inflight (start opt words) = []
  ∧ resolved (start opt words)
    = Some (Report [] ((λ w, (w, str "未知的词典类型")) <$> words))
  ∧ run net (length words) (start opt words) = start opt words.
Proof.
  intros Hd. rewrite run_idle; by rewrite start_unknown.
Qed.

Lemma series_unknown_dictionary_witness :
  let opt := demo_options 7 in
  let words := [str "alpha"; str "beta"] in
  log (start opt words) = []
  ∧ inflight (start opt words) = []
  ∧ resolved (start opt words)
    = Some (Report [] ((λ w, (w, str "未知的词典类型")) <$> words))
  ∧ run (failure ErrNullish) (length words) (start opt words)
    = start opt words.
Proof.
  refine (series_unknown_dictionary (demo_options 7)
            [str "alpha"; str "beta"] (failure ErrNullish) _).
  right. reflexivity.
Defined.

Lemma partition_outcomes outs :
  successes outs ++ (failures outs).*1 ≡ₚ wo_word <$> outs.
Proof.
  unfold successes, failures. induction outs as [|r outs IH]; [done|].
  destruct (wo_ok r) eqn:Hr.
  - rewrite filter_cons_True by done.
    rewrite (filter_cons_False (λ r, wo_ok r = false)) by congruence.
    csimpl. by rewrite IH.
  - rewrite filter_cons_False by congruence.
    rewrite (filter_cons_True (λ r, wo_ok r = false)) by done.
    csimpl. rewrite <- IH. by rewrite Permutation_middle.
Qed.

Lemma wo_word_zip opt words : ∀ ss,
  length ss = length words →
  wo_word <$> zip_with (write_outcome opt) words ss = words.
Proof.
  induction words as [|w words IH]; intros [|s ss]; try done.
  intros [= H]. csimpl. by rewrite wo_word_write_outcome, IH.
Qed.

Lemma issued_settled_log opt words : ∀ ss,
  length ss = length words →
  issued (settled_log opt words ss) = omap (write_request opt) words.
Proof.
  induction words as [|w words IH]; intros [|s ss]; try done.
  intros [= H]. cbn [settled_log]. csimpl.
  destruct (write_request opt w); cbn; rewrite IH; done.
Qed.

(** Every serial run ends: the promise of [addWordsInSeries] resolves, the
    requests of the words have been issued in order, and each word is in
    exactly one list of the report. *)
Lemma series_run opt words net :
  ∃ r, resolved (run net (length words) (start opt words)) = Some r
       ∧ inflight (run net (length words) (start opt words)) = []
       ∧ issued (log (run net (length words) (start opt words)))
         = omap (write_request opt) words
       ∧ r_success r ++ (r_failed r).*1 ≡ₚ words.
Proof.
  destruct (decide (1 ≤ dict_type opt ≤ 3)%Z) as [Hd|Hd].
  - destruct (run_serial_state opt words Hd net words [] []
                (start opt words) (start_serial_state opt words Hd))
      as [_ Hst].
    destruct Hst as (_ & Hlen & _ & _ & Hlog & Hin & Hres).
    cbn [app] in *. rewrite Hres. eexists. split; [done|].
    split; [done|]. split.
    + rewrite Hlog. by apply issued_settled_log.
    + cbn [r_success r_failed]. rewrite partition_outcomes.
      by rewrite wo_word_zip.
  - rewrite start_unknown by lia. rewrite run_idle by done.
    cbn [resolved log inflight]. eexists. split; [done|]. split; [done|].
    split.
    + unfold write_request. clear -Hd.
      induction words as [|w words IH]; [done|].
      csimpl. rewrite addWord_unknown by lia. done.
    + cbn [r_success r_failed app]. rewrite <- list_fmap_compose.
      by rewrite list_fmap_id.
Qed.

(** X19: whatever the dictionary type and however the requests settle,
    the serial writer ends with a report in which every word is either a
    success or a failure, once: no word is lost and none is counted
    twice. *)
Theorem series_report_partition (opt : options) (words : list jsstring)
    (net : transport) :
  ∃ r, resolved (run net (length words) (start opt words)) = Some r
       ∧ r_success r ++ (r_failed r).*1 ≡ₚ words
       ∧ (length (r_success r) + length (r_failed r) = length words)%nat.
Proof.
  destruct (series_run opt words net) as (r & Hr & _ & _ & Hperm).
  exists r. split; [done|]. split; [done|].
  apply Permutation_length in Hperm.
  by rewrite length_app, length_fmap in Hperm.
Qed.

(** ** The entry point *)

Lemma configured_true s : configured s = true ↔ s ≠ [].
Proof.
  unfold configured. rewrite negb_true_iff, bool_decide_eq_false. done.
Qed.

Lemma batch_done_rejected ws opt id err :
  batch_done ws ((addWordsBatchEudic opt ws id).2 (Rejected err))
  = Some (PBatchError (str "添加单词成功（批量超时本地兜底），请求词数："
                       ++ str (pretty (length ws)))).
Proof. done. Qed.

Lemma batch_settles ws opt id s :
  ∃ p, match batch_done ws ((addWordsBatchEudic opt ws id).2 s) with
       | Some p => Some p
       | None => batch_done ws
                   ((addWordsBatchEudic opt ws id).2 (Rejected ErrNullish))
       end = Some p.
Proof.
  destruct (batch_done ws ((addWordsBatchEudic opt ws id).2 s)) as [p|];
    [eauto|]. rewrite batch_done_rejected. eauto.
Qed.

(** X20: [translate] tells the host its outcome exactly once on every
    path: it calls [finalize] once, which calls [query.onCompletion] when
    there is one and [completion] otherwise. *)
Theorem translate_one_completion
    (dbg : settled ExtractionOutcome exn → jsstring) (opt : options)
    (q : query) (completion : bool) (net : transport) :
  ∃ p, (translate dbg opt q completion net).2 = finalize q completion p
       ∧ (q_onCompletion q = true →
          (translate dbg opt q completion net).2 = [(OnCompletion, p)])
       ∧ (q_onCompletion q = false → completion = true →
          (translate dbg opt q completion net).2 = [(Completion, p)]).
Proof.
  assert (∃ p, (translate dbg opt q completion net).2
               = finalize q completion p) as [p Hp].
  { unfold translate.
    destruct (configured (authorization opt)); cbn [negb]; [|eauto].
    lazy zeta.
    destruct (c_type (classifyInput (q_text q))); [| |eauto].
    all: destruct (extractWordsByLLMVolcano opt _ net) as [reqs [o|e]];
      [|eauto].
    all: destruct (ok o); cbn [negb]; [|eauto].
    all: case_bool_decide; [eauto|].
    all: destruct (dict_type opt =? 2)%Z.
    all: try (match goal with |- context [addWordsBatchEudic ?o ?w ?i] =>
           destruct (batch_settles w o i (net (addWordsBatchEudic o w i).1))
             as [p Hp];
           destruct (addWordsBatchEudic o w i) as [req k] eqn:E end;
         cbn [fst snd] in *; rewrite Hp; eauto).
    all: match goal with |- context [run ?n (length ?w) (start ?o ?w)] =>
           destruct (series_run o w n) as (r & -> & _) end; eauto. }
  exists p. rewrite Hp. unfold finalize. split; [done|].
  split; [by intros ->|by intros -> ->].
Qed.

(** X21: without the authorization [translate] reports an error, and for
    an invalid input it reports that it skipped the text; in both cases
    it issues no request at all. *)
Theorem translate_without_request
    (dbg : settled ExtractionOutcome exn → jsstring) (opt : options)
    (q : query) (completion : bool) (net : transport) :
  (authorization opt = [] →
   translate dbg opt q completion net
   = ([], finalize q completion (PError (str "「认证信息」缺失"))))
  ∧ (authorization opt ≠ [] →
     c_type (classifyInput (q_text q)) = invalid →
     translate dbg opt q completion net
     = ([], finalize q completion
              (PResult (str "未检测到英文单词，已跳过")))).
Proof.
  unfold translate. split.
  - intros ->. reflexivity.
  - intros Ha%configured_true Hc. rewrite Ha. cbn [negb]. lazy zeta.
    rewrite Hc. reflexivity.
Qed.

(** An outcome that is [ok] comes from a fulfilled request. *)
Lemma extract_ok opt text net o :
  (extractWordsByLLMVolcano opt text net).2 = Fulfilled o → ok o = true →
  (extractWordsByLLMVolcano opt text net).1 = [llm_request opt]
  ∧ ∃ resp, net (llm_request opt) = Fulfilled resp
            ∧ on_response opt resp = Fulfilled o.
Proof.
  unfold extractWordsByLLMVolcano.
  destruct (negb _).
  { cbn [snd]. intros [= <-]. cbn [ok]. done. }
  cbn [fst snd]. destruct (net (llm_request opt)) as [resp|err].
  - eauto.
  - intros [= <-]. cbn [ok on_error]. done.
Qed.

Lemma extract_requests opt text net r :
  r ∈ (extractWordsByLLMVolcano opt text net).1 → r = llm_request opt.
Proof.
  unfold extractWordsByLLMVolcano. destruct (negb _); cbn [fst].
  - by intros ?%elem_of_nil.
  - by intros ->%list_elem_of_singleton.
Qed.

(** X22: when the extraction fails (the LLM is not configured, the request
    is rejected, the status is not 2xx, or the callback throws),
    [translate] reports an error and writes nothing: the only request it
    may have issued is the one to the LLM. *)
Theorem translate_extraction_failure
    (dbg : settled ExtractionOutcome exn → jsstring) (opt : options)
    (q : query) (completion : bool) (net : transport) :
  authorization opt ≠ [] →
  c_type (classifyInput (q_text q)) ≠ invalid →
  (∀ o, (extractWordsByLLMVolcano opt (norm (classifyInput (q_text q)))
           net).2 = Fulfilled o → ok o = false) →
  translate dbg opt q completion net
  = ((extractWordsByLLMVolcano opt (norm (classifyInput (q_text q))) net).1,
     finalize q completion
       (PError (dbg (extractWordsByLLMVolcano opt
                       (norm (classifyInput (q_text q))) net).2)))
  ∧ ∀ r, r ∈ (translate dbg opt q completion net).1 → r = llm_request opt.
Proof.
  intros Ha%configured_true Hc Hfail.
  assert (translate dbg opt q completion net
          = ((extractWordsByLLMVolcano opt
                (norm (classifyInput (q_text q))) net).1,
             finalize q completion
               (PError (dbg (extractWordsByLLMVolcano opt
                               (norm (classifyInput (q_text q))) net).2))))
    as Ht.
  { unfold translate. rewrite Ha. cbn [negb]. lazy zeta.
    destruct (extractWordsByLLMVolcano opt _ net) as [reqs [o|e]] eqn:E;
      cbn [fst snd] in *.
    - rewrite (Hfail o eq_refl). cbn [negb].
      by destruct (c_type (classifyInput (q_text q))).
    - by destruct (c_type (classifyInput (q_text q))). }
  split; [done|]. rewrite Ht. cbn [fst]. apply extract_requests.
Qed.

Lemma translate_extraction_failure_witness :
  let dbg : settled ExtractionOutcome exn → jsstring := λ _, [] in
  let opt := demo_options 1 in
  let q := Query (str "two words") true in
  let net := failure (ErrString (str "timed out")) in
  translate dbg opt q false net
  = ((extractWordsByLLMVolcano opt (norm (classifyInput (q_text q))) net).1,
     finalize q false
       (PError (dbg (extractWordsByLLMVolcano opt
                       (norm (classifyInput (q_text q))) net).2)))
  ∧ ∀ r, r ∈ (translate dbg opt q false net).1 → r = llm_request opt.
Proof.
  refine (translate_extraction_failure (λ _, []) (demo_options 1)
            (Query (str "two words") true) false
            (failure (ErrString (str "timed out"))) _ _ _).
  - by vm_compute.
  - by vm_compute.
  - intros o. vm_compute. by intros [= <-].
Defined.

Lemma slice0_slice0 {A} (l : list A) n :
  (0 ≤ n)%Z → slice0 (slice0 l n) n = slice0 l n.
Proof.
  intros H. rewrite !slice0_nonneg by done.
  by rewrite take_take, Nat.min_id.
Qed.

Lemma uniqueStable_NoDup l : NoDup l → uniqueStable l = l.
Proof. rewrite uniqueStable_first_seen. apply first_seen_NoDup. Qed.

Lemma on_response_words opt resp o :
  on_response opt resp = Fulfilled o →
  NoDup (words o)
  ∧ ((0 ≤ maxAdd opt)%Z → slice0 (words o) (maxAdd opt) = words o).
Proof.
  intros (Hw & _)%on_response_Fulfilled. rewrite Hw. split.
  - eapply prefix_NoDup; [apply slice0_prefix|apply NoDup_first_seen].
  - apply slice0_slice0.
Qed.

(** X23: after a successful extraction [translate] issues the request to
    the LLM and then writes the words of the outcome, cut once more at the
    limit (which changes nothing when the limit is not negative): nothing
    when there is no word, one batch request with all the words for Eudic,
    and otherwise the request of each word in order, once. *)
Theorem translate_requests
    (dbg : settled ExtractionOutcome exn → jsstring) (opt : options)
    (q : query) (completion : bool) (net : transport)
    (o : ExtractionOutcome) :
  authorization opt ≠ [] →
  c_type (classifyInput (q_text q)) ≠ invalid →
  (extractWordsByLLMVolcano opt (norm (classifyInput (q_text q))) net).2
  = Fulfilled o →
  ok o = true →
  (translate dbg opt q completion net).1
  = llm_request opt ::
    (if bool_decide (slice0 (words o) (maxAdd opt) = []) then []
     else if (dict_type opt =? 2)%Z
     then [HttpRequest
             (EudicBatch (wordbook_id opt) (slice0 (words o) (maxAdd opt)))
             (WORD_CHECK_TIMEOUT_S (word_check_timeout_ms opt))]
     else omap (write_request opt) (slice0 (words o) (maxAdd opt)))
  ∧ ((0 ≤ maxAdd opt)%Z → slice0 (words o) (maxAdd opt) = words o).
Proof.
  intros Ha%configured_true Hc Ho Hok.
  destruct (extract_ok _ _ _ _ Ho Hok) as (Hreqs & resp & _ & Hresp).
  destruct (on_response_words _ _ _ Hresp) as [Hnd Hslice].
  split; [|done].
  unfold translate. rewrite Ha. cbn [negb]. lazy zeta.
  destruct (extractWordsByLLMVolcano opt _ net) as [reqs s] eqn:E.
  cbn [fst snd] in *. subst reqs s. rewrite Hok. cbn [negb].
  rewrite (uniqueStable_NoDup _ Hnd).
  assert (∀ X : list http_request * list (channel * payload),
    match c_type (classifyInput (q_text q)) with
    | invalid =>
      ([], finalize q completion (PResult (str "未检测到英文单词，已跳过")))
    | _ => X
    end = X) as Hcls.
  { intros X. by destruct (c_type (classifyInput (q_text q))). }
  rewrite Hcls. clear Hcls.
  case_bool_decide; [reflexivity|].
  destruct (dict_type opt =? 2)%Z.
  - reflexivity.
  - cbn [fst app]. f_equal.
    by destruct (series_run opt (slice0 (words o) (maxAdd opt)) net)
      as (r & _ & _ & -> & _).
Qed.

Lemma translate_requests_witness :
  let net : transport :=
    λ r, match req_target r with
         | LLMChat _ =>
           Fulfilled (chat_response 200 (strq "[`serendipity`,`rare`]"))
         | _ => Rejected ErrNullish
         end in
  let o := {| ok := true; o_statusCode := 200;
              words := [str "serendipity"; str "rare"];
              o_data := chat_response 200 (strq "[`serendipity`,`rare`]")
                        ≫= data;
              errorMessage := None |} in
  let opt := demo_options 2 in
  (translate (λ _, []) opt (Query (str "Serendipity is rare.") true)
     false net).1
  = llm_request opt ::
    (if bool_decide (slice0 (words o) (maxAdd opt) = []) then []
     else if (dict_type opt =? 2)%Z
     then [HttpRequest
             (EudicBatch (wordbook_id opt) (slice0 (words o) (maxAdd opt)))
             (WORD_CHECK_TIMEOUT_S (word_check_timeout_ms opt))]
     else omap (write_request opt) (slice0 (words o) (maxAdd opt)))
  ∧ ((0 ≤ maxAdd opt)%Z → slice0 (words o) (maxAdd opt) = words o).
Proof.
  intros net o opt.
  refine (translate_requests (λ _, []) opt
            (Query (str "Serendipity is rare.") true) false net o
            _ _ _ _); by vm_compute.
Defined.

(** The part of [translate] after a successful extraction. *)
Lemma translate_after_extraction dbg opt q completion net o :
  authorization opt ≠ [] →
  c_type (classifyInput (q_text q)) ≠ invalid →
  (extractWordsByLLMVolcano opt (norm (classifyInput (q_text q))) net).2
  = Fulfilled o →
  ok o = true →
  slice0 (words o) (maxAdd opt) ≠ [] →
  (translate dbg opt q completion net).2
  = if (dict_type opt =? 2)%Z then
      let '(req, k) :=
        addWordsBatchEudic opt (slice0 (words o) (maxAdd opt))
                           (wordbook_id opt) in
      match
        match batch_done (slice0 (words o) (maxAdd opt)) (k (net req)) with
        | Some p => Some p
        | None => batch_done (slice0 (words o) (maxAdd opt))
                             (k (Rejected ErrNullish))
        end
      with
      | Some p => finalize q completion p
      | None => []
      end
    else
      match resolved (run net (length (slice0 (words o) (maxAdd opt)))
                        (start opt (slice0 (words o) (maxAdd opt)))) with
      | Some r =>
        finalize q completion (series_done (slice0 (words o) (maxAdd opt)) r)
      | None => []
      end.
Proof.
  intros Ha%configured_true Hc Ho Hok Hws.
  destruct (extract_ok _ _ _ _ Ho Hok) as (Hreqs & resp & _ & Hresp).
  destruct (on_response_words _ _ _ Hresp) as [Hnd Hslice].
  unfold translate. rewrite Ha. cbn [negb]. lazy zeta.
  destruct (extractWordsByLLMVolcano opt _ net) as [reqs s] eqn:E.
  cbn [fst snd] in *. subst reqs s. rewrite Hok. cbn [negb].
  rewrite (uniqueStable_NoDup _ Hnd).
  rewrite bool_decide_false by done.
  destruct (c_type (classifyInput (q_text q))); [| |done];
    by destruct (dict_type opt =? 2)%Z.
Qed.

(** X24: for the dictionaries that are written word by word, [translate]
    ends a successful extraction with a result, never with an error,
    however the writes went: the failures are counted inside the text of
    the result, whose report holds every word once. *)
Theorem translate_serial_payload
    (dbg : settled ExtractionOutcome exn → jsstring) (opt : options)
    (q : query) (completion : bool) (net : transport)
    (o : ExtractionOutcome) :
  authorization opt ≠ [] →
  c_type (classifyInput (q_text q)) ≠ invalid →
  (extractWordsByLLMVolcano opt (norm (classifyInput (q_text q))) net).2
  = Fulfilled o →
  ok o = true →
  slice0 (words o) (maxAdd opt) ≠ [] →
  dict_type opt ≠ 2%Z →
  ∃ r msg,
    (translate dbg opt q completion net).2
    = finalize q completion (PResult msg)
    ∧ series_done (slice0 (words o) (maxAdd opt)) r = PResult msg
    ∧ r_success r ++ (r_failed r).*1 ≡ₚ slice0 (words o) (maxAdd opt).
Proof.
  intros Ha Hc Ho Hok Hws Hd.
  rewrite (translate_after_extraction _ _ _ _ _ _ Ha Hc Ho Hok Hws).
  destruct (Z.eqb_spec (dict_type opt) 2) as [|_]; [done|].
  destruct (series_run opt (slice0 (words o) (maxAdd opt)) net)
    as (r & -> & _ & _ & Hperm).
  exists r. eexists. split; [reflexivity|]. split; [reflexivity|done].
Qed.

Lemma translate_serial_payload_witness :
  let net : transport :=
    λ r, match req_target r with
         | LLMChat _ =>
           Fulfilled (chat_response 200 (strq "[`serendipity`,`rare`]"))
         | _ => Fulfilled (Some (HttpResp
                  (Some (ResponseInfo (Some 401%Z) None None)) None))
         end in
  let o := {| ok := true; o_statusCode := 200;
              words := [str "serendipity"; str "rare"];
              o_data := chat_response 200 (strq "[`serendipity`,`rare`]")
                        ≫= data;
              errorMessage := None |} in
  ∃ r msg,
    (translate (λ _, []) (demo_options 3)
       (Query (str "Serendipity is rare.") true) false net).2
    = finalize (Query (str "Serendipity is rare.") true) false (PResult msg)
    ∧ series_done (slice0 (words o) (maxAdd (demo_options 3))) r
      = PResult msg
    ∧ r_success r ++ (r_failed r).*1
      ≡ₚ slice0 (words o) (maxAdd (demo_options 3)).
Proof.
  intros net o.
  refine (translate_serial_payload (λ _, []) (demo_options 3)
            (Query (str "Serendipity is rare.") true) false net o
            _ _ _ _ _ _); by vm_compute.
Defined.

(** X25: for Eudic, [translate] ends a successful extraction with a result
    when the batch request is answered with the status 201, and with an
    error for any other answer; but when the request is rejected (a
    timeout, no network), or when the message of a 201 answer cannot be
    converted to a string, it delivers the payload that says the words
    were added. *)
Theorem translate_batch_payload
    (dbg : settled ExtractionOutcome exn → jsstring) (opt : options)
    (q : query) (completion : bool) (net : transport)
    (o : ExtractionOutcome) :
  authorization opt ≠ [] →
  c_type (classifyInput (q_text q)) ≠ invalid →
  (extractWordsByLLMVolcano opt (norm (classifyInput (q_text q))) net).2
  = Fulfilled o →
  ok o = true →
  slice0 (words o) (maxAdd opt) ≠ [] →
  dict_type opt = 2%Z →
  let ws := slice0 (words o) (maxAdd opt) in
  let masked_batch :=
    PBatchError (str "添加单词成功（批量超时本地兜底），请求词数："
                 ++ str (pretty (length ws))) in
  match net (HttpRequest (EudicBatch (wordbook_id opt) ws)
               (WORD_CHECK_TIMEOUT_S (word_check_timeout_ms opt))) with
  | Rejected _ =>
    (translate dbg opt q completion net).2
    = finalize q completion masked_batch
  | Fulfilled res =>
    if status_is res 201 then
      match serverMsg res with
      | Some _ =>
        ∃ msg, (translate dbg opt q completion net).2
               = finalize q completion (PResult msg)
      | None =>
        (translate dbg opt q completion net).2
        = finalize q completion masked_batch
      end
    else
      ∃ msg, (translate dbg opt q completion net).2
             = finalize q completion (PError msg)
  end.
Proof.
  intros Ha Hc Ho Hok Hws Hd. lazy zeta.
  rewrite (translate_after_extraction _ _ _ _ _ _ Ha Hc Ho Hok Hws).
  rewrite Hd. change (2 =? 2)%Z with true. lazy beta iota.
  unfold addWordsBatchEudic. lazy beta iota.
  match goal with |- match net ?r with _ => _ end =>
    destruct (net r) as [res|err] end.
  - unfold batch_done. lazy beta iota zeta.
    destruct (status_is res 201).
    + destruct (serverMsg res) as [msg|]; cbn [mbind option_bind].
      * eexists. reflexivity.
      * reflexivity.
    + eexists. reflexivity.
  - reflexivity.
Qed.

Lemma translate_batch_payload_witness :
  let net : transport :=
    λ r, match req_target r with
         | LLMChat _ =>
           Fulfilled (chat_response 200 (strq "[`serendipity`,`rare`]"))
         | _ => Rejected (ErrString (str "timed out"))
         end in
  (translate (λ _, []) (demo_options 2)
     (Query (str "Serendipity is rare.") true) false net).2
  = [(OnCompletion,
      PBatchError (str "添加单词成功（批量超时本地兜底），请求词数：2"))].
Proof.
  intros net.
  pose (o := {| ok := true; o_statusCode := 200;
                words := [str "serendipity"; str "rare"];
                o_data := chat_response 200 (strq "[`serendipity`,`rare`]")
                          ≫= data;
                errorMessage := None |}).
  pose proof (translate_batch_payload (λ _, []) (demo_options 2)
                (Query (str "Serendipity is rare.") true) false net o) as H.
  etrans; [apply H; by vm_compute|]. by vm_compute.
Defined.

(** ** Validation *)

Lemma queryEudicWordbookIds_shape stringify opt net :
  ∃ t ty msg,
    queryEudicWordbookIds stringify opt net
    = ([VBookList t], [Invalid ty msg]) ∧ (5 ≤ t)%Z.
Proof.
  unfold queryEudicWordbookIds. lazy zeta.
  eexists. destruct (net _) as [res|err].
  - destruct (status_is res 200); do 2 eexists; (split; [reflexivity|lia]).
  - do 2 eexists. split; [reflexivity|lia].
Qed.

(** X26: [pluginValidate] calls [completion] exactly once.  It reports
    the configuration as valid only when the authorization is set and
    either the dictionary is not Eudic, or a notebook id is set and the
    health check, which writes the word [test] to that notebook, is
    answered with the status 201. *)
Theorem pluginValidate_verdict (stringify : value → jsstring)
    (opt : options)
    (net : validate_request → settled (option http_resp) error_value) :
  length (pluginValidate stringify opt net).2 = 1%nat
  ∧ ((pluginValidate stringify opt net).2 = [Valid]
     ↔ authorization opt ≠ []
       ∧ (dict_type opt ≠ 2%Z
          ∨ wordbook_id opt ≠ []
            ∧ ∃ res,
                net (VAddWord
                       (HttpRequest
                          (EudicWords (wordbook_id opt) [str "test"])
                          (WORD_CHECK_TIMEOUT_S (word_check_timeout_ms opt))))
                = Fulfilled res
                ∧ status_is res 201 = true)).
Proof.
  unfold pluginValidate.
  destruct (queryEudicWordbookIds_shape stringify opt net)
    as (t & ty & msg & Hq & _).
  destruct (configured (authorization opt)) eqn:Ha; cbn [negb].
  2:{ split; [done|]. split; [done|]. intros [Hne _].
      apply configured_true in Hne. congruence. }
  apply configured_true in Ha.
  destruct (Z.eqb_spec (dict_type opt) 2) as [Hd|Hd].
  2:{ split; [done|]. split; [|done]. intros _. split; [done|]. by left. }
  destruct (configured (wordbook_id opt)) eqn:Hw; cbn [negb].
  2:{ rewrite Hq. split; [done|]. split; [done|].
      intros [_ [?|[Hne _]]]; [done|].
      apply configured_true in Hne. congruence. }
  apply configured_true in Hw.
  unfold addWordEudic. lazy beta iota.
  match goal with |- context [net ?r] =>
    destruct (net r) as [res|err] eqn:E end.
  - unfold payload_status_is. destruct (status_is res 201) eqn:Hs.
    + split; [done|]. split; [|done]. intros _. split; [done|]. right.
      split; [done|]. eauto.
    + rewrite Hq. split; [done|]. split; [done|].
      intros [_ [?|[_ (res' & [= <-] & ?)]]]; [done|congruence].
  - unfold masked, payload_status_is. rewrite Hq. split; [done|].
    split; [done|]. intros [_ [?|[_ (res' & [=] & ?)]]]. done.
Qed.

(** X27: the validation issues no request without the authorization or
    for a dictionary other than Eudic.  Its requests are the write of the
    word [test] to the configured notebook and the listing of the
    notebooks, whose timeout is at least five seconds; and a
    configuration of Eudic that is reported as valid has issued that write
    and nothing else. *)
Theorem pluginValidate_requests (stringify : value → jsstring)
    (opt : options)
    (net : validate_request → settled (option http_resp) error_value) :
  (dict_type opt ≠ 2%Z → (pluginValidate stringify opt net).1 = [])
  ∧ (authorization opt = [] → (pluginValidate stringify opt net).1 = [])
  ∧ (∀ r, r ∈ (pluginValidate stringify opt net).1 →
       r = VAddWord
             (HttpRequest (EudicWords (wordbook_id opt) [str "test"])
                (WORD_CHECK_TIMEOUT_S (word_check_timeout_ms opt)))
       ∨ ∃ t, r = VBookList t ∧ (5 ≤ t)%Z)
  ∧ ((pluginValidate stringify opt net).2 = [Valid] →
     dict_type opt = 2%Z →
     (pluginValidate stringify opt net).1
     = [VAddWord
          (HttpRequest (EudicWords (wordbook_id opt) [str "test"])
             (WORD_CHECK_TIMEOUT_S (word_check_timeout_ms opt)))]).
Proof.
  unfold pluginValidate.
  destruct (queryEudicWordbookIds_shape stringify opt net)
    as (t & ty & msg & Hq & Ht).
  destruct (configured (authorization opt)) eqn:Ha; cbn [negb].
  2:{ split; [done|]. split; [done|]. split; [|done].
      by intros r ?%elem_of_nil. }
  apply configured_true in Ha.
  destruct (Z.eqb_spec (dict_type opt) 2) as [Hd|Hd].
  2:{ split; [done|]. split; [done|]. split; [|done].
      by intros r ?%elem_of_nil. }
  destruct (configured (wordbook_id opt)) eqn:Hw; cbn [negb].
  2:{ rewrite Hq. cbn [fst snd]. split; [done|]. split; [done|].
      split; [|done]. intros r ->%list_elem_of_singleton. right. eauto. }
  unfold addWordEudic. lazy beta iota.
  match goal with |- context [net ?r] =>
    destruct (net r) as [res|err] eqn:E end.
  - unfold payload_status_is. destruct (status_is res 201) eqn:Hs.
    + cbn [fst snd]. split; [done|]. split; [done|]. split; [|done].
      intros r ->%list_elem_of_singleton. by left.
    + rewrite Hq. cbn [fst snd]. split; [done|]. split; [done|].
      split; [|done].
      intros r [->|[->|?%elem_of_nil]%elem_of_cons]%elem_of_cons;
        [by left|right; eauto|done].
  - unfold masked, payload_status_is. rewrite Hq. cbn [fst snd].
    split; [done|]. split; [done|]. split; [|done].
    intros r [->|[->|?%elem_of_nil]%elem_of_cons]%elem_of_cons;
      [by left|right; eauto|done].
Qed.
